(** * WeaR-emu: guest execution substrate

    A shallow embedding of the emulator core (guest memory, the x86-64
    interpreter, the system-call dispatcher, the PM4 command parser, the
    render queue, the virtual file system and the package loader), followed
    by the properties established about it.

    Conventions.
    - A C++ unsigned [w]-bit integer is a [Z] in [0, 2^w); every place where
      the source computes in a fixed width has its wrap-around written out
      ([u8], [u32], [u64]).
    - A C++ exception is an explicit [Throw]; code that can throw runs in the
      state-and-exception monad [M], in which the state reached at the point
      of the throw is kept (as it is for the C++ objects).
    - Console and logger output is an explicit trace of [Out] records, most
      recent first.
    - Unordered and ordered maps of the source are [gmap]s, except where the
      source iterates over them. *)

From Stdlib Require Import ZArith Lia List Bool Ascii String.
From stdpp Require Import base option gmap strings list.

#[local] Open Scope string_scope.
#[local] Open Scope list_scope.
#[local] Open Scope Z_scope.

(** ** Fixed-width integers *)

Definition u8 (z : Z) : Z := z mod 2^8.
Definition u16 (z : Z) : Z := z mod 2^16.
Definition u32 (z : Z) : Z := z mod 2^32.
Definition u64 (z : Z) : Z := z mod 2^64.

(** [static_cast<int32_t>] and [static_cast<int64_t>] of an unsigned value. *)
Definition i32 (z : Z) : Z := let w := u32 z in if w <? 2^31 then w else w - 2^32.
Definition i64 (z : Z) : Z := let w := u64 z in if w <? 2^63 then w else w - 2^64.

Definition byte_to_Z (b : Byte.byte) : Z := Z.of_N (Byte.to_N b).
Definition Z_to_byte (z : Z) : Byte.byte :=
  default Byte.x00 (Byte.of_N (Z.to_N (u8 z))).

(** ** Text formatting ([std::format]) *)

Definition hex_digit (d : Z) : string :=
  String.substring (Z.to_nat d) 1 "0123456789ABCDEF".

Fixpoint hex_digits (fuel : nat) (z : Z) : string :=
  match fuel with
  | O => ""
  | S k => if z <? 16 then hex_digit z
           else hex_digits k (z / 16) +:+ hex_digit (z mod 16)
  end.

(** ["{:X}"] and ["{:0wX}"] of an unsigned 64-bit value. *)
Definition fmt_X (z : Z) : string := hex_digits 16 z.
Definition fmt_0X (width : nat) (z : Z) : string :=
  let s := hex_digits 16 z in
  String.concat "" (repeat "0" (width - String.length s)%nat) +:+ s.

Definition dec_digit (d : Z) : string :=
  String.substring (Z.to_nat d) 1 "0123456789".

Fixpoint dec_digits (fuel : nat) (z : Z) : string :=
  match fuel with
  | O => ""
  | S k => if z <? 10 then dec_digit z
           else dec_digits k (z / 10) +:+ dec_digit (z mod 10)
  end.

(** ["{}"] of an unsigned, respectively signed, integer. *)
Definition fmt_u (z : Z) : string := dec_digits 20 z.
Definition fmt_i (z : Z) : string :=
  if z <? 0 then "-" +:+ dec_digits 20 (- z) else dec_digits 20 z.

(** [haystack.find(needle) != npos]. *)
Fixpoint contains (needle haystack : string) : bool :=
  String.prefix needle haystack ||
  match haystack with
  | EmptyString => false
  | String _ rest => contains needle rest
  end.

(** ** Exceptions and the state-and-exception monad *)

Inductive MemoryAccessType : Set :=
  OutOfBounds | MisalignedAccess | WriteProtected | InvalidAddress.

Inductive Exn : Type :=
| MemoryAccessException (type : MemoryAccessType) (address size : Z)
| StdException (what : string).

Inductive outcome (A : Type) : Type :=
| Ok (a : A)
| Throw (e : Exn).
Arguments Ok {A} a.
Arguments Throw {A} e.

(** A computation over a state [S] that may throw.  [None] stands for a run
    that has not finished within the fuel it was given (see
    [Gnm.parse_loop]); every other computation returns [Some]. *)
Definition M (S A : Type) : Type := S -> option (S * outcome A).

Definition ret {S A} (a : A) : M S A := fun s => Some (s, Ok a).
Definition throw {S A} (e : Exn) : M S A := fun s => Some (s, Throw e).
Definition out_of_fuel {S A} : M S A := fun _ => None.
Definition bind {S A B} (m : M S A) (k : A -> M S B) : M S B :=
  fun s => match m s with
           | None => None
           | Some (s', Ok a) => k a s'
           | Some (s', Throw e) => Some (s', Throw e)
           end.
Definition get {S} : M S S := fun s => Some (s, Ok s).
Definition put {S} (s : S) : M S unit := fun _ => Some (s, Ok tt).
Definition modify {S} (f : S -> S) : M S unit := fun s => Some (f s, Ok tt).
Definition gets {S A} (f : S -> A) : M S A := fun s => Some (s, Ok (f s)).
(** Lifting a computation that cannot change the state. *)
Definition lift {S A} (o : outcome A) : M S A := fun s => Some (s, o).
(** [try { m } catch (...) { h }]: the state changes of [m] are kept. *)
Definition try_catch {S A} (m : M S A) (h : Exn -> M S A) : M S A :=
  fun s => match m s with
           | None => None
           | Some (s', Ok a) => Some (s', Ok a)
           | Some (s', Throw e) => h e s'
           end.
(** Running a computation on a component [T] of the state [S]. *)
Definition zoom {S T A} (proj : S -> T) (upd : T -> S -> S) (m : M T A) : M S A :=
  fun s => match m (proj s) with
           | None => None
           | Some (t', r) => Some (upd t' s, r)
           end.

Declare Scope m_scope.
Delimit Scope m_scope with M.
Notation "'let*' x := m 'in' k" := (bind m (fun x => k))
  (at level 10, x pattern, m at level 100, k at level 200) : m_scope.
Notation "m ;;; k" := (bind m (fun _ => k))
  (at level 100, k at level 200, right associativity) : m_scope.

(** Output channels. *)
Inductive Out : Type :=
| Cout (line : string)          (* std::cout *)
| Cerr (line : string)          (* std::cerr *)
| SyscallLog (msg : string)     (* WeaR_Syscalls::log *)
| GnmLog (msg : string).        (* WeaR_GnmDriver::log *)

Definition out_text (o : Out) : string :=
  match o with Cout s | Cerr s | SyscallLog s | GnmLog s => s end.

(** ** Guest memory (WeaR_Memory.h, WeaR_Memory.cpp) *)

Module PS4Memory.
Definition MEMORY_SIZE : Z := 8 * 1024 * 1024 * 1024.
Definition USER_BASE : Z := 0x0000000000400000.
Definition HEAP_BASE : Z := 0x0000000200000000.
Definition STACK_TOP : Z := 0x00007FFFFFFFF000.
Definition PHYSICAL_MASK : Z := MEMORY_SIZE - 1.
End PS4Memory.

(** The arena: the byte at each physical offset; an offset that was never
    written holds zero (the arena comes zero-filled from the operating
    system).  A constructed [WeaR_Memory] always owns an arena, since
    [allocateMemory] throws otherwise. *)
Record WeaR_Memory : Type := mkMemory { m_memory : gmap Z Byte.byte }.

Module Mem.
Import PS4Memory.

Definition fresh : WeaR_Memory := mkMemory ∅.

Definition cell (mem : WeaR_Memory) (p : Z) : Byte.byte :=
  default Byte.x00 (m_memory mem !! p).

Definition poke (mem : WeaR_Memory) (p : Z) (b : Byte.byte) : WeaR_Memory :=
  mkMemory (<[p := b]> (m_memory mem)).

Definition translateAddress (virtualAddress : Z) : Z :=
  if USER_BASE <=? virtualAddress
  then Z.land (virtualAddress - USER_BASE) PHYSICAL_MASK
  else Z.land virtualAddress PHYSICAL_MASK.

(** [physicalAddr + size] is computed in 64 bits. *)
Definition validateAccess (physicalAddr size : Z) : outcome unit :=
  if MEMORY_SIZE <? u64 (physicalAddr + size)
  then Throw (MemoryAccessException OutOfBounds physicalAddr size)
  else Ok tt.

Definition isValidAddress (virtualAddress size : Z) : bool :=
  u64 (translateAddress virtualAddress + size) <=? MEMORY_SIZE.

(** Little-endian load and store of [n] bytes at a physical offset (the
    [reinterpret_cast] accesses and [memcpy] of the source on a little-endian
    host). *)
Fixpoint load_le (mem : WeaR_Memory) (p : Z) (n : nat) : Z :=
  match n with
  | O => 0
  | S k => byte_to_Z (cell mem p) + 256 * load_le mem (p + 1) k
  end.

Fixpoint store_le (mem : WeaR_Memory) (p : Z) (n : nat) (v : Z) : WeaR_Memory :=
  match n with
  | O => mem
  | S k => store_le (poke mem p (Z_to_byte v)) (p + 1) k (v / 256)
  end.

(** [read<T>] and [write<T>] for an unsigned integer type of [n] bytes. *)
Definition read (n : nat) (mem : WeaR_Memory) (virtualAddress : Z) : outcome Z :=
  let physicalAddr := translateAddress virtualAddress in
  match validateAccess physicalAddr (Z.of_nat n) with
  | Throw e => Throw e
  | Ok _ => Ok (load_le mem physicalAddr n)
  end.

Definition write (n : nat) (mem : WeaR_Memory) (virtualAddress value : Z)
  : outcome WeaR_Memory :=
  let physicalAddr := translateAddress virtualAddress in
  match validateAccess physicalAddr (Z.of_nat n) with
  | Throw e => Throw e
  | Ok _ => Ok (store_le mem physicalAddr n value)
  end.

(** [memcpy(dest, m_memory + p, size)] and [memcpy(m_memory + p, src, size)]. *)
Fixpoint copy_out (mem : WeaR_Memory) (p : Z) (n : nat) : list Byte.byte :=
  match n with
  | O => []
  | S k => cell mem p :: copy_out mem (p + 1) k
  end.

Fixpoint copy_in (mem : WeaR_Memory) (p : Z) (src : list Byte.byte) : WeaR_Memory :=
  match src with
  | [] => mem
  | b :: rest => copy_in (poke mem p b) (p + 1) rest
  end.

(** [readBlock(virtualAddress, dest, size)].  [dest] is [None] for a null
    pointer and otherwise the host buffer, of at least [size] bytes; the
    result is the buffer after the call. *)
Definition readBlock (mem : WeaR_Memory) (virtualAddress : Z)
    (dest : option (list Byte.byte)) (size : Z) : outcome (option (list Byte.byte)) :=
  match dest with
  | None => Ok None
  | Some d =>
    if size =? 0 then Ok (Some d)
    else
      let physicalAddr := translateAddress virtualAddress in
      match validateAccess physicalAddr size with
      | Throw e => Throw e
      | Ok _ =>
        Ok (Some (copy_out mem physicalAddr (Z.to_nat size) ++ drop (Z.to_nat size) d))
      end
  end.

(** [writeBlock(virtualAddress, src, size)], with [src] a host buffer of at
    least [size] bytes, or [None] for a null pointer. *)
Definition writeBlock (mem : WeaR_Memory) (virtualAddress : Z)
    (src : option (list Byte.byte)) (size : Z) : outcome WeaR_Memory :=
  match src with
  | None => Ok mem
  | Some s =>
    if size =? 0 then Ok mem
    else
      let physicalAddr := translateAddress virtualAddress in
      match validateAccess physicalAddr size with
      | Throw e => Throw e
      | Ok _ => Ok (copy_in mem physicalAddr (take (Z.to_nat size) s))
      end
  end.

Definition fill (mem : WeaR_Memory) (virtualAddress value size : Z)
  : outcome WeaR_Memory :=
  if size =? 0 then Ok mem
  else
    let physicalAddr := translateAddress virtualAddress in
    match validateAccess physicalAddr size with
    | Throw e => Throw e
    | Ok _ =>
      Ok (copy_in mem physicalAddr (repeat (Z_to_byte value) (Z.to_nat size)))
    end.

(** [zero(virtualAddress, size)]. *)
Definition zero (mem : WeaR_Memory) (virtualAddress size : Z) : outcome WeaR_Memory :=
  fill mem virtualAddress 0 size.

End Mem.

(** ** Render command queue (WeaR_RenderQueue.h, WeaR_RenderQueue.cpp) *)

Inductive RenderCmdType : Set :=
| RC_None | RC_Clear | RC_SetPipeline | RC_BindVertexBuffer | RC_BindIndexBuffer
| RC_Draw | RC_DrawIndexed | RC_DrawAuto | RC_ComputeDispatch | RC_EndFrame.

Record WeaR_PipelineState : Type := mkPipelineState {
  ps_vsShaderAddr : Z;
  ps_psShaderAddr : Z;
  ps_csShaderAddr : Z;
  ps_primitiveType : Z;
  ps_cullMode : Z;
  ps_frontFace : Z;
  ps_depthTestEnable : bool;
  ps_depthWriteEnable : bool;
  ps_blendEnable : bool
}.

(** The floating-point clear colour and clear depth of the source record
    keep their default initialisers in every command built by the parser and
    are left out. *)
Record WeaR_DrawCmd : Type := mkDrawCmd {
  type : RenderCmdType;
  vertexCount : Z;
  indexCount : Z;
  instanceCount : Z;
  firstVertex : Z;
  firstIndex : Z;
  firstInstance : Z;
  vertexOffset : Z;
  vertexBufferAddr : Z;
  indexBufferAddr : Z;
  vertexStride : Z;
  indexType : Z;
  groupCountX : Z;
  groupCountY : Z;
  groupCountZ : Z;
  clearStencil : Z;
  pipelineState : WeaR_PipelineState
}.

Record WeaR_RenderQueue : Type := mkRenderQueue {
  m_queue : list WeaR_DrawCmd;
  m_totalPushed : Z;
  m_totalPopped : Z;
  m_frameCount : Z
}.

Module RenderQueue.

Definition default_pipeline : WeaR_PipelineState :=
  mkPipelineState 0 0 0 4 0 0 true true false.

(** A default-initialised [WeaR_DrawCmd]. *)
Definition default_cmd : WeaR_DrawCmd :=
  mkDrawCmd RC_None 0 0 1 0 0 0 0 0 0 0 0 0 0 0 0 default_pipeline.

Definition empty : WeaR_RenderQueue := mkRenderQueue [] 0 0 0.

Definition push (cmd : WeaR_DrawCmd) (q : WeaR_RenderQueue) : WeaR_RenderQueue :=
  mkRenderQueue (m_queue q ++ [cmd]) (u64 (m_totalPushed q + 1))
                (m_totalPopped q) (m_frameCount q).

(** The overload of [push] taking a vector of commands. *)
Definition push_many (cmds : list WeaR_DrawCmd) (q : WeaR_RenderQueue) : WeaR_RenderQueue :=
  match cmds with
  | [] => q
  | _ => mkRenderQueue (m_queue q ++ cmds) (u64 (m_totalPushed q + Z.of_nat (length cmds)))
                       (m_totalPopped q) (m_frameCount q)
  end.

Definition endFrame (q : WeaR_RenderQueue) : WeaR_RenderQueue :=
  let endCmd := mkDrawCmd RC_EndFrame 0 0 1 0 0 0 0 0 0 0 0 0 0 0 0 default_pipeline in
  let q' := push endCmd q in
  mkRenderQueue (m_queue q') (m_totalPushed q') (m_totalPopped q')
                (u64 (m_frameCount q' + 1)).

Definition popAll (q : WeaR_RenderQueue) : list WeaR_DrawCmd * WeaR_RenderQueue :=
  (m_queue q,
   mkRenderQueue [] (m_totalPushed q)
                 (u64 (m_totalPopped q + Z.of_nat (length (m_queue q))))
                 (m_frameCount q)).

Definition isEmpty (q : WeaR_RenderQueue) : bool :=
  match m_queue q with [] => true | _ => false end.

Definition size (q : WeaR_RenderQueue) : Z := Z.of_nat (length (m_queue q)).

Definition clear (q : WeaR_RenderQueue) : WeaR_RenderQueue :=
  mkRenderQueue [] (m_totalPushed q) (m_totalPopped q) (m_frameCount q).

End RenderQueue.

(** ** PM4 packets (PM4_Packets.h) *)

Module PM4.

(** [PacketHeader]: the accessors of the raw 32-bit word. *)
Definition type (raw : Z) : Z := Z.land (Z.shiftr raw 30) 0x3.
Definition count (raw : Z) : Z := Z.land (Z.shiftr raw 16) 0x3FFF.
Definition opcode (raw : Z) : Z := Z.land (Z.shiftr raw 8) 0xFF.
Definition shaderType (raw : Z) : Z := Z.land raw 0xFF.
Definition isType3 (raw : Z) : bool := type raw =? 3.
Definition payloadSize (raw : Z) : Z := count raw + 1.

Definition IT_NOP : Z := 0x10.
Definition IT_WAIT_REG_MEM : Z := 0x3C.
Definition IT_INDIRECT_BUFFER : Z := 0x3F.
Definition IT_SET_SH_REG : Z := 0x76.
Definition IT_SET_CONTEXT_REG : Z := 0x69.
Definition IT_SET_UCONFIG_REG : Z := 0x79.
Definition IT_INDEX_TYPE : Z := 0x2A.
Definition IT_DRAW_INDEX : Z := 0x2B.
Definition IT_DRAW_INDEX_2 : Z := 0x27.
Definition IT_DRAW_INDEX_AUTO : Z := 0x2D.
Definition IT_DISPATCH_DIRECT : Z := 0x15.
Definition IT_EVENT_WRITE : Z := 0x46.
Definition IT_EVENT_WRITE_EOP : Z := 0x47.
Definition IT_RELEASE_MEM : Z := 0x49.
Definition IT_ACQUIRE_MEM : Z := 0x58.
Definition IT_DMA_DATA : Z := 0x50.
Definition IT_WRITE_DATA : Z := 0x37.
Definition IT_CONTEXT_CONTROL : Z := 0x28.
Definition IT_CLEAR_STATE : Z := 0x12.
Definition IT_NUM_INSTANCES : Z := 0x2F.

Definition getOpcodeName (op : Z) : string :=
  if op =? IT_NOP then "IT_NOP"
  else if op =? IT_SET_CONTEXT_REG then "IT_SET_CONTEXT_REG"
  else if op =? IT_SET_SH_REG then "IT_SET_SH_REG"
  else if op =? IT_SET_UCONFIG_REG then "IT_SET_UCONFIG_REG"
  else if op =? IT_DRAW_INDEX then "IT_DRAW_INDEX"
  else if op =? IT_DRAW_INDEX_2 then "IT_DRAW_INDEX_2"
  else if op =? IT_DRAW_INDEX_AUTO then "IT_DRAW_INDEX_AUTO"
  else if op =? IT_DISPATCH_DIRECT then "IT_DISPATCH_DIRECT"
  else if op =? IT_EVENT_WRITE then "IT_EVENT_WRITE"
  else if op =? IT_EVENT_WRITE_EOP then "IT_EVENT_WRITE_EOP"
  else if op =? IT_ACQUIRE_MEM then "IT_ACQUIRE_MEM"
  else if op =? IT_RELEASE_MEM then "IT_RELEASE_MEM"
  else if op =? IT_WAIT_REG_MEM then "IT_WAIT_REG_MEM"
  else if op =? IT_WRITE_DATA then "IT_WRITE_DATA"
  else if op =? IT_DMA_DATA then "IT_DMA_DATA"
  else if op =? IT_INDIRECT_BUFFER then "IT_INDIRECT_BUFFER"
  else if op =? IT_INDEX_TYPE then "IT_INDEX_TYPE"
  else if op =? IT_NUM_INSTANCES then "IT_NUM_INSTANCES"
  else if op =? IT_CONTEXT_CONTROL then "IT_CONTEXT_CONTROL"
  else if op =? IT_CLEAR_STATE then "IT_CLEAR_STATE"
  else "UNKNOWN".

(** [buildHeader(opcode, count, shaderType)]; [count] is the payload length. *)
Definition buildHeader (op cnt sh : Z) : Z :=
  u32 (Z.lor (Z.lor (Z.lor (Z.shiftl 3 30) (Z.shiftl (u32 (cnt - 1)) 16))
                    (Z.shiftl op 8)) sh).

(** A Type-3 header word with the given value of the count field (bits
    16..29) and opcode (bits 8..15). *)
Definition header (op count_field : Z) : Z :=
  Z.lor (Z.lor (Z.shiftl 3 30) (Z.shiftl count_field 16)) (Z.shiftl op 8).

End PM4.

(** ** GPU command parser (WeaR_GnmDriver.h, WeaR_GnmDriver.cpp) *)

(** The tracked GPU state.  The floating-point viewport of the source record
    is never touched by the parser and is left out. *)
Record GpuState : Type := mkGpuState {
  gs_vertexBufferAddr : list Z;
  gs_vertexBufferStride : list Z;
  gs_indexBufferAddr : Z;
  gs_indexBufferSize : Z;
  gs_indexType : Z;
  gs_colorTargetAddr : list Z;
  gs_colorTargetFormat : list Z;
  gs_depthTargetAddr : Z;
  gs_vsShaderAddr : Z;
  gs_psShaderAddr : Z;
  gs_csShaderAddr : Z;
  gs_primitiveType : Z;
  gs_instanceCount : Z
}.

Record WeaR_GnmDriver : Type := mkGnmDriver {
  m_state : GpuState;
  m_packetsProcessed : Z;
  m_drawCallsQueued : Z;
  m_verbose : bool
}.

(** The process-wide objects reached from the system-call handlers: the
    output trace, the GNM driver, the render queue, and the function-local
    statics of the [sys_mmap] and [sceKernelLoadStartModule] handlers. *)
Record World : Type := mkWorld {
  trace : list Out;
  gnm : WeaR_GnmDriver;
  renderQueue : WeaR_RenderQueue;
  mmap_nextAlloc : Z;
  nextModuleId : Z
}.

Module Gnm.

Definition default_state : GpuState :=
  mkGpuState (repeat 0 16) (repeat 0 16) 0 0 0 (repeat 0 8) (repeat 0 8) 0
             0 0 0 4 1.

Definition fresh : WeaR_GnmDriver := mkGnmDriver default_state 0 0 true.

Definition emit (o : Out) : M World unit :=
  modify (fun w => mkWorld (o :: trace w) (gnm w) (renderQueue w)
                           (mmap_nextAlloc w) (nextModuleId w)).

Definition log (message : string) : M World unit := emit (GnmLog message).

Definition set_gnm (g : WeaR_GnmDriver) : M World unit :=
  modify (fun w => mkWorld (trace w) g (renderQueue w)
                           (mmap_nextAlloc w) (nextModuleId w)).

Definition set_state (s : GpuState) : M World unit :=
  modify (fun w =>
    let g := gnm w in
    mkWorld (trace w)
            (mkGnmDriver s (m_packetsProcessed g) (m_drawCallsQueued g) (m_verbose g))
            (renderQueue w) (mmap_nextAlloc w) (nextModuleId w)).

Definition push_cmd (cmd : WeaR_DrawCmd) : M World unit :=
  modify (fun w => mkWorld (trace w) (gnm w) (RenderQueue.push cmd (renderQueue w))
                           (mmap_nextAlloc w) (nextModuleId w)).

Definition incr_drawCallsQueued : M World unit :=
  modify (fun w =>
    let g := gnm w in
    mkWorld (trace w)
            (mkGnmDriver (m_state g) (m_packetsProcessed g)
                         (u64 (m_drawCallsQueued g + 1)) (m_verbose g))
            (renderQueue w) (mmap_nextAlloc w) (nextModuleId w)).

Definition incr_packetsProcessed : M World unit :=
  modify (fun w =>
    let g := gnm w in
    mkWorld (trace w)
            (mkGnmDriver (m_state g) (u64 (m_packetsProcessed g + 1))
                         (m_drawCallsQueued g) (m_verbose g))
            (renderQueue w) (mmap_nextAlloc w) (nextModuleId w)).

Definition when_verbose (m : M World unit) : M World unit :=
  fun w => if m_verbose (gnm w) then m w else ret tt w.

(** [payload[i]]; the handlers only index below the length they checked. *)
Definition word (payload : list Z) (i : nat) : Z := nth i payload 0.

Definition handleNOP (payload : list Z) (cnt : Z) : M World unit := ret tt.

(** The loop of [handleSetContextReg] and [handleSetShReg] over
    [payload[1 .. count-1]]. *)
Fixpoint log_regs (name : string) (regOffset : Z) (i : Z) (values : list Z)
  : M World unit :=
  match values with
  | [] => ret tt
  | value :: rest =>
    let regIndex := u32 (regOffset + (i - 1)) in
    (when_verbose
       (log ("  " +:+ name +:+ "[0x" +:+ fmt_0X 4 regIndex +:+ "] = 0x"
             +:+ fmt_0X 8 value)) ;;;
     log_regs name regOffset (i + 1) rest)%M
  end.

Definition handleSetContextReg (payload : list Z) (cnt : Z) : M World unit :=
  if cnt <? 2 then ret tt
  else log_regs "SET_CONTEXT_REG" (Z.land (word payload 0) 0xFFFF) 1 (drop 1 payload).

Definition handleSetShReg (payload : list Z) (cnt : Z) : M World unit :=
  if cnt <? 2 then ret tt
  else log_regs "SET_SH_REG" (Z.land (word payload 0) 0xFFFF) 1 (drop 1 payload).

Definition handleDrawIndexAuto (payload : list Z) (cnt : Z) : M World unit :=
  if cnt <? 2 then ret tt
  else
    (let* w := get in
     let vertexCount := word payload 0 in
     let inst := gs_instanceCount (m_state (gnm w)) in
     let cmd := mkDrawCmd RC_DrawAuto vertexCount 0 inst 0 0 0 0 0 0 0 0 0 0 0 0
                          RenderQueue.default_pipeline in
     log ("DRAW_INDEX_AUTO: vertices=" +:+ fmt_u vertexCount +:+ ", instances="
          +:+ fmt_u inst) ;;;
     push_cmd cmd ;;;
     incr_drawCallsQueued)%M.

Definition handleDrawIndex2 (payload : list Z) (cnt : Z) : M World unit :=
  if cnt <? 4 then ret tt
  else
    (let* w := get in
     let s := m_state (gnm w) in
     let indexBufferAddr := Z.lor (word payload 1) (u64 (Z.shiftl (word payload 2) 32)) in
     let indexCount := word payload 3 in
     set_state (mkGpuState (gs_vertexBufferAddr s) (gs_vertexBufferStride s)
                           indexBufferAddr (gs_indexBufferSize s) (gs_indexType s)
                           (gs_colorTargetAddr s) (gs_colorTargetFormat s)
                           (gs_depthTargetAddr s) (gs_vsShaderAddr s)
                           (gs_psShaderAddr s) (gs_csShaderAddr s)
                           (gs_primitiveType s) (gs_instanceCount s)) ;;;
     let cmd := mkDrawCmd RC_DrawIndexed 0 indexCount (gs_instanceCount s) 0 0 0 0 0
                          indexBufferAddr 0 (gs_indexType s) 0 0 0 0
                          RenderQueue.default_pipeline in
     log ("DRAW_INDEX_2: indices=" +:+ fmt_u indexCount +:+ ", buffer=0x"
          +:+ fmt_X indexBufferAddr) ;;;
     push_cmd cmd ;;;
     incr_drawCallsQueued)%M.

Definition handleDispatchDirect (payload : list Z) (cnt : Z) : M World unit :=
  if cnt <? 4 then ret tt
  else
    (let x := word payload 0 in
     let y := word payload 1 in
     let z := word payload 2 in
     let cmd := mkDrawCmd RC_ComputeDispatch 0 0 1 0 0 0 0 0 0 0 0 x y z 0
                          RenderQueue.default_pipeline in
     log ("DISPATCH_DIRECT: groups=" +:+ fmt_u x +:+ "x" +:+ fmt_u y +:+ "x"
          +:+ fmt_u z) ;;;
     push_cmd cmd)%M.

Definition handleEventWrite (payload : list Z) (cnt : Z) : M World unit := ret tt.
Definition handleAcquireMem (payload : list Z) (cnt : Z) : M World unit := ret tt.
Definition handleReleaseMem (payload : list Z) (cnt : Z) : M World unit := ret tt.

Definition handleIndexType (payload : list Z) (cnt : Z) : M World unit :=
  if cnt <? 1 then ret tt
  else
    (let* w := get in
     let s := m_state (gnm w) in
     set_state (mkGpuState (gs_vertexBufferAddr s) (gs_vertexBufferStride s)
                           (gs_indexBufferAddr s) (gs_indexBufferSize s)
                           (Z.land (word payload 0) 0x3)
                           (gs_colorTargetAddr s) (gs_colorTargetFormat s)
                           (gs_depthTargetAddr s) (gs_vsShaderAddr s)
                           (gs_psShaderAddr s) (gs_csShaderAddr s)
                           (gs_primitiveType s) (gs_instanceCount s)))%M.

Definition handleNumInstances (payload : list Z) (cnt : Z) : M World unit :=
  if cnt <? 1 then ret tt
  else
    (let* w := get in
     let s := m_state (gnm w) in
     set_state (mkGpuState (gs_vertexBufferAddr s) (gs_vertexBufferStride s)
                           (gs_indexBufferAddr s) (gs_indexBufferSize s)
                           (gs_indexType s)
                           (gs_colorTargetAddr s) (gs_colorTargetFormat s)
                           (gs_depthTargetAddr s) (gs_vsShaderAddr s)
                           (gs_psShaderAddr s) (gs_csShaderAddr s)
                           (gs_primitiveType s) (word payload 0)))%M.

(** [handleIndirectBuffer]; [recurse] is [processCommandBuffer]. *)
Definition handleIndirectBuffer (recurse : Z -> Z -> M World unit)
    (payload : list Z) (cnt : Z) : M World unit :=
  if cnt <? 3 then (ret tt)
  else
    let bufferAddr :=
      Z.lor (word payload 0) (Z.shiftl (Z.land (word payload 1) 0xFFFF) 32) in
    let sizeInDwords := Z.land (word payload 2) 0xFFFFF in
    bind ((log ("INDIRECT_BUFFER: addr=0x" +:+ fmt_X bufferAddr
                           +:+ ", size=" +:+ fmt_u sizeInDwords)))
          (fun _ => recurse bufferAddr sizeInDwords).

(** The opcode switch of [processCommandBuffer]. *)
Definition dispatch_packet (recurse : Z -> Z -> M World unit)
    (op : Z) (payload : list Z) (payloadCount : Z) : M World unit :=
  if op =? PM4.IT_NOP then (handleNOP payload payloadCount)
  else if op =? PM4.IT_SET_CONTEXT_REG then (handleSetContextReg payload payloadCount)
  else if op =? PM4.IT_SET_SH_REG then (handleSetShReg payload payloadCount)
  else if op =? PM4.IT_DRAW_INDEX_AUTO then (handleDrawIndexAuto payload payloadCount)
  else if op =? PM4.IT_DRAW_INDEX_2 then (handleDrawIndex2 payload payloadCount)
  else if op =? PM4.IT_DISPATCH_DIRECT then (handleDispatchDirect payload payloadCount)
  else if (op =? PM4.IT_EVENT_WRITE) || (op =? PM4.IT_EVENT_WRITE_EOP)
       then (handleEventWrite payload payloadCount)
  else if op =? PM4.IT_ACQUIRE_MEM then (handleAcquireMem payload payloadCount)
  else if op =? PM4.IT_RELEASE_MEM then (handleReleaseMem payload payloadCount)
  else if op =? PM4.IT_INDEX_TYPE then (handleIndexType payload payloadCount)
  else if op =? PM4.IT_NUM_INSTANCES then (handleNumInstances payload payloadCount)
  else if op =? PM4.IT_INDIRECT_BUFFER then handleIndirectBuffer recurse payload payloadCount
  else (when_verbose
         (log ("PM4: Unhandled opcode 0x" +:+ fmt_0X 2 op +:+ " ("
               +:+ PM4.getOpcodeName op +:+ ")"))).

(** Reading the [payloadCount] payload words; the word index and its byte
    offset are computed in 32 bits, the address in 64. *)
Fixpoint read_payload (mem : WeaR_Memory) (bufferAddr offset : Z) (i : Z) (n : nat)
  : outcome (list Z) :=
  match n with
  | O => Ok []
  | S k =>
    match Mem.read 4 mem (u64 (bufferAddr + u32 (u32 (offset + i) * 4))) with
    | Throw e => Throw e
    | Ok v =>
      match read_payload mem bufferAddr offset (i + 1) k with
      | Throw e => Throw e
      | Ok rest => Ok (v :: rest)
      end
    end
  end.

(** One iteration of the [while (offset < sizeInDwords)] loop of
    [processCommandBuffer], entered at [offset] with the loop condition true.
    [recurse] is the nested call of [processCommandBuffer] and [continue] the
    rest of the loop from the new offset; [break] ends the loop. *)
Definition loop_body (recurse : Z -> Z -> M World unit) (continue : Z -> M World unit)
    (mem : WeaR_Memory) (bufferAddr sizeInDwords offset : Z) : M World unit :=
  (let* headerRaw := lift (Mem.read 4 mem (u64 (bufferAddr + u32 (offset * 4)))) in
   let offset := u32 (offset + 1) in
   if negb (PM4.isType3 headerRaw) then
     when_verbose
       (log ("PM4: Non-Type3 packet (type=" +:+ fmt_i (PM4.type headerRaw)
             +:+ "), skipping")) ;;;
     continue offset
   else
     let op := PM4.opcode headerRaw in
     let payloadCount := PM4.payloadSize headerRaw in
     if sizeInDwords <? u32 (offset + payloadCount) then
       log ("PM4: Packet overflow at offset " +:+ fmt_u (u32 (offset - 1)))
     else
       let* payload := lift (read_payload mem bufferAddr offset 0 (Z.to_nat payloadCount)) in
       when_verbose
         (log ("PM4: " +:+ PM4.getOpcodeName op +:+ " (0x" +:+ fmt_0X 2 op
               +:+ "), count=" +:+ fmt_u payloadCount)) ;;;
       dispatch_packet recurse op payload payloadCount ;;;
       incr_packetsProcessed ;;;
       continue (u32 (offset + payloadCount)))%M.

(** The loop of [processCommandBuffer] from [offset] on.  One unit of fuel is
    spent per loop iteration; a nested [processCommandBuffer] runs on the
    fuel that is left. *)
Fixpoint parse_loop (fuel : nat) (mem : WeaR_Memory)
    (bufferAddr sizeInDwords offset : Z) : M World unit :=
  match fuel with
  | O => out_of_fuel
  | S fuel' =>
    if offset <? sizeInDwords then
      loop_body (fun addr size => parse_loop fuel' mem addr size 0)
                (fun offset' => parse_loop fuel' mem bufferAddr sizeInDwords offset')
                mem bufferAddr sizeInDwords offset
    else ret tt
  end.

Definition processCommandBuffer (fuel : nat) (mem : WeaR_Memory)
    (bufferAddr sizeInDwords : Z) : M World unit :=
  parse_loop fuel mem bufferAddr sizeInDwords 0.

(** [handleSubmitCommandBuffers]: the loop over the [count] buffers. *)
Fixpoint submit_loop (fuel : nat) (mem : WeaR_Memory)
    (cmdBuffersPtr sizesPtr : Z) (i : Z) (n : nat) : M World unit :=
  match n with
  | O => (ret tt)
  | S k =>
    bind ((lift (Mem.read 8 mem (u64 (cmdBuffersPtr + u32 (i * 8))))))
      (fun bufferAddr =>
       bind ((lift (Mem.read 4 mem (u64 (sizesPtr + u32 (i * 4))))))
         (fun sizeInBytes =>
          let sizeInDwords := sizeInBytes / 4 in
          bind ((when_verbose
                   (log ("  Buffer[" +:+ fmt_u i +:+ "]: addr=0x" +:+ fmt_X bufferAddr
                         +:+ ", size=" +:+ fmt_u sizeInDwords +:+ " DWORDs"))))
            (fun _ =>
             bind (processCommandBuffer fuel mem bufferAddr sizeInDwords)
               (fun _ => submit_loop fuel mem cmdBuffersPtr sizesPtr (i + 1) k))))
  end.

Definition handleSubmitCommandBuffers (fuel : nat) (cnt cmdBuffersPtr sizesPtr : Z)
    (mem : WeaR_Memory) : M World Z :=
  bind ((log ("SubmitCommandBuffers: count=" +:+ fmt_u cnt)))
    (fun _ =>
     bind (submit_loop fuel mem cmdBuffersPtr sizesPtr 0 (Z.to_nat cnt))
       (fun _ => (ret 0))).

End Gnm.

(** ** CPU context (WeaR_Cpu.h) *)

(** [WeaR_Context].  [GPR] is the array member of the anonymous union; the
    named members of the union alias its elements in declaration order (see
    [Ctx.iRAX] and following). *)
Record WeaR_Context : Type := mkContext {
  GPR : list Z;
  RIP : Z;
  RFLAGS : Z;
  CS : Z; DS : Z; ES : Z; FS : Z; GS : Z; SS : Z;
  xmm : list (Z * Z);
  MXCSR : Z
}.

Inductive CpuState : Set := Stopped | Running | Paused | Halted | Faulted.

Module Ctx.

(** The union in [WeaR_Context] declares the named registers in the order
    RAX, RBX, RCX, RDX, RSI, RDI, RBP, RSP, R8 .. R15, so that is the element
    of [GPR] each name denotes. *)
Definition iRAX : nat := 0.
Definition iRBX : nat := 1.
Definition iRCX : nat := 2.
Definition iRDX : nat := 3.
Definition iRSI : nat := 4.
Definition iRDI : nat := 5.
Definition iRBP : nat := 6.
Definition iRSP : nat := 7.
Definition iR8 : nat := 8.
Definition iR9 : nat := 9.
Definition iR10 : nat := 10.
Definition iR11 : nat := 11.
Definition iR12 : nat := 12.
Definition iR13 : nat := 13.
Definition iR14 : nat := 14.
Definition iR15 : nat := 15.

Definition reg (ctx : WeaR_Context) (i : nat) : Z := nth i (GPR ctx) 0.

Definition set_reg (i : nat) (v : Z) (ctx : WeaR_Context) : WeaR_Context :=
  mkContext (<[i := v]> (GPR ctx)) (RIP ctx) (RFLAGS ctx)
            (CS ctx) (DS ctx) (ES ctx) (FS ctx) (GS ctx) (SS ctx)
            (xmm ctx) (MXCSR ctx).

Definition set_RIP (v : Z) (ctx : WeaR_Context) : WeaR_Context :=
  mkContext (GPR ctx) v (RFLAGS ctx)
            (CS ctx) (DS ctx) (ES ctx) (FS ctx) (GS ctx) (SS ctx)
            (xmm ctx) (MXCSR ctx).

Definition set_RFLAGS (v : Z) (ctx : WeaR_Context) : WeaR_Context :=
  mkContext (GPR ctx) (RIP ctx) v
            (CS ctx) (DS ctx) (ES ctx) (FS ctx) (GS ctx) (SS ctx)
            (xmm ctx) (MXCSR ctx).

Definition RAX (ctx : WeaR_Context) : Z := reg ctx iRAX.
Definition RBX (ctx : WeaR_Context) : Z := reg ctx iRBX.
Definition RCX (ctx : WeaR_Context) : Z := reg ctx iRCX.
Definition RDX (ctx : WeaR_Context) : Z := reg ctx iRDX.
Definition RSI (ctx : WeaR_Context) : Z := reg ctx iRSI.
Definition RDI (ctx : WeaR_Context) : Z := reg ctx iRDI.
Definition RBP (ctx : WeaR_Context) : Z := reg ctx iRBP.
Definition RSP (ctx : WeaR_Context) : Z := reg ctx iRSP.
Definition R8 (ctx : WeaR_Context) : Z := reg ctx iR8.
Definition R9 (ctx : WeaR_Context) : Z := reg ctx iR9.
Definition R10 (ctx : WeaR_Context) : Z := reg ctx iR10.

(** [WeaR_Context::reset]. *)
Definition reset : WeaR_Context :=
  mkContext (repeat 0 16) 0 0x202 0 0 0 0 0 0 (repeat (0, 0) 16) 0x1F80.

(** [WeaR_Cpu::getRegisterName]. *)
Definition getRegisterName (index : nat) : string :=
  nth index ["RAX"; "RBX"; "RCX"; "RDX"; "RSI"; "RDI"; "RBP"; "RSP";
             "R8"; "R9"; "R10"; "R11"; "R12"; "R13"; "R14"; "R15"]
      ("R" +:+ fmt_u (Z.of_nat index)).

(** The register a 4-bit register number denotes in the x86-64 instruction
    encoding (Intel SDM vol. 2, table 3-1): 0 RAX, 1 RCX, 2 RDX, 3 RBX,
    4 RSP, 5 RBP, 6 RSI, 7 RDI, 8..15 R8..R15; given as the element of [GPR]
    that carries that name. *)
Definition x86_encoding (n : Z) : nat :=
  nth (Z.to_nat n) [iRAX; iRCX; iRDX; iRBX; iRSP; iRBP; iRSI; iRDI;
                    iR8; iR9; iR10; iR11; iR12; iR13; iR14; iR15] 16%nat.

End Ctx.

(** ** System-call dispatcher (WeaR_Syscalls.h, WeaR_Syscalls.cpp) *)

Record SyscallResult : Type := mkResult {
  value : Z;          (* int64_t *)
  success : bool;
  error : string
}.

(** What a handler can reach: the context and the memory it is passed by
    reference, and the process-wide objects. *)
Record HleState : Type := mkHle {
  h_ctx : WeaR_Context;
  h_mem : WeaR_Memory;
  h_world : World
}.

(** [HleFunction]: arguments RDI, RSI, RDX, R10, R8, R9. *)
Abbreviation HleFunction :=
  (Z -> Z -> Z -> Z -> Z -> Z -> M HleState SyscallResult) (only parsing).

Record WeaR_Syscalls : Type := mkSyscalls {
  m_handlers : gmap Z HleFunction;
  m_totalCalls : Z;
  m_unimplementedCalls : Z
}.

Module Syscall.
Definition SYS_exit : Z := 1.
Definition SYS_fork : Z := 2.
Definition SYS_read : Z := 3.
Definition SYS_write : Z := 4.
Definition SYS_open : Z := 5.
Definition SYS_close : Z := 6.
Definition SYS_mmap : Z := 477.
Definition SYS_munmap : Z := 73.
Definition SYS_mprotect : Z := 74.
Definition SYS_ioctl : Z := 54.
Definition SYS_getpid : Z := 20.
Definition SYS_getuid : Z := 24.
Definition SYS_gettimeofday : Z := 116.
Definition SYS_nanosleep : Z := 240.
Definition SYS_sceKernelLoadStartModule : Z := 594.
Definition SYS_sceKernelStopUnloadModule : Z := 595.
Definition SYS_sceKernelDebugOut : Z := 602.
Definition SYS_sceKernelGetModuleList : Z := 611.
Definition SYS_sceKernelGetModuleInfo : Z := 612.
Definition SYS_sceKernelIsNeoMode : Z := 618.
Definition SYS_sceKernelGetCpuTemperature : Z := 621.
Definition SYS_sceGnmSubmitCommandBuffers : Z := 591.
Definition SYS_sceGnmSubmitDone : Z := 614.
Definition SYS_sceGnmGetGpuCoreClockFrequency : Z := 626.
End Syscall.

Module Syscalls.
Import Syscall.

Definition getSyscallName (num : Z) : string :=
  if num =? SYS_exit then "sys_exit"
  else if num =? SYS_fork then "sys_fork"
  else if num =? SYS_read then "sys_read"
  else if num =? SYS_write then "sys_write"
  else if num =? SYS_open then "sys_open"
  else if num =? SYS_close then "sys_close"
  else if num =? SYS_mmap then "sys_mmap"
  else if num =? SYS_munmap then "sys_munmap"
  else if num =? SYS_mprotect then "sys_mprotect"
  else if num =? SYS_ioctl then "sys_ioctl"
  else if num =? SYS_getpid then "sys_getpid"
  else if num =? SYS_getuid then "sys_getuid"
  else if num =? SYS_gettimeofday then "sys_gettimeofday"
  else if num =? SYS_nanosleep then "sys_nanosleep"
  else if num =? SYS_sceKernelLoadStartModule then "sceKernelLoadStartModule"
  else if num =? SYS_sceKernelStopUnloadModule then "sceKernelStopUnloadModule"
  else if num =? SYS_sceKernelDebugOut then "sceKernelDebugOut"
  else if num =? SYS_sceKernelGetModuleList then "sceKernelGetModuleList"
  else if num =? SYS_sceKernelGetModuleInfo then "sceKernelGetModuleInfo"
  else if num =? SYS_sceKernelIsNeoMode then "sceKernelIsNeoMode"
  else if num =? SYS_sceKernelGetCpuTemperature then "sceKernelGetCpuTemperature"
  else "syscall_" +:+ fmt_u num.

Definition in_world {A} (m : M World A) : M HleState A :=
  zoom h_world (fun w s => mkHle (h_ctx s) (h_mem s) w) m.

Definition log (message : string) : M HleState unit :=
  in_world (Gnm.emit (SyscallLog message)).

Definition set_ctx (ctx : WeaR_Context) : M HleState unit :=
  modify (fun s => mkHle ctx (h_mem s) (h_world s)).

Definition set_mem (mem : WeaR_Memory) : M HleState unit :=
  modify (fun s => mkHle (h_ctx s) mem (h_world s)).

(** The loops of the string-reading handlers: up to [n] characters from
    [addr + i] on, stopping at a zero byte. *)
Fixpoint read_chars (mem : WeaR_Memory) (addr i : Z) (n : nat) : outcome string :=
  match n with
  | O => Ok ""
  | S k =>
    match Mem.read 1 mem (u64 (addr + i)) with
    | Throw e => Throw e
    | Ok c =>
      if c =? 0 then Ok ""
      else match read_chars mem addr (i + 1) k with
           | Throw e => Throw e
           | Ok rest => Ok (String (Ascii.ascii_of_N (Z.to_N c)) rest)
           end
    end
  end.

(** [std::string::max_size()] of the host library; [reserve] beyond it throws
    [std::length_error]. *)
Definition string_max_size : Z := 2 ^ 63 - 1.

Definition hle_sys_exit : HleFunction := fun rdi _ _ _ _ _ =>
  (log ("sys_exit(status=" +:+ fmt_i (i32 rdi) +:+ ")") ;;;
   let* s := get in
   set_ctx (Ctx.set_reg Ctx.iRAX 0 (h_ctx s)) ;;;
   ret (mkResult 0 true ""))%M.

(** The [sys_write] handler.  [output.reserve(count)] stands before the
    [try]: what it throws leaves the handler.  [alloc_ok n] tells whether the
    host can allocate a string buffer of [n] characters ([reserve] throws
    [std::bad_alloc] otherwise); the loop then appends at most [count]
    characters and does not allocate again. *)
Definition hle_sys_write (alloc_ok : Z -> bool) : HleFunction := fun fd buf cnt _ _ _ =>
  if string_max_size <? cnt then throw (StdException "length_error")
  else if negb (alloc_ok cnt) then throw (StdException "std::bad_alloc")
  else
    (let* s := get in
     match read_chars (h_mem s) buf 0 (Z.to_nat (Z.min cnt 4096)) with
     | Throw _ => ret (mkResult (-14) false "EFAULT: Bad address")
     | Ok output =>
       (if (fd =? 1) || (fd =? 2)
        then log ("[fd" +:+ fmt_u fd +:+ "] " +:+ output)
        else ret tt) ;;;
       ret (mkResult (Z.of_nat (String.length output)) true "")
     end)%M.

Definition hle_sys_mmap : HleFunction := fun addr len _ _ _ _ =>
  (let* s := get in
   let w := h_world s in
   let allocAddr := if addr =? 0 then mmap_nextAlloc w else addr in
   let alignedLen := Z.land (u64 (len + 0xFFF)) (Z.lnot 0xFFF) in
   in_world (modify (fun w => mkWorld (trace w) (gnm w) (renderQueue w)
                                      (u64 (mmap_nextAlloc w + alignedLen))
                                      (nextModuleId w))) ;;;
   log ("sys_mmap(addr=0x" +:+ fmt_X addr +:+ ", len=" +:+ fmt_u len
        +:+ ") -> 0x" +:+ fmt_X allocAddr +:+ "") ;;;
   ret (mkResult (i64 allocAddr) true ""))%M.

Definition hle_sys_getpid : HleFunction := fun _ _ _ _ _ _ =>
  ret (mkResult 1000 true "").

Definition hle_sys_getuid : HleFunction := fun _ _ _ _ _ _ =>
  ret (mkResult 0 true "").

Definition hle_sceKernelDebugOut : HleFunction := fun msgPtr _ _ _ _ _ =>
  (let* s := get in
   match read_chars (h_mem s) msgPtr 0 1024 with
   | Throw _ => ret (mkResult (-14) false "EFAULT")
   | Ok message =>
     log ("[DEBUG] " +:+ message) ;;;
     ret (mkResult 0 true "")
   end)%M.

Definition hle_sceKernelIsNeoMode : HleFunction := fun _ _ _ _ _ _ =>
  ret (mkResult 1 true "").

Definition hle_sceKernelGetCpuTemperature : HleFunction := fun tempPtr _ _ _ _ _ =>
  (let* s := get in
   (if tempPtr =? 0 then ret tt
    else let* mem := lift (Mem.write 4 (h_mem s) tempPtr 45) in set_mem mem) ;;;
   ret (mkResult 0 true ""))%M.

Definition hle_sceKernelLoadStartModule : HleFunction := fun pathPtr _ _ _ _ _ =>
  (let* s := get in
   match read_chars (h_mem s) pathPtr 0 256 with
   | Throw _ => ret (mkResult (-1) false "EFAULT")
   | Ok path =>
     log ("LoadStartModule: " +:+ path) ;;;
     let* s := get in
     let id := nextModuleId (h_world s) in
     in_world (modify (fun w => mkWorld (trace w) (gnm w) (renderQueue w)
                                        (mmap_nextAlloc w) (i32 (id + 1)))) ;;;
     ret (mkResult id true "")
   end)%M.

(** The handler of [sceGnmSubmitCommandBuffers]; [fuel] bounds the parser
    loop (see [Gnm.parse_loop]). *)
Definition hle_sceGnmSubmitCommandBuffers (fuel : nat) : HleFunction :=
  fun cnt cmdBuffersPtr sizesPtr _ _ _ =>
  (log ("sceGnmSubmitCommandBuffers: count=" +:+ fmt_u cnt) ;;;
   let* s := get in
   let* result := in_world (Gnm.handleSubmitCommandBuffers fuel (u32 cnt) cmdBuffersPtr
                                                           sizesPtr (h_mem s)) in
   ret (mkResult result (result =? 0) ""))%M.

Definition hle_sceGnmSubmitDone : HleFunction := fun _ _ _ _ _ _ =>
  (log "sceGnmSubmitDone" ;;; ret (mkResult 0 true ""))%M.

Definition hle_sceGnmGetGpuCoreClockFrequency : HleFunction := fun _ _ _ _ _ _ =>
  ret (mkResult 911 true "").

(** [registerHandler]: [m_handlers[syscallNum] = handler]. *)
Definition registerHandler (syscallNum : Z) (handler : HleFunction)
    (d : WeaR_Syscalls) : WeaR_Syscalls :=
  mkSyscalls (<[syscallNum := handler]> (m_handlers d))
             (m_totalCalls d) (m_unimplementedCalls d).

(** The constructor: an empty table filled by [registerDefaultHandlers].
    [alloc_ok] is the host's allocator as the [sys_write] handler sees it,
    [fuel] the parser fuel of the graphics-submit handler. *)
Definition registerDefaultHandlers (alloc_ok : Z -> bool) (fuel : nat)
    (d : WeaR_Syscalls) : WeaR_Syscalls :=
  registerHandler SYS_sceGnmGetGpuCoreClockFrequency hle_sceGnmGetGpuCoreClockFrequency
  (registerHandler SYS_sceGnmSubmitDone hle_sceGnmSubmitDone
  (registerHandler SYS_sceGnmSubmitCommandBuffers (hle_sceGnmSubmitCommandBuffers fuel)
  (registerHandler SYS_sceKernelLoadStartModule hle_sceKernelLoadStartModule
  (registerHandler SYS_sceKernelGetCpuTemperature hle_sceKernelGetCpuTemperature
  (registerHandler SYS_sceKernelIsNeoMode hle_sceKernelIsNeoMode
  (registerHandler SYS_sceKernelDebugOut hle_sceKernelDebugOut
  (registerHandler SYS_getuid hle_sys_getuid
  (registerHandler SYS_getpid hle_sys_getpid
  (registerHandler SYS_mmap hle_sys_mmap
  (registerHandler SYS_write (hle_sys_write alloc_ok)
  (registerHandler SYS_exit hle_sys_exit d))))))))))).

Definition fresh (alloc_ok : Z -> bool) (fuel : nat) : WeaR_Syscalls :=
  registerDefaultHandlers alloc_ok fuel (mkSyscalls ∅ 0 0).

(** [dispatch(ctx, mem)].  The state is the dispatcher together with what the
    handlers reach. *)
Definition dispatch : M (WeaR_Syscalls * HleState) unit :=
  let hle {A} (m : M HleState A) : M (WeaR_Syscalls * HleState) A :=
    zoom snd (fun h s => (fst s, h)) m in
  (modify (fun s : WeaR_Syscalls * HleState =>
     let d := fst s in
     (mkSyscalls (m_handlers d) (u64 (m_totalCalls d + 1)) (m_unimplementedCalls d),
      snd s)) ;;;
   let* s := get in
   let ctx := h_ctx (snd s) in
   let syscallNum := Ctx.RAX ctx in
   let rdi := Ctx.RDI ctx in
   let rsi := Ctx.RSI ctx in
   let rdx := Ctx.RDX ctx in
   let r10 := Ctx.R10 ctx in
   let r8 := Ctx.R8 ctx in
   let r9 := Ctx.R9 ctx in
   match m_handlers (fst s) !! syscallNum with
   | Some handler =>
     let* result := hle (handler rdi rsi rdx r10 r8 r9) in
     let* s := get in
     hle (set_ctx (Ctx.set_reg Ctx.iRAX (u64 (value result)) (h_ctx (snd s)))) ;;;
     if success result then ret tt
     else hle (log (getSyscallName syscallNum +:+ ": " +:+ error result))
   | None =>
     modify (fun s : WeaR_Syscalls * HleState =>
       let d := fst s in
       (mkSyscalls (m_handlers d) (m_totalCalls d) (u64 (m_unimplementedCalls d + 1)),
        snd s)) ;;;
     hle (log ("Unimplemented syscall: " +:+ getSyscallName syscallNum +:+ " ("
               +:+ fmt_u syscallNum +:+ ")")) ;;;
     let* s := get in
     hle (set_ctx (Ctx.set_reg Ctx.iRAX 0 (h_ctx (snd s))))
   end)%M.

End Syscalls.

(** ** CPU interpreter (WeaR_Cpu.h, WeaR_Cpu.cpp) *)

(** The members of [WeaR_Cpu].  [m_syscallHandler] is [true] when a handler
    is installed; the one handler the emulator installs
    ([WeaR_EmulatorCore::initialize]) forwards to the dispatcher. *)
Record WeaR_Cpu : Type := mkCpu {
  m_context : WeaR_Context;
  m_cpu_state : CpuState;           (* m_state *)
  m_shouldStop : bool;
  m_instructionCount : Z;
  m_lastOpcode : Z;
  m_syscallHandler : bool
}.

(** The CPU with the objects it holds references to. *)
Record Machine : Type := mkMachine {
  cpu : WeaR_Cpu;
  memory : WeaR_Memory;
  syscalls : WeaR_Syscalls;
  world : World
}.

Module Cpu.

Definition ctx (m : Machine) : WeaR_Context := m_context (cpu m).

Definition set_cpu (c : WeaR_Cpu) (m : Machine) : Machine :=
  mkMachine c (memory m) (syscalls m) (world m).

Definition upd_ctx (f : WeaR_Context -> WeaR_Context) : M Machine unit :=
  modify (fun m =>
    let c := cpu m in
    set_cpu (mkCpu (f (m_context c)) (m_cpu_state c) (m_shouldStop c)
                   (m_instructionCount c) (m_lastOpcode c) (m_syscallHandler c)) m).

Definition set_state (st : CpuState) : M Machine unit :=
  modify (fun m =>
    let c := cpu m in
    set_cpu (mkCpu (m_context c) st (m_shouldStop c)
                   (m_instructionCount c) (m_lastOpcode c) (m_syscallHandler c)) m).

Definition set_lastOpcode (op : Z) : M Machine unit :=
  modify (fun m =>
    let c := cpu m in
    set_cpu (mkCpu (m_context c) (m_cpu_state c) (m_shouldStop c)
                   (m_instructionCount c) op (m_syscallHandler c)) m).

Definition emit (o : Out) : M Machine unit :=
  zoom world (fun w m => mkMachine (cpu m) (memory m) (syscalls m) w) (Gnm.emit o).

Definition mem_read (n : nat) (addr : Z) : M Machine Z :=
  fun m => lift (Mem.read n (memory m) addr) m.

Definition mem_write (n : nat) (addr v : Z) : M Machine unit :=
  fun m => match Mem.write n (memory m) addr v with
           | Throw e => Some (m, Throw e)
           | Ok mem' => Some (mkMachine (cpu m) mem' (syscalls m) (world m), Ok tt)
           end.

(** [fetchByte], [fetchDword], [fetchQword]: read at RIP, then advance. *)
Definition fetch (n : nat) : M Machine Z :=
  (let* m := get in
   let* v := mem_read n (RIP (ctx m)) in
   upd_ctx (fun c => Ctx.set_RIP (u64 (RIP c + Z.of_nat n)) c) ;;;
   ret v)%M.

Definition fetchByte : M Machine Z := fetch 1.
Definition fetchWord : M Machine Z := fetch 2.
Definition fetchDword : M Machine Z := fetch 4.
Definition fetchQword : M Machine Z := fetch 8.

Definition execNOP : M Machine unit := ret tt.

Definition execRET : M Machine unit :=
  (let* m := get in
   let* retAddr := mem_read 8 (Ctx.RSP (ctx m)) in
   upd_ctx (fun c => Ctx.set_reg Ctx.iRSP (u64 (Ctx.RSP c + 8)) c) ;;;
   upd_ctx (Ctx.set_RIP retAddr))%M.

Definition execJMP_rel32 : M Machine unit :=
  (let* d := fetchDword in
   let offset := i32 d in
   upd_ctx (fun c => Ctx.set_RIP (u64 (i64 (RIP c) + offset)) c))%M.

Definition execCALL_rel32 : M Machine unit :=
  (let* d := fetchDword in
   let offset := i32 d in
   upd_ctx (fun c => Ctx.set_reg Ctx.iRSP (u64 (Ctx.RSP c - 8)) c) ;;;
   let* m := get in
   mem_write 8 (Ctx.RSP (ctx m)) (RIP (ctx m)) ;;;
   upd_ctx (fun c => Ctx.set_RIP (u64 (i64 (RIP c) + offset)) c))%M.

Definition execMOV_reg_imm64 (reg : Z) : M Machine unit :=
  (let* imm := fetchQword in
   if reg <? 16 then upd_ctx (Ctx.set_reg (Z.to_nat reg) imm) else ret tt)%M.

Definition execPUSH_reg (reg : Z) : M Machine unit :=
  (upd_ctx (fun c => Ctx.set_reg Ctx.iRSP (u64 (Ctx.RSP c - 8)) c) ;;;
   let* m := get in
   mem_write 8 (Ctx.RSP (ctx m)) (Ctx.reg (ctx m) (Z.to_nat reg)))%M.

Definition execPOP_reg (reg : Z) : M Machine unit :=
  (let* m := get in
   let* v := mem_read 8 (Ctx.RSP (ctx m)) in
   upd_ctx (Ctx.set_reg (Z.to_nat reg) v) ;;;
   upd_ctx (fun c => Ctx.set_reg Ctx.iRSP (u64 (Ctx.RSP c + 8)) c))%M.

(** The installed handler: [getSyscallDispatcher().dispatch(ctx, *m_memory)]. *)
Definition call_dispatcher : M Machine unit :=
  zoom (fun m => (syscalls m, mkHle (m_context (cpu m)) (memory m) (world m)))
       (fun s m =>
          let c := cpu m in
          mkMachine (mkCpu (h_ctx (snd s)) (m_cpu_state c) (m_shouldStop c)
                           (m_instructionCount c) (m_lastOpcode c) (m_syscallHandler c))
                    (h_mem (snd s)) (fst s) (h_world (snd s)))
       Syscalls.dispatch.

Definition execSYSCALL : M Machine unit :=
  (let* m := get in
   if m_syscallHandler (cpu m) then call_dispatcher
   else emit (Cout ("[CPU] SYSCALL RAX=0x" +:+ fmt_X (Ctx.RAX (ctx m))
                    +:+ " (no handler)")))%M.

Definition execHLT : M Machine unit :=
  (emit (Cout "[CPU] HLT instruction - stopping") ;;; set_state Halted)%M.

Definition execUnknown (op : Z) : M Machine unit :=
  (let* m := get in
   emit (Cerr ("[CPU] Unknown opcode 0x" +:+ fmt_0X 2 op +:+ " at RIP=0x"
               +:+ fmt_0X 16 (u64 (RIP (ctx m) - 1)))))%M.

(** [e.what()]. *)
Definition what (e : Exn) : string :=
  match e with
  | MemoryAccessException ty addr sz =>
    let typeStr := match ty with
                   | OutOfBounds => "Segmentation Fault"
                   | MisalignedAccess => "Misaligned Access"
                   | WriteProtected => "Write Protected"
                   | InvalidAddress => "Invalid Address"
                   end in
    "Memory Error: " +:+ typeStr +:+ " at 0x" +:+ fmt_0X 16 addr +:+ " (size: "
    +:+ fmt_u sz +:+ ")"
  | StdException w => w
  end.

(** The body of the [try] block of [step]: the number of cycles. *)
Definition step_body : M Machine Z :=
  (let* opcode0 := fetchByte in
   set_lastOpcode opcode0 ;;;
   let* decoded :=
     (if Z.land opcode0 0xF0 =? 0x40
      then (let* op := fetchByte in
            set_lastOpcode op ;;;
            ret (true, opcode0, op))
      else ret (false, 0, opcode0)) in
   let '(hasREX, rex, opcode) := decoded in
   if opcode =? 0x90 then execNOP ;;; ret 1
   else if opcode =? 0xC3 then execRET ;;; ret 1
   else if opcode =? 0xE9 then execJMP_rel32 ;;; ret 1
   else if opcode =? 0xE8 then execCALL_rel32 ;;; ret 1
   else if opcode =? 0xF4 then execHLT ;;; ret 0
   else if (0x50 <=? opcode) && (opcode <=? 0x57)
        then execPUSH_reg (opcode - 0x50) ;;; ret 1
   else if (0x58 <=? opcode) && (opcode <=? 0x5F)
        then execPOP_reg (opcode - 0x58) ;;; ret 1
   else if (0xB8 <=? opcode) && (opcode <=? 0xBF)
        then (if hasREX && negb (Z.land rex 0x08 =? 0)
              then execMOV_reg_imm64
                     (u8 (opcode - 0xB8 + (if negb (Z.land rex 0x01 =? 0) then 8 else 0)))
              else (let reg := opcode - 0xB8 in
                    let* imm := fetchDword in
                    upd_ctx (Ctx.set_reg (Z.to_nat reg) imm))) ;;; ret 1
   else if opcode =? 0x0F
        then (let* opcode2 := fetchByte in
              if opcode2 =? 0x05 then execSYSCALL ;;; ret 1
              else execUnknown opcode2 ;;; ret 1)
   else execUnknown opcode ;;; ret 1)%M.

(** [step]: the [try] block and its two [catch] clauses. *)
Definition step : M Machine Z :=
  try_catch step_body (fun e =>
    (let* m := get in
     emit (Cerr (match e with
                 | MemoryAccessException _ _ _ =>
                   "[CPU] Memory fault at RIP=0x" +:+ fmt_0X 16 (RIP (ctx m)) +:+ ": "
                   +:+ what e
                 | StdException _ => "[CPU] Exception: " +:+ what e
                 end)) ;;;
     set_state Faulted ;;;
     ret 0)%M).

(** [reset]. *)
Definition reset (m : Machine) : Machine :=
  let c := cpu m in
  mkMachine (mkCpu Ctx.reset Stopped false 0 0 (m_syscallHandler c))
            (memory m) (syscalls m)
            (let w := world m in
             mkWorld (Cout "[CPU] Reset complete" :: trace w) (gnm w) (renderQueue w)
                     (mmap_nextAlloc w) (nextModuleId w)).

(** The state after a call that returned or threw; [None] only for a run
    that exhausted the parser fuel. *)
Definition after {A} (r : option (Machine * outcome A)) : option Machine :=
  match r with Some (m, _) => Some m | None => None end.

Definition set_shouldStop (b : bool) : M Machine unit :=
  modify (fun m =>
    let c := cpu m in
    set_cpu (mkCpu (m_context c) (m_cpu_state c) b
                   (m_instructionCount c) (m_lastOpcode c) (m_syscallHandler c)) m).

(** The [while (!m_shouldStop)] loop of [runLoop], with no other thread
    calling [stop] or [pause] meanwhile; one unit of fuel per iteration. *)
Fixpoint runLoop_while (fuel : nat) : M Machine unit :=
  match fuel with
  | O => out_of_fuel
  | S k =>
    (let* m := get in
     if m_shouldStop (cpu m) then ret tt
     else match m_cpu_state (cpu m) with
          | Paused => runLoop_while k
          | _ =>
            let* cycles := step in
            if cycles =? 0 then ret tt
            else
              modify (fun m =>
                let c := cpu m in
                set_cpu (mkCpu (m_context c) (m_cpu_state c) (m_shouldStop c)
                               (u64 (m_instructionCount c + 1)) (m_lastOpcode c)
                               (m_syscallHandler c)) m) ;;;
              runLoop_while k
          end)%M
  end.

Definition runLoop (fuel : nat) : M Machine unit :=
  (let* m := get in
   emit (Cout ("[CPU] Starting execution at RIP=0x" +:+ fmt_0X 16 (RIP (ctx m)))) ;;;
   set_state Running ;;;
   set_shouldStop false ;;;
   runLoop_while fuel ;;;
   let* m := get in
   emit (Cout ("[CPU] Execution stopped. Instructions: "
               +:+ fmt_u (m_instructionCount (cpu m)))) ;;;
   match m_cpu_state (cpu m) with
   | Faulted => ret tt
   | _ => set_state Stopped
   end)%M.

(** [stop], [pause] and [resume]. *)
Definition stop (m : Machine) : Machine :=
  let c := cpu m in
  set_cpu (mkCpu (m_context c) Stopped true
                 (m_instructionCount c) (m_lastOpcode c) (m_syscallHandler c)) m.

Definition pause (m : Machine) : Machine :=
  let c := cpu m in
  match m_cpu_state c with
  | Running => set_cpu (mkCpu (m_context c) Paused (m_shouldStop c)
                              (m_instructionCount c) (m_lastOpcode c) (m_syscallHandler c)) m
  | _ => m
  end.

Definition resume (m : Machine) : Machine :=
  let c := cpu m in
  match m_cpu_state c with
  | Paused => set_cpu (mkCpu (m_context c) Running (m_shouldStop c)
                             (m_instructionCount c) (m_lastOpcode c) (m_syscallHandler c)) m
  | _ => m
  end.

End Cpu.

(** ** Internal BIOS (WeaR_InternalBios.h) *)

Module InternalBios.

Definition ENTRY_POINT : Z := 0x400000.
Definition STRING_ADDR : Z := 0x400200.

Definition bootMsg : string :=
  "WeaR-emu Internal BIOS v1.0" +:+ String (Ascii.ascii_of_nat 10) "".

Definition strlen (s : string) : Z := Z.of_nat (String.length s).

(** The state of [load]: the memory and the running address [addr]. *)
Definition W : Type := (WeaR_Memory * Z)%type.

Definition write_at (n : nat) (a v : Z) : M W unit :=
  fun s => match Mem.write n (fst s) a v with
           | Throw e => Some (s, Throw e)
           | Ok mem' => Some ((mem', snd s), Ok tt)
           end.

(** [mem.write<uint8_t>(addr++, v)]. *)
Definition emit8 (v : Z) : M W unit :=
  (let* s := get in
   modify (fun s : W => (fst s, u64 (snd s + 1))) ;;;
   write_at 1 (snd s) v)%M.

(** [mem.write<T>(addr, v); addr += sizeof(T)]. *)
Definition emitN (n : nat) (v : Z) : M W unit :=
  (let* s := get in
   write_at n (snd s) v ;;;
   modify (fun s : W => (fst s, u64 (snd s + Z.of_nat n))))%M.

Fixpoint write_string (a : Z) (s : string) : M W unit :=
  match s with
  | EmptyString => ret tt
  | String c rest =>
    (write_at 1 a (Z.of_N (Ascii.N_of_ascii c)) ;;; write_string (u64 (a + 1)) rest)%M
  end.

(** The writes of [load], in source order. *)
Definition write_payload : M W unit :=
  (write_string STRING_ADDR bootMsg ;;;
   write_at 1 (STRING_ADDR + strlen bootMsg) 0 ;;;
   modify (fun s : W => (fst s, ENTRY_POINT)) ;;;
   (* MOV RAX, 4 (sys_write) *)
   emit8 0x48 ;;; emit8 0xC7 ;;; emit8 0xC0 ;;; emitN 4 4 ;;;
   (* MOV RDI, 1 (stdout) *)
   emit8 0x48 ;;; emit8 0xC7 ;;; emit8 0xC7 ;;; emitN 4 1 ;;;
   (* MOV RSI, STRING_ADDR *)
   emit8 0x48 ;;; emit8 0xBE ;;; emitN 8 STRING_ADDR ;;;
   (* MOV RDX, strlen(bootMsg) *)
   emit8 0x48 ;;; emit8 0xC7 ;;; emit8 0xC2 ;;; emitN 4 (u32 (strlen bootMsg)) ;;;
   (* SYSCALL *)
   emit8 0x0F ;;; emit8 0x05 ;;;
   (* MOV RAX, 495 (sceAudioOutInit) *)
   emit8 0x48 ;;; emit8 0xC7 ;;; emit8 0xC0 ;;; emitN 4 495 ;;;
   (* SYSCALL *)
   emit8 0x0F ;;; emit8 0x05 ;;;
   let* s := get in
   let loopStart := snd s in
   (* MOV RAX, 571 (scePadReadState) *)
   emit8 0x48 ;;; emit8 0xC7 ;;; emit8 0xC0 ;;; emitN 4 571 ;;;
   (* MOV RDI, 0 (handle) *)
   emit8 0x48 ;;; emit8 0xC7 ;;; emit8 0xC7 ;;; emitN 4 0 ;;;
   (* MOV RSI, 0x400300 (output buffer) *)
   emit8 0x48 ;;; emit8 0xBE ;;; emitN 8 0x400300 ;;;
   (* SYSCALL *)
   emit8 0x0F ;;; emit8 0x05 ;;;
   (* PAUSE *)
   emit8 0xF3 ;;; emit8 0x90 ;;;
   (* JMP loopStart *)
   let* s := get in
   let offset := i32 (loopStart - (snd s + 5)) in
   emit8 0xE9 ;;; emitN 4 (u32 offset))%M.

(** The initialisation of the CPU context at the end of [load]. *)
Definition init_context (c : WeaR_Context) : WeaR_Context :=
  let c := Ctx.set_RIP ENTRY_POINT c in
  let c := Ctx.set_reg Ctx.iRSP (PS4Memory.STACK_TOP - 0x1000) c in
  let c := Ctx.set_reg Ctx.iRBP (Ctx.RSP c) c in
  let c := Ctx.set_RFLAGS 0x202 c in
  fold_right (fun i c => Ctx.set_reg i 0 c) c
    [Ctx.iRAX; Ctx.iRBX; Ctx.iRCX; Ctx.iRDX; Ctx.iRSI; Ctx.iRDI;
     Ctx.iR8; Ctx.iR9; Ctx.iR10; Ctx.iR11; Ctx.iR12; Ctx.iR13; Ctx.iR14; Ctx.iR15].

(** [load(mem, ctx)]: the new memory and context, and the entry point. *)
Definition load (mem : WeaR_Memory) (c : WeaR_Context)
  : option ((WeaR_Memory * WeaR_Context) * outcome Z) :=
  match write_payload (mem, ENTRY_POINT) with
  | None => None
  | Some (s, Throw e) => Some ((fst s, c), Throw e)
  | Some (s, Ok _) => Some ((fst s, init_context c), Ok ENTRY_POINT)
  end.

End InternalBios.

(** ** Emulator core (WeaR_EmulatorCore.h, WeaR_EmulatorCore.cpp) *)

Module EmulatorCore.

Definition fresh_world : World :=
  mkWorld [] Gnm.fresh RenderQueue.empty PS4Memory.HEAP_BASE 100.

(** The guest machine built by [initialize]: a new memory, a CPU constructed
    on it (the constructor calls [reset]), the dispatcher installed as the
    CPU's system-call handler.  [alloc_ok] is the host's allocator and
    [fuel] the parser fuel of the graphics-submit handler, both as the
    dispatcher's constructor takes them. *)
Definition initialize (alloc_ok : Z -> bool) (fuel : nat) : Machine :=
  Cpu.reset
    (mkMachine (mkCpu Ctx.reset Stopped false 0 0 true)
               Mem.fresh (Syscalls.fresh alloc_ok fuel) fresh_world).

(** [loadInternalBios]: the machine afterwards and the entry point returned. *)
Definition loadInternalBios (m : Machine) : option (Machine * outcome Z) :=
  match InternalBios.load (memory m) (m_context (cpu m)) with
  | None => None
  | Some ((mem', ctx'), r) =>
    let c := cpu m in
    Some (mkMachine (mkCpu ctx' (m_cpu_state c) (m_shouldStop c)
                           (m_instructionCount c) (m_lastOpcode c) (m_syscallHandler c))
                    mem' (syscalls m) (world m), r)
  end.

(** [cpuThreadMain], for [n] iterations of its loop, while [m_cpuRunning]
    stays set and the emulator state is not [Stopping]: a paused CPU is
    skipped, otherwise [step] is called and its result discarded.  An
    exception cannot leave [step]. *)
Fixpoint cpuThreadMain (n : nat) (m : Machine) : option Machine :=
  match n with
  | O => Some m
  | S k =>
    match m_cpu_state (cpu m) with
    | Paused => cpuThreadMain k m
    | _ => match Cpu.step m with
           | None => None
           | Some (m', _) => cpuThreadMain k m'
           end
    end
  end.

End EmulatorCore.

(** ** Virtual file system (WeaR_VFS.h, WeaR_VFS.cpp) *)

Module PS4Error.
Definition SCE_OK : Z := 0.
Definition SCE_ERROR_ENOENT : Z := i32 0x80020002.
Definition SCE_ERROR_EACCES : Z := i32 0x80020013.
Definition SCE_ERROR_EEXIST : Z := i32 0x80020011.
Definition SCE_ERROR_EBADF : Z := i32 0x80020009.
Definition SCE_ERROR_EINVAL : Z := i32 0x80020022.
Definition SCE_ERROR_ENOSPC : Z := i32 0x80020028.
Definition SCE_ERROR_ENOMEM : Z := i32 0x80020012.
End PS4Error.

Module OpenFlags.
Definition O_RDONLY : Z := 0x0000.
Definition O_WRONLY : Z := 0x0001.
Definition O_RDWR : Z := 0x0002.
Definition O_CREAT : Z := 0x0200.
Definition O_TRUNC : Z := 0x0400.
Definition O_APPEND : Z := 0x0008.
Definition O_NONBLOCK : Z := 0x0004.
Definition O_DIRECTORY : Z := 0x00020000.
End OpenFlags.

(** A [std::fstream] opened on a host path with an open mode. *)
Record fstream : Type := mkStream {
  fs_path : string;
  fs_openMode : Z
}.

Record FileHandle : Type := mkHandle {
  stream : option fstream;
  hostPath : string;
  flags : Z;
  isDirectory : bool
}.

(** [WeaR_VFS].  [m_mountPoints] is a [std::map], kept here as the list of
    its entries in key order, the order in which the source iterates over
    it.  [m_mutex] is [true] while the (non-recursive) mutex is held. *)
Record WeaR_VFS : Type := mkVFS {
  m_mountPoints : list (string * string);
  m_openFiles : gmap Z FileHandle;
  m_mutex : bool;
  m_nextFd : Z;
  m_totalBytesRead : Z;
  m_totalBytesWritten : Z
}.

(** The result of a member function that starts by taking [m_mutex] with a
    [std::lock_guard]: it returns a value and leaves the object in a new
    state (the mutex released again), or, when the calling thread already
    holds the mutex, it locks a [std::mutex] it owns, which is undefined
    behaviour (a self-deadlock, or [std::system_error] on some libraries):
    the call does not return a value. *)
Inductive call (A : Type) : Type :=
| Returned (a : A) (vfs : WeaR_VFS)
| Relock.
Arguments Returned {A} a vfs.
Arguments Relock {A}.

(** [std::filesystem::path] in the generic (POSIX) format, as a string. *)
Module Path.

Definition slash : Ascii.ascii := "/"%char.

Definition is_absolute (p : string) : bool :=
  match p with String c _ => Ascii.eqb c slash | EmptyString => false end.

Fixpoint last_char (p : string) : option Ascii.ascii :=
  match p with
  | EmptyString => None
  | String c EmptyString => Some c
  | String _ rest => last_char rest
  end.

Definition has_filename (p : string) : bool :=
  match last_char p with Some c => negb (Ascii.eqb c slash) | None => false end.

(** [p / q]. *)
Definition append (p q : string) : string :=
  if is_absolute q then q
  else if has_filename p then p +:+ "/" +:+ q
  else p +:+ q.

(** The names between the separators of [p]; [cur] is the name being read. *)
Fixpoint split_names (p : string) (cur : string) : list string :=
  match p with
  | EmptyString => [cur]
  | String c rest =>
    if Ascii.eqb c slash then cur :: split_names rest ""
    else split_names rest (cur +:+ String c "")
  end.

(** The elements a path iterates over: the root directory, the file names,
    and an empty element for a trailing separator. *)
Definition elements (p : string) : list string :=
  match p with
  | EmptyString => []
  | _ =>
    let names := split_names p "" in
    let inner := filter (fun n => negb (String.eqb n "")) names in
    (if is_absolute p then ["/"] else [])
    ++ inner
    ++ (if negb (has_filename p) && negb (match inner with [] => true | _ => false end)
        then [""] else [])
  end.

(** The test of [isPathSafe]: [std::mismatch] of the two element ranges ends
    at the end of the first. *)
Fixpoint starts_with (root p : list string) : bool :=
  match root, p with
  | [], _ => true
  | r :: root', x :: p' => String.eqb r x && starts_with root' p'
  | _ :: _, [] => false
  end.

End Path.

Module VFS.

Fixpoint replace_backslashes (s : string) : string :=
  match s with
  | EmptyString => EmptyString
  | String c rest =>
    String (if Ascii.eqb c "\"%char then "/"%char else c) (replace_backslashes rest)
  end.

Fixpoint strip_trailing_slashes (s : string) : string :=
  match s with
  | EmptyString => EmptyString
  | String c rest =>
    let rest' := strip_trailing_slashes rest in
    match rest' with
    | EmptyString => if Ascii.eqb c Path.slash then EmptyString else String c EmptyString
    | _ => String c rest'
    end
  end.

Definition normalizePath (path : string) : string :=
  let result := strip_trailing_slashes (replace_backslashes path) in
  match result with
  | String c _ => if Ascii.eqb c Path.slash then result else "/" +:+ result
  | EmptyString => "/" +:+ result
  end.

(** The substring of [s] from position [n] on. *)
Fixpoint substr_from (n : nat) (s : string) : string :=
  match n, s with
  | O, _ => s
  | S k, String _ rest => substr_from k rest
  | S _, EmptyString => EmptyString
  end.

(** The loop of [resolvePath] over the mount points: the longest mount point
    that is a prefix of [normalized], with its host root; ["" ] when there
    is none. *)
Fixpoint best_match (normalized : string) (mounts : list (string * string))
    (best : string * string) : string * string :=
  match mounts with
  | [] => best
  | (mountPoint, host) :: rest =>
    best_match normalized rest
      (if String.prefix mountPoint normalized
          && (String.length (fst best) <? String.length mountPoint)%nat
       then (mountPoint, host)
       else best)
  end.

Section Host.

(** The host file system, as far as the VFS queries it.  [None] stands for a
    [std::filesystem::filesystem_error]. *)
Variable weakly_canonical : string -> option string.
Variable canonical : string -> option string.
Variable host_exists : string -> bool.
Variable host_is_directory : string -> bool.
(** Whether an [std::fstream] opens on the path with the given mode. *)
Variable host_opens : string -> Z -> bool.

(** The loop of [isPathSafe]; an exception of [canonical] ends it with
    [false]. *)
Fixpoint inside_some_mount (canonicalPath : string) (mounts : list (string * string))
  : bool :=
  match mounts with
  | [] => false
  | (_, host) :: rest =>
    match canonical host with
    | None => false
    | Some hostCanonical =>
      if Path.starts_with (Path.elements hostCanonical) (Path.elements canonicalPath)
      then true
      else inside_some_mount canonicalPath rest
    end
  end.

Definition isPathSafe (mounts : list (string * string)) (path : string) : bool :=
  match weakly_canonical path with
  | None => false
  | Some canonicalPath => inside_some_mount canonicalPath mounts
  end.

(** The body of [resolvePath], under the lock; the empty string is the empty
    path. *)
Definition resolve (mounts : list (string * string)) (ps4Path : string) : string :=
  let normalized := normalizePath ps4Path in
  let '(bestMatch, bestHost) := best_match normalized mounts ("", "") in
  match bestMatch with
  | EmptyString => ""
  | _ =>
    let relativePath := substr_from (String.length bestMatch) normalized in
    let relativePath :=
      match relativePath with
      | String c rest => if Ascii.eqb c Path.slash then rest else relativePath
      | EmptyString => relativePath
      end in
    let resolved := Path.append bestHost relativePath in
    if isPathSafe mounts resolved then resolved else ""
  end.

Definition lock (vfs : WeaR_VFS) : WeaR_VFS :=
  mkVFS (m_mountPoints vfs) (m_openFiles vfs) true (m_nextFd vfs)
        (m_totalBytesRead vfs) (m_totalBytesWritten vfs).

Definition unlock (vfs : WeaR_VFS) : WeaR_VFS :=
  mkVFS (m_mountPoints vfs) (m_openFiles vfs) false (m_nextFd vfs)
        (m_totalBytesRead vfs) (m_totalBytesWritten vfs).

(** [resolvePath]: [std::lock_guard<std::mutex> lock(m_mutex)], then the
    body. *)
Definition resolvePath (vfs : WeaR_VFS) (ps4Path : string) : call string :=
  if m_mutex vfs then Relock
  else Returned (resolve (m_mountPoints vfs) ps4Path) vfs.

(** [allocateFd] followed by [m_openFiles[fd] = handle]. *)
Definition add_handle (vfs : WeaR_VFS) (handle : FileHandle) : Z * WeaR_VFS :=
  let fd := m_nextFd vfs in
  (fd, mkVFS (m_mountPoints vfs) (<[fd := handle]> (m_openFiles vfs)) (m_mutex vfs)
             (i32 (fd + 1)) (m_totalBytesRead vfs) (m_totalBytesWritten vfs)).

Definition has_flag (flags flag : Z) : bool := negb (Z.land flags flag =? 0).

(** The [std::ios] open mode bits: binary 4, in 8, out 16, trunc 32, app 1. *)
Definition openMode_of (flags : Z) : Z :=
  let m := 4 in
  let m :=
    if Z.land flags OpenFlags.O_RDWR =? OpenFlags.O_RDWR then Z.lor m (Z.lor 8 16)
    else if has_flag flags OpenFlags.O_WRONLY then Z.lor m 16
    else Z.lor m 8 in
  let m := if has_flag flags OpenFlags.O_CREAT then Z.lor m 16 else m in
  let m := if has_flag flags OpenFlags.O_TRUNC then Z.lor m 32 else m in
  if has_flag flags OpenFlags.O_APPEND then Z.lor m 1 else m.

(** [openFile]: it takes [m_mutex], and then calls [resolvePath], which
    takes it again. *)
Definition openFile (vfs : WeaR_VFS) (ps4Path : string) (flags mode : Z) : call Z :=
  if m_mutex vfs then Relock
  else
    match resolvePath (lock vfs) ps4Path with
    | Relock => Relock
    | Returned hostPath vfs =>
      match hostPath with
      | EmptyString => Returned PS4Error.SCE_ERROR_ENOENT (unlock vfs)
      | _ =>
        if has_flag flags OpenFlags.O_DIRECTORY then
          if negb (host_is_directory hostPath)
          then Returned PS4Error.SCE_ERROR_ENOENT (unlock vfs)
          else
            let '(fd, vfs) := add_handle vfs (mkHandle None hostPath flags true) in
            Returned fd (unlock vfs)
        else if negb (has_flag flags OpenFlags.O_CREAT) && negb (host_exists hostPath)
        then Returned PS4Error.SCE_ERROR_ENOENT (unlock vfs)
        else if negb (host_opens hostPath (openMode_of flags))
        then Returned PS4Error.SCE_ERROR_EACCES (unlock vfs)
        else
          let '(fd, vfs) :=
            add_handle vfs (mkHandle (Some (mkStream hostPath (openMode_of flags)))
                                     hostPath flags false) in
          Returned fd (unlock vfs)
      end
    end.

(** Insertion into the ordered map [m_mountPoints]. *)
Fixpoint assign (key value : string) (m : list (string * string))
  : list (string * string) :=
  match m with
  | [] => [(key, value)]
  | (k, v) :: rest =>
    if String.eqb key k then (key, value) :: rest
    else if String.ltb key k then (key, value) :: (k, v) :: rest
    else (k, v) :: assign key value rest
  end.

(** [mount]: [None] when [canonical] throws. *)
Definition mount (vfs : WeaR_VFS) (virtualPath hostPath : string) : option (call bool) :=
  if m_mutex vfs then Some Relock
  else if negb (host_exists hostPath) then Some (Returned false vfs)
  else
    match canonical hostPath with
    | None => None
    | Some host =>
      Some (Returned true
              (mkVFS (assign (normalizePath virtualPath) host (m_mountPoints vfs))
                     (m_openFiles vfs) (m_mutex vfs) (m_nextFd vfs)
                     (m_totalBytesRead vfs) (m_totalBytesWritten vfs)))
    end.

End Host.

(** [m_mountPoints.find(key)] and [m_mountPoints.erase(key)]. *)
Fixpoint find_mount (key : string) (m : list (string * string)) : option string :=
  match m with
  | [] => None
  | (k, v) :: rest => if String.eqb key k then Some v else find_mount key rest
  end.

Fixpoint erase (key : string) (m : list (string * string)) : list (string * string) :=
  match m with
  | [] => []
  | (k, v) :: rest => if String.eqb key k then erase key rest else (k, v) :: erase key rest
  end.

Definition set_mounts (mounts : list (string * string)) (vfs : WeaR_VFS) : WeaR_VFS :=
  mkVFS mounts (m_openFiles vfs) (m_mutex vfs) (m_nextFd vfs)
        (m_totalBytesRead vfs) (m_totalBytesWritten vfs).

(** [unmount], [clearMounts], [isMounted] and [getMountCount]. *)
Definition unmount (vfs : WeaR_VFS) (virtualPath : string) : call unit :=
  if m_mutex vfs then Relock
  else Returned tt (set_mounts (erase (normalizePath virtualPath) (m_mountPoints vfs)) vfs).

Definition clearMounts (vfs : WeaR_VFS) : call unit :=
  if m_mutex vfs then Relock else Returned tt (set_mounts [] vfs).

Definition isMounted (vfs : WeaR_VFS) (virtualPath : string) : call bool :=
  if m_mutex vfs then Relock
  else Returned (match find_mount (normalizePath virtualPath) (m_mountPoints vfs) with
                 | Some _ => true
                 | None => false
                 end) vfs.

Definition getMountCount (vfs : WeaR_VFS) : call Z :=
  if m_mutex vfs then Relock else Returned (Z.of_nat (length (m_mountPoints vfs))) vfs.

(** [closeFile] and [getOpenFileCount]. *)
Definition closeFile (vfs : WeaR_VFS) (fd : Z) : call Z :=
  if m_mutex vfs then Relock
  else
    match m_openFiles vfs !! fd with
    | None => Returned PS4Error.SCE_ERROR_EBADF vfs
    | Some _ =>
      Returned PS4Error.SCE_OK
               (mkVFS (m_mountPoints vfs) (delete fd (m_openFiles vfs)) (m_mutex vfs)
                      (m_nextFd vfs) (m_totalBytesRead vfs) (m_totalBytesWritten vfs))
    end.

Definition getOpenFileCount (vfs : WeaR_VFS) : call Z :=
  if m_mutex vfs then Relock else Returned (Z.of_nat (size (m_openFiles vfs))) vfs.

Definition fresh : WeaR_VFS := mkVFS [] ∅ false 10 0 0.

End VFS.

(** ** Package loader (WeaR_PkgLoader.h, WeaR_PkgLoader.cpp) *)

Definition PKG_MAGIC : Z := 0x7F434E54.
Definition PKG_ENTRY_ID_EBOOT : Z := 0x1000.
Definition PKG_ENTRY_ID_PARAM_SFO : Z := 0x1001.

Record PkgEntry : Type := mkEntry {
  id : Z;
  filenameOffset : Z;
  flags1 : Z;
  flags2 : Z;
  dataOffset : Z;
  dataSize : Z;
  padding : Z
}.

(** [std::expected<T, std::string>]. *)
Inductive expected (A : Type) : Type :=
| Value (a : A)
| Unexpected (message : string).
Arguments Value {A} a.
Arguments Unexpected {A} message.

(** The loader after [loadPackage].  [m_pkgPath] is kept as the file it
    names: its bytes, or [None] when the file cannot be accessed (the
    [std::error_code] of [file_size] is set; [ec_message] is its text).  The
    file does not change between the calls.  The log lines of the loader do
    not enter its results and are left out. *)
Record WeaR_PkgLoader : Type := mkPkgLoader {
  m_entries : list PkgEntry;
  m_pkgPath : option (list Byte.byte);
  ec_message : string;
  m_loaded : bool
}.

(** [PkgInfo], as [loadPackage] returns it. *)
Record PkgInfo : Type := mkInfo {
  contentId : string;
  contentType : Z;
  entryCount : Z;
  sourcePath : string
}.

Module PkgLoader.

Definition swapEndian16 (val : Z) : Z :=
  u16 (Z.lor (Z.shiftr (Z.land val 0xFF00) 8) (Z.shiftl (Z.land val 0x00FF) 8)).

Definition swapEndian32 (val : Z) : Z :=
  Z.lor (Z.lor (Z.lor (Z.shiftr (Z.land val 0xFF000000) 24)
                      (Z.shiftr (Z.land val 0x00FF0000) 8))
               (Z.shiftl (Z.land val 0x0000FF00) 8))
        (Z.shiftl (Z.land val 0x000000FF) 24).

(** The search loops of [extractEntry]: the first entry with the id. *)
Fixpoint find_entry (entryId : Z) (entries : list PkgEntry) : option PkgEntry :=
  match entries with
  | [] => None
  | entry :: rest => if id entry =? entryId then Some entry else find_entry entryId rest
  end.

Definition GiB2 : Z := 2 * 1024 * 1024 * 1024.

(** [extractEntry(entryId)]. *)
Definition extractEntry (pkg : WeaR_PkgLoader) (entryId : Z)
  : expected (list Byte.byte) :=
  if negb (m_loaded pkg) then Unexpected "No PKG loaded"
  else
    match find_entry entryId (m_entries pkg) with
    | None => Unexpected ("Entry ID 0x" +:+ fmt_0X 8 entryId +:+ " not found in PKG")
    | Some targetEntry =>
      match m_pkgPath pkg with
      | None => Unexpected ("Cannot get PKG file size: " +:+ ec_message pkg)
      | Some file =>
        let fileSize := Z.of_nat (length file) in
        if fileSize <=? dataOffset targetEntry then
          Unexpected ("Entry offset (" +:+ fmt_u (dataOffset targetEntry)
                      +:+ ") is beyond file size (" +:+ fmt_u fileSize +:+ ")")
        else
          let maxReadable := fileSize - dataOffset targetEntry in
          let requestedSize := dataSize targetEntry in
          if requestedSize =? 0 then Unexpected "Entry has zero size"
          else
            let finalSize :=
              if maxReadable <? requestedSize then maxReadable else requestedSize in
            if GiB2 <? finalSize then
              Unexpected ("Entry size too large: " +:+ fmt_u (finalSize / 1024 / 1024)
                          +:+ " MB (possible corruption)")
            else
              Value (take (Z.to_nat finalSize)
                          (drop (Z.to_nat (dataOffset targetEntry)) file))
        end
    end.

(** The scan of [extractEboot] for the largest valid entry: [largestEntry]
    and [maxSize] after the loop. *)
Fixpoint largest_valid (fileSize : Z) (entries : list PkgEntry)
    (largestEntry : option PkgEntry) (maxSize : Z) : option PkgEntry * Z :=
  match entries with
  | [] => (largestEntry, maxSize)
  | entry :: rest =>
    if fileSize <=? dataOffset entry then largest_valid fileSize rest largestEntry maxSize
    else
      let maxReadable := fileSize - dataOffset entry in
      let effectiveSize := Z.min (dataSize entry) maxReadable in
      if (0 <? effectiveSize) && (maxSize <? effectiveSize)
      then largest_valid fileSize rest (Some entry) effectiveSize
      else largest_valid fileSize rest largestEntry maxSize
  end.

(** [extractEboot]. *)
Definition extractEboot (pkg : WeaR_PkgLoader) : expected (list Byte.byte) :=
  match extractEntry pkg PKG_ENTRY_ID_EBOOT with
  | Value data => Value data
  | Unexpected _ =>
    if negb (m_loaded pkg) || match m_entries pkg with [] => true | _ => false end
    then Unexpected "No PKG loaded or no entries found"
    else
      match m_pkgPath pkg with
      | None => Unexpected ("Cannot get PKG file size: " +:+ ec_message pkg)
      | Some file =>
        let fileSize := Z.of_nat (length file) in
        match fst (largest_valid fileSize (m_entries pkg) None 0) with
        | None => Unexpected "No valid entries found in PKG (all offsets invalid)"
        | Some largestEntry => extractEntry pkg (id largestEntry)
        end
      end
  end.

(** [sizeof(PkgHeader)] and [sizeof(PkgEntry)] (both packed). *)
Definition HEADER_SIZE : nat := 236.
Definition ENTRY_SIZE : nat := 32.

(** The unsigned integer a run of bytes holds on the (little-endian) host. *)
Definition le (bytes : list Byte.byte) : Z :=
  fold_right (fun b acc => byte_to_Z b + 256 * acc) 0 bytes.

(** The [n]-byte integer member at byte offset [off] of an object read from
    the file as the bytes [obj]. *)
Definition member (obj : list Byte.byte) (off n : nat) : Z :=
  le (take n (drop off obj)).

(** A [PkgEntry] as read from the file, before and after the conversion of
    its six 32-bit members from big endian ([padding] is not converted). *)
Definition raw_entry (obj : list Byte.byte) : PkgEntry :=
  mkEntry (member obj 0 4) (member obj 4 4) (member obj 8 4) (member obj 12 4)
          (member obj 16 4) (member obj 20 4) (member obj 24 8).

Definition convert_entry (e : PkgEntry) : PkgEntry :=
  mkEntry (swapEndian32 (id e)) (swapEndian32 (filenameOffset e))
          (swapEndian32 (flags1 e)) (swapEndian32 (flags2 e))
          (swapEndian32 (dataOffset e)) (swapEndian32 (dataSize e)) (padding e).

Definition zero_entry : PkgEntry := mkEntry 0 0 0 0 0 0 0.

(** The loop of [loadPackage] over the entry table, on the rest [stream] of
    the file from the read position on: the entries [i], [i+1], ... ([n] of
    them) of the resized [m_entries], and the index of the entry whose read
    failed, if one did.  A failed [read] leaves the bytes it got in the
    entry (the rest of it and the entries behind it stay zero), and ends the
    loop before the conversion. *)
Fixpoint read_table (stream : list Byte.byte) (i : Z) (n : nat)
  : list PkgEntry * option Z :=
  match n with
  | O => ([], None)
  | S k =>
    if (ENTRY_SIZE <=? length stream)%nat then
      let '(entries, failed) := read_table (drop ENTRY_SIZE stream) (i + 1) k in
      (convert_entry (raw_entry (take ENTRY_SIZE stream)) :: entries, failed)
    else
      (raw_entry (stream ++ repeat Byte.x00 (ENTRY_SIZE - length stream))
         :: repeat zero_entry k,
       Some i)
  end.

(** [std::string(contentId, 36)] cut at its first NUL. *)
Fixpoint c_string (bytes : list Byte.byte) : string :=
  match bytes with
  | [] => ""
  | b :: rest =>
    if byte_to_Z b =? 0 then ""
    else String (Ascii.ascii_of_N (Byte.to_N b)) (c_string rest)
  end.

(** [loadPackage(pkgPath)].  [file] is the content of the file [pkgPath]
    names, or [None] when [file_size] fails with the message [ec]; [opens]
    tells whether the [std::ifstream] opens on it; [alloc_ok n] whether the
    host can allocate a vector of [n] entries ([resize] throws otherwise).
    The result is what the call returns or throws, with the loader it leaves.
    [m_header] and [m_info] are read by no other member function modelled
    here: the header members are decoded where they are used, and [m_info] is
    the value returned. *)
Definition loadPackage (alloc_ok : Z -> bool) (pkgPath : string)
    (file : option (list Byte.byte)) (ec : string) (opens : bool)
  : outcome (expected PkgInfo) * WeaR_PkgLoader :=
  let failed (message : string) (entries : list PkgEntry) :=
    (Ok (Unexpected message), mkPkgLoader entries file ec false) in
  match file with
  | None => failed ("Cannot access PKG file: " +:+ ec) []
  | Some bytes =>
    if negb opens then failed ("Failed to open PKG file: " +:+ pkgPath) []
    else if (length bytes <? HEADER_SIZE)%nat then
      failed "Failed to read PKG header - file may be corrupted or too small" []
    else
      let header := take HEADER_SIZE bytes in
      let magic := swapEndian32 (member header 0 4) in
      if negb (magic =? PKG_MAGIC) then
        failed ("Invalid PKG magic: 0x" +:+ fmt_0X 8 magic +:+ " (expected 0x"
                +:+ fmt_0X 8 PKG_MAGIC +:+ ")") []
      else
        let count := swapEndian32 (member header 12 4) in
        let tableOffset := swapEndian32 (member header 20 4) in
        if negb (alloc_ok count) then
          (Throw (StdException "std::bad_alloc"), mkPkgLoader [] file ec false)
        else
          let '(entries, failure) :=
            read_table (drop (Z.to_nat tableOffset) bytes) 0 (Z.to_nat count) in
          match failure with
          | Some i =>
            failed ("Failed to read entry " +:+ fmt_u i +:+ " of " +:+ fmt_u count) entries
          | None =>
            (Ok (Value (mkInfo (c_string (take 36 (drop 60 header)))
                               (swapEndian32 (member header 112 4)) count pkgPath)),
             mkPkgLoader entries file ec true)
          end
  end.

End PkgLoader.

(** ** Scenarios used in the statements *)

Module SyscallsScenario.
Import Syscalls.

(** The host of the scenarios: it can allocate a string buffer of up to
    1 GiB, and no larger one. *)
Definition host_alloc (n : Z) : bool := n <=? 2 ^ 30.

(** The machine a guest runs on after [initialize] (parser fuel 64). *)
Definition booted : Machine := EmulatorCore.initialize host_alloc 64.

Definition hle_of (m : Machine) : HleState :=
  mkHle (m_context (cpu m)) (memory m) (world m).

(** The state with the system-call number [num] loaded into RAX. *)
Definition with_RAX (num : Z) (s : WeaR_Syscalls * HleState) : WeaR_Syscalls * HleState :=
  (fst s, mkHle (Ctx.set_reg Ctx.iRAX num (h_ctx (snd s))) (h_mem (snd s)) (h_world (snd s))).

Definition unimplemented_line (num : Z) : Out :=
  SyscallLog ("Unimplemented syscall: " +:+ getSyscallName num +:+ " (" +:+ fmt_u num +:+ ")").

#[global] Instance Out_eq_dec : EqDecision Out.
Proof. solve_decision. Defined.

Definition occurrences (o : Out) (tr : list Out) : nat :=
  length (filter (fun x => x = o) tr).

(** The state after two guest invocations of the unregistered number 7. *)
Definition twice_7 : option (WeaR_Syscalls * HleState) :=
  match dispatch (with_RAX 7 (syscalls booted, hle_of booted)) with
  | Some (s, _) =>
    match dispatch (with_RAX 7 s) with
    | Some (s', _) => Some s'
    | None => None
    end
  | None => None
  end.

End SyscallsScenario.

Module CpuScenario.

(** Guest memory holding [bytes] from the guest address [base] on. *)
Definition program (base : Z) (bytes : list Z) : WeaR_Memory :=
  match Mem.writeBlock Mem.fresh base (Some (Z_to_byte <$> bytes))
                       (Z.of_nat (length bytes)) with
  | Ok mem => mem
  | Throw _ => Mem.fresh
  end.

(** The initialised machine with [mem] as its memory and the context set up
    as [loadGame] does: RIP at the entry point, RSP and RBP at [rsp]. *)
Definition start (mem : WeaR_Memory) (entry rsp : Z) : Machine :=
  let m := SyscallsScenario.booted in
  let c := cpu m in
  let ctx := Ctx.set_reg Ctx.iRBP rsp
               (Ctx.set_reg Ctx.iRSP rsp (Ctx.set_RIP entry (m_context c))) in
  mkMachine (mkCpu ctx (m_cpu_state c) (m_shouldStop c) (m_instructionCount c)
                   (m_lastOpcode c) (m_syscallHandler c))
            mem (syscalls m) (world m).

Definition stack : Z := PS4Memory.STACK_TOP - 0x1000.

(** [48 BE imm64]: MOV RSI, 0x400200 in the x86-64 encoding. *)
Definition mov_rsi : Machine :=
  start (program 0x400000 [0x48; 0xBE; 0x00; 0x02; 0x40; 0; 0; 0; 0; 0]) 0x400000 stack.

(** [41 B8 imm32]: MOV R8D, 42 in the x86-64 encoding. *)
Definition mov_r8d : Machine :=
  start (program 0x400000 [0x41; 0xB8; 0x2A; 0; 0; 0]) 0x400000 stack.

(** HLT followed by NOP. *)
Definition hlt_nop : Machine :=
  start (program 0x400000 [0xF4; 0x90]) 0x400000 stack.

(** RET with the stack pointer on the last four bytes of the arena (the
    8-byte pop is out of bounds), followed by NOP. *)
Definition ret_fault_nop : Machine :=
  start (program 0x400000 [0xC3; 0x90]) 0x400000
        (PS4Memory.USER_BASE + PS4Memory.MEMORY_SIZE - 4).

(** The machine after [initialize] and [loadInternalBios], on the host of
    the scenarios. *)
Definition initialized (fuel : nat) : Machine :=
  EmulatorCore.initialize SyscallsScenario.host_alloc fuel.

Definition bios (fuel : nat) : Machine :=
  match EmulatorCore.loadInternalBios (initialized fuel) with
  | Some (m, _) => m
  | None => initialized fuel
  end.

Definition bios_entry (fuel : nat) : option (outcome Z) :=
  snd <$> EmulatorCore.loadInternalBios (initialized fuel).

(** What [step] looks at in the BIOS run: the instruction pointer and the
    general registers. *)
Definition key (m : Machine) : Z * list Z := (RIP (Cpu.ctx m), GPR (Cpu.ctx m)).

Definition run (n : nat) (m : Machine) : Machine :=
  default m (EmulatorCore.cpuThreadMain n m).

(** The machine after a call of [step], and whether the call returned. *)
Definition aft (m : Machine) : Machine :=
  match Cpu.step m with Some (m', _) => m' | None => m end.

Definition cycles (m : Machine) : option Z :=
  match Cpu.step m with Some (_, Ok c) => Some c | _ => None end.

(** The BIOS run returns to its 40th state after 57 steps. *)
Definition orbit_length : nat := 57.
Definition orbit_next (k : nat) : nat := if (S k =? orbit_length)%nat then 40%nat else S k.

Definition BIOS_LINE : string := "WeaR-emu Internal BIOS v1.0".

Definition silent (o : Out) : bool := negb (contains BIOS_LINE (out_text o)).

(** What the BIOS run preserves. *)
Definition bios_inv (fuel : nat) (m : Machine) : Prop :=
  memory m = memory (bios 0) /\
  m_handlers (syscalls m) = m_handlers (syscalls (bios fuel)) /\
  m_syscallHandler (cpu m) = true /\
  m_cpu_state (cpu m) = Stopped /\
  m_totalCalls (syscalls m) = m_unimplementedCalls (syscalls m) /\
  (exists k, (k < orbit_length)%nat /\ key m = key (run k (bios 0))) /\
  Forall (fun o => silent o = true) (trace (world m)).

End CpuScenario.

Module GnmScenario.

(** Guest memory holding the 32-bit words [ws] from the guest address [base]
    on, little-endian. *)
Fixpoint store_words (mem : WeaR_Memory) (base : Z) (ws : list Z) : WeaR_Memory :=
  match ws with
  | [] => mem
  | v :: rest =>
    match Mem.write 4 mem base v with
    | Ok mem' => store_words mem' (base + 4) rest
    | Throw _ => mem
    end
  end.

Definition BUFFER : Z := 0x500000.

(** S3: [header(opcode = 0x2D, count = 1), 128, 0]. *)
Definition draw_buffer : WeaR_Memory :=
  store_words Mem.fresh BUFFER [PM4.header PM4.IT_DRAW_INDEX_AUTO 1; 128; 0].

(** A four-word buffer whose INDIRECT_BUFFER packet names the buffer itself:
    [header(opcode = 0x3F, count = 2), BUFFER, 0, 4]. *)
Definition selfref_buffer : WeaR_Memory :=
  store_words Mem.fresh BUFFER [PM4.header PM4.IT_INDIRECT_BUFFER 2; BUFFER; 0; 4].

(** The command emitted for DRAW_INDEX_AUTO with 128 vertices. *)
Definition draw_128 : WeaR_DrawCmd :=
  mkDrawCmd RC_DrawAuto 128 0 1 0 0 0 0 0 0 0 0 0 0 0 0 RenderQueue.default_pipeline.

(** The commands the consumer executes as a non-indexed draw (the spec's
    [Draw] variant): the render engine handles [DrawAuto] and [Draw] in one
    case. *)
Definition is_draw (cmd : WeaR_DrawCmd) : bool :=
  match type cmd with RC_Draw | RC_DrawAuto => true | _ => false end.

(** An outer buffer whose INDIRECT_BUFFER packet names the three-word buffer
    at [INNER]; the vertex count of the inner DRAW_INDEX_AUTO packet is a
    word that reads as an INDIRECT_BUFFER header. *)
Definition INNER : Z := 0x500100.

Definition nested_buffer : WeaR_Memory :=
  store_words
    (store_words Mem.fresh INNER
       [PM4.header PM4.IT_DRAW_INDEX_AUTO 1; PM4.header PM4.IT_INDIRECT_BUFFER 2; 0])
    BUFFER [PM4.header PM4.IT_INDIRECT_BUFFER 2; INNER; 0; 3].

(** The buffer an INDIRECT_BUFFER payload names, as [handleIndirectBuffer]
    decodes it: a 48-bit address and a 20-bit size. *)
Definition indirect_addr (payload : list Z) : Z :=
  Z.lor (Gnm.word payload 0) (Z.shiftl (Z.land (Gnm.word payload 1) 0xFFFF) 32).

Definition indirect_size (payload : list Z) : Z := Z.land (Gnm.word payload 2) 0xFFFFF.

(** The packets of the buffer from [offset] on, found as the parser finds
    them (header by header, at most [n] of them; the walk ends where the
    parser does, at a fault or at a packet that runs over the end): every
    INDIRECT_BUFFER packet with the three payload words the handler asks for
    names a buffer that [nested] accepts.  Words the parser does not read as
    headers are not looked at. *)
Fixpoint indirect_packets_in (nested : Z -> Z -> bool) (mem : WeaR_Memory)
    (bufferAddr sizeInDwords offset : Z) (n : nat) : bool :=
  match n with
  | O => true
  | S k =>
    if offset <? sizeInDwords then
      match Mem.read 4 mem (u64 (bufferAddr + u32 (offset * 4))) with
      | Throw _ => true
      | Ok headerRaw =>
        if negb (PM4.isType3 headerRaw) then
          indirect_packets_in nested mem bufferAddr sizeInDwords (u32 (offset + 1)) k
        else
          let payloadCount := PM4.payloadSize headerRaw in
          if sizeInDwords <? u32 (u32 (offset + 1) + payloadCount) then true
          else
            match Gnm.read_payload mem bufferAddr (u32 (offset + 1)) 0
                                   (Z.to_nat payloadCount) with
            | Throw _ => true
            | Ok payload =>
              (if (PM4.opcode headerRaw =? PM4.IT_INDIRECT_BUFFER)
                  && negb (payloadCount <? 3)
               then nested (indirect_addr payload) (indirect_size payload)
               else true)
              && indirect_packets_in nested mem bufferAddr sizeInDwords
                                     (u32 (u32 (offset + 1) + payloadCount)) k
            end
      end
    else true
  end.

(** The INDIRECT_BUFFER packets of the buffer nest at most [depth] deep: at
    depth 0 the parser meets none, and at depth [d + 1] those it meets name
    buffers that nest at most [d] deep. *)
Fixpoint nesting_within (depth : nat) (mem : WeaR_Memory)
    (bufferAddr sizeInDwords : Z) : bool :=
  match depth with
  | O =>
    indirect_packets_in (fun _ _ => false) mem bufferAddr sizeInDwords 0
                        (Z.to_nat sizeInDwords)
  | S d =>
    indirect_packets_in (nesting_within d mem) mem bufferAddr sizeInDwords 0
                        (Z.to_nat sizeInDwords)
  end.

(** The words of a nested buffer are fewer than [NESTED_WORDS] (its size is
    a 20-bit field). *)
Definition NESTED_WORDS : Z := 0x100000.

(** A computation that always returns normally. *)
Definition total {S} (m : M S unit) : Prop := forall s, exists s', m s = Some (s', Ok tt).

(** Neither out of fuel nor still running: the call returned or threw. *)
Definition finishes {S A} (r : option (S * outcome A)) : Prop := exists x, r = Some x.

End GnmScenario.

Module VfsScenario.

(** A host without symbolic links, on which every path exists: both
    canonicalisations are the lexical one, which drops [.] and empty names
    and lets [..] remove the name before it.  Host paths are absolute. *)
Fixpoint normal_names (names : list string) (stack : list string) : list string :=
  match names with
  | [] => rev stack
  | n :: rest =>
    if String.eqb n "" || String.eqb n "." then normal_names rest stack
    else if String.eqb n ".." then normal_names rest (tail stack)
    else normal_names rest (n :: stack)
  end.

Definition lexical (p : string) : option string :=
  if Path.is_absolute p
  then Some ("/" +:+ String.concat "/" (normal_names (Path.split_names p "") []))
  else None.

Definition resolve_on_host : list (string * string) -> string -> string :=
  VFS.resolve lexical lexical.

(** The mount selected for a guest path: the longest matching prefix. *)
Definition selected (mounts : list (string * string)) (ps4Path : string) : string * string :=
  VFS.best_match (VFS.normalizePath ps4Path) mounts ("", "").

(** The host path [resolvePath] builds for a guest path, before the safety
    check; [None] when no mount matches. *)
Definition candidate (mounts : list (string * string)) (ps4Path : string) : option string :=
  let normalized := VFS.normalizePath ps4Path in
  let '(bestMatch, bestHost) := VFS.best_match normalized mounts ("", "") in
  match bestMatch with
  | EmptyString => None
  | _ =>
    let relativePath := VFS.substr_from (String.length bestMatch) normalized in
    Some (Path.append bestHost
            match relativePath with
            | String c rest => if Ascii.eqb c Path.slash then rest else relativePath
            | EmptyString => relativePath
            end)
  end.

(** [p] lies under the directory [root]: the elements of [root] are a prefix
    of those of [p]. *)
Definition under (root p : string) : bool :=
  Path.starts_with (Path.elements root) (Path.elements p).

(** The canonical path [c] lies under the canonical host root of no mount. *)
Definition outside_every_mount (canonical : string -> option string)
    (mounts : list (string * string)) (c : string) : bool :=
  forallb (fun m => match canonical (snd m) with
                    | Some hostCanonical => negb (under hostCanonical c)
                    | None => true
                    end) mounts.

(** S4: [/app0] mounted on [/tmp/game]. *)
Definition app0_only : WeaR_VFS :=
  mkVFS [("/app0", "/tmp/game")] ∅ false 10 0 0.

Definition ESCAPE : string := "/app0/../../etc/passwd".

(** Two mounts with different host roots. *)
Definition two_mounts : list (string * string) :=
  [("/app0", "/tmp/game"); ("/data", "/tmp/save")].

Definition SIDESTEP : string := "/app0/../save/secret.dat".

End VfsScenario.

Module PkgScenario.
Import PkgLoader.

(** [effective = min(claimed_size, file_size - offset)], for an entry whose
    offset lies inside the file; 0 stands for an entry that is skipped. *)
Definition effective (fileSize : Z) (e : PkgEntry) : Z :=
  if fileSize <=? dataOffset e then 0
  else Z.min (dataSize e) (fileSize - dataOffset e).

(** [e] is an entry of the table with the largest positive [effective]. *)
Definition is_largest (fileSize : Z) (entries : list PkgEntry) (e : PkgEntry) : Prop :=
  In e entries /\ 0 < effective fileSize e /\
  forall e', In e' entries -> effective fileSize e' <= effective fileSize e.

(** The payload of an entry: [effective] bytes of the file from its offset. *)
Definition payload (file : list Byte.byte) (e : PkgEntry) : list Byte.byte :=
  take (Z.to_nat (effective (Z.of_nat (length file)) e))
       (drop (Z.to_nat (dataOffset e)) file).

Definition entry (i off size : Z) : PkgEntry := mkEntry i 0 0 0 off size 0.

(** The bytes [first], [first + 1], ... ([n] of them), modulo 256. *)
Definition ramp (first : Z) (n : nat) : list Byte.byte :=
  (fun k => Z_to_byte (first + Z.of_nat k)) <$> seq 0 n.

(** S2: a 8192-byte file with entries 0x1002, 0x1003 and 0x1004 of sizes 10,
    4096 and 128 at offsets 256, 512 and 4608. *)
Definition s2_file : list Byte.byte := ramp 0 (Z.to_nat 8192).
Definition s2 : WeaR_PkgLoader :=
  mkPkgLoader [entry 0x1002 256 10; entry 0x1003 512 4096; entry 0x1004 4608 128]
              (Some s2_file) "" true.

(** Two entries with the same id: 4 bytes at offset 0 and 16 bytes at
    offset 4, in a 32-byte file. *)
Definition twin_file : list Byte.byte := ramp 0 32.
Definition twin_small : PkgEntry := entry 0x2000 0 4.
Definition twin_large : PkgEntry := entry 0x2000 4 16.
Definition twins : WeaR_PkgLoader :=
  mkPkgLoader [twin_small; twin_large] (Some twin_file) "" true.

Definition is_unexpected {A} (r : expected A) : bool :=
  match r with Unexpected _ => true | Value _ => false end.

End PkgScenario.

(** ** Further notions used in the statements *)

Module CpuDecode.

(** The opcodes the [switch] of [step] has a case for (after an optional REX
    prefix); every other opcode goes to [execUnknown]. *)
Definition decoded (opcode : Z) : bool :=
  (opcode =? 0x90) || (opcode =? 0xC3) || (opcode =? 0xE9) || (opcode =? 0xE8)
  || (opcode =? 0xF4)
  || ((0x50 <=? opcode) && (opcode <=? 0x57))
  || ((0x58 <=? opcode) && (opcode <=? 0x5F))
  || ((0xB8 <=? opcode) && (opcode <=? 0xBF))
  || (opcode =? 0x0F).

(** [opcode] is a REX prefix byte (0x40 .. 0x4F). *)
Definition is_rex (opcode : Z) : bool := Z.land opcode 0xF0 =? 0x40.

(** The execution state is neither [Running] nor [Paused]. *)
Definition idle (st : CpuState) : bool :=
  match st with Running | Paused => false | _ => true end.

(** An initialised machine whose entry point holds the bytes [C7 C0], which
    [step] has no case for. *)
Definition undecoded_c7 : Machine :=
  CpuScenario.start (CpuScenario.program 0x400000 [0xC7; 0xC0]) 0x400000 CpuScenario.stack.

(** An initialised machine with 0x1122334455667788 in element 1 of [GPR]. *)
Definition loaded_rbx : Machine :=
  let m := CpuScenario.start Mem.fresh 0x400000 CpuScenario.stack in
  Cpu.set_cpu (mkCpu (Ctx.set_reg 1 0x1122334455667788 (m_context (cpu m)))
                     (m_cpu_state (cpu m)) (m_shouldStop (cpu m))
                     (m_instructionCount (cpu m)) (m_lastOpcode (cpu m))
                     (m_syscallHandler (cpu m))) m.

(** An initialised machine with the displacement 0x10 of a CALL at its
    instruction pointer. *)
Definition at_call : Machine :=
  CpuScenario.start (CpuScenario.program 0x400001 [0x10; 0; 0; 0]) 0x400001 CpuScenario.stack.

(** The machine a computation leaves behind ([m] itself if it ran out of
    fuel). *)
Definition left_by {A} (c : M Machine A) (m : Machine) : Machine :=
  default m (fst <$> c m).

(** A computation that leaves [m_state] as it found it, however it ends. *)
Definition keeps_state {A} (c : M Machine A) : Prop :=
  forall m m' r, c m = Some (m', r) -> m_cpu_state (cpu m') = m_cpu_state (cpu m).

(** What a run of the body of [step] from the state [st] ends in: one cycle
    and the state unchanged, or no cycle and [Halted]; an exception leaves the
    state unchanged. *)
Definition body_post (st : CpuState) (m' : Machine) (r : outcome Z) : Prop :=
  match r with
  | Ok c => (c = 1 /\ m_cpu_state (cpu m') = st) \/ (c = 0 /\ m_cpu_state (cpu m') = Halted)
  | Throw _ => m_cpu_state (cpu m') = st
  end.

Definition body_spec (c : M Machine Z) : Prop :=
  forall m m' r, c m = Some (m', r) -> body_post (m_cpu_state (cpu m)) m' r.

End CpuDecode.

Module QueueScenario.

(** The calls a producer and a consumer make on the queue. *)
Inductive QueueOp : Type :=
| QPush (cmd : WeaR_DrawCmd)
| QPushMany (cmds : list WeaR_DrawCmd)
| QEndFrame
| QPopAll.

Definition apply_op (q : WeaR_RenderQueue) (op : QueueOp) : WeaR_RenderQueue :=
  match op with
  | QPush cmd => RenderQueue.push cmd q
  | QPushMany cmds => RenderQueue.push_many cmds q
  | QEndFrame => RenderQueue.endFrame q
  | QPopAll => snd (RenderQueue.popAll q)
  end.

Definition is_end_frame (op : QueueOp) : bool :=
  match op with QEndFrame => true | _ => false end.

(** Equality of 64-bit counters: [a] and [b] differ by a multiple of 2^64. *)
Definition congruent (a b : Z) : Prop := (a - b) mod 2 ^ 64 = 0.

(** The counters account for the queue: pushed = popped + pending. *)
Definition balanced (q : WeaR_RenderQueue) : Prop :=
  congruent (m_totalPushed q) (m_totalPopped q + RenderQueue.size q).

End QueueScenario.

Module ParserEffects.
Import QueueScenario.

(** The commands the packet handlers build. *)
Definition from_parser (cmd : WeaR_DrawCmd) : bool :=
  match type cmd with
  | RC_DrawAuto | RC_DrawIndexed | RC_ComputeDispatch => true
  | _ => false
  end.

Definition is_draw_call (cmd : WeaR_DrawCmd) : bool :=
  match type cmd with RC_DrawAuto | RC_DrawIndexed => true | _ => false end.

Definition draw_calls (cmds : list WeaR_DrawCmd) : Z :=
  Z.of_nat (length (List.filter is_draw_call cmds)).

(** [w'] differs from [w] by log output, tracked GPU state, the packet
    counter, and commands appended to the render queue, with the draw-call and
    push counters moved on accordingly. *)
Definition extends (w w' : World) : Prop :=
  exists cmds,
    m_queue (renderQueue w') = m_queue (renderQueue w) ++ cmds /\
    forallb from_parser cmds = true /\
    congruent (m_drawCallsQueued (gnm w')) (m_drawCallsQueued (gnm w) + draw_calls cmds) /\
    congruent (m_totalPushed (renderQueue w'))
              (m_totalPushed (renderQueue w) + Z.of_nat (length cmds)) /\
    m_totalPopped (renderQueue w') = m_totalPopped (renderQueue w) /\
    m_frameCount (renderQueue w') = m_frameCount (renderQueue w) /\
    mmap_nextAlloc w' = mmap_nextAlloc w /\
    nextModuleId w' = nextModuleId w /\
    m_verbose (gnm w') = m_verbose (gnm w).

Definition only_extends {A} (c : M World A) : Prop :=
  forall w w' r, c w = Some (w', r) -> extends w w'.

(** The world S3 ends in: the draw buffer parsed from a fresh world. *)
Definition after_draw : World :=
  default EmulatorCore.fresh_world
    (fst <$> Gnm.processCommandBuffer 4 GnmScenario.draw_buffer GnmScenario.BUFFER 3
                                      EmulatorCore.fresh_world).

(** A buffer of two words whose Type-3 header announces four payload words. *)
Definition truncated_buffer : WeaR_Memory :=
  GnmScenario.store_words Mem.fresh GnmScenario.BUFFER
    [PM4.header PM4.IT_DRAW_INDEX_AUTO 3; 128].

End ParserEffects.

Module PkgLayout.
Import PkgLoader.

(** The big-endian value of a run of bytes. *)
Definition be (bytes : list Byte.byte) : Z :=
  fold_left (fun acc b => 256 * acc + byte_to_Z b) bytes 0.

(** The big-endian 32-bit word at offset [off] of the file. *)
Definition be32 (file : list Byte.byte) (off : nat) : Z := be (take 4 (drop off file)).

(** The table entry stored at offset [base]: six big-endian words, and the
    padding as the host reads it. *)
Definition entry_at (file : list Byte.byte) (base : nat) : PkgEntry :=
  mkEntry (be32 file base) (be32 file (base + 4)) (be32 file (base + 8))
          (be32 file (base + 12)) (be32 file (base + 16)) (be32 file (base + 20))
          (le (take 8 (drop (base + 24) file))).

(** The four bytes of the package magic, [\x7F C N T]. *)
Definition MAGIC_BYTES : list Byte.byte := [Byte.x7f; Byte.x43; Byte.x4e; Byte.x54].

(** The members of an entry are unsigned 32-bit values. *)
Definition entry_in_range (e : PkgEntry) : Prop :=
  0 <= dataOffset e < 2 ^ 32 /\ 0 <= dataSize e < 2 ^ 32.

(** A 300-byte package file: the magic, one entry announced at offset 240,
    and the entry (id 0x1000, data at offset 272, 16 bytes). *)
Definition tiny_file : list Byte.byte :=
  MAGIC_BYTES ++ repeat Byte.x00 8
  ++ [Byte.x00; Byte.x00; Byte.x00; Byte.x01] ++ repeat Byte.x00 4
  ++ [Byte.x00; Byte.x00; Byte.x00; Byte.xf0] ++ repeat Byte.x00 216
  ++ [Byte.x00; Byte.x00; Byte.x10; Byte.x00] ++ repeat Byte.x00 12
  ++ [Byte.x00; Byte.x00; Byte.x01; Byte.x10] ++ [Byte.x00; Byte.x00; Byte.x00; Byte.x10]
  ++ repeat Byte.x00 8 ++ PkgScenario.ramp 0 28.

End PkgLayout.

(** * Properties *)

(** ** Guest memory *)

Module MemFacts.
Import PS4Memory Mem.

Lemma cell_poke_eq (mem : WeaR_Memory) (p : Z) (b : Byte.byte) :
  cell (poke mem p b) p = b.
Proof. unfold cell, poke; simpl. by rewrite lookup_insert_eq. Qed.

Lemma cell_poke_ne (mem : WeaR_Memory) (p q : Z) (b : Byte.byte) :
  p <> q -> cell (poke mem p b) q = cell mem q.
Proof. intros Hne. unfold cell, poke; simpl. by rewrite lookup_insert_ne. Qed.

(** [memcpy] into the arena leaves the cells below the destination alone. *)
Lemma cell_copy_in_below (src : list Byte.byte) :
  forall (mem : WeaR_Memory) (p q : Z), q < p -> cell (copy_in mem p src) q = cell mem q.
Proof.
  induction src as [|b rest IH]; intros mem p q Hlt; simpl; [done|].
  rewrite IH by lia. apply cell_poke_ne. lia.
Qed.

Lemma copy_out_copy_in (src : list Byte.byte) :
  forall (mem : WeaR_Memory) (p : Z),
    copy_out (copy_in mem p src) p (length src) = src.
Proof.
  induction src as [|b rest IH]; intros mem p; simpl; [done|].
  rewrite IH. f_equal.
  rewrite cell_copy_in_below by lia. apply cell_poke_eq.
Qed.

Lemma translateAddress_range (a : Z) :
  0 <= a -> 0 <= translateAddress a < MEMORY_SIZE.
Proof.
  intros Ha. unfold translateAddress.
  assert (Hmask : PHYSICAL_MASK = Z.ones 33) by reflexivity.
  destruct (USER_BASE <=? a) eqn:E; rewrite Hmask, Z.land_ones by lia;
    change MEMORY_SIZE with (2 ^ 33); apply Z.mod_pos_bound; lia.
Qed.

(** The translated offset never exceeds the address itself. *)
Lemma translateAddress_le (a : Z) : 0 <= a -> translateAddress a <= a.
Proof.
  intros Ha. unfold translateAddress.
  assert (Hmask : PHYSICAL_MASK = Z.ones 33) by reflexivity.
  destruct (USER_BASE <=? a) eqn:E; rewrite Hmask, Z.land_ones by lia.
  - apply Z.leb_le in E. unfold USER_BASE in *.
    transitivity (a - 4194304); [apply Z.mod_le; lia | lia].
  - apply Z.mod_le; lia.
Qed.

(** An address with [a + n <= 8 GiB] translates to an offset with room for
    [n] bytes. *)
Lemma translateAddress_fits (a n : Z) :
  0 <= a -> a + n <= MEMORY_SIZE -> translateAddress a + n <= MEMORY_SIZE.
Proof. intros Ha Hn. pose proof (translateAddress_le a Ha). lia. Qed.

Lemma validateAccess_ok (p n : Z) :
  0 <= p -> 0 <= n -> p + n <= MEMORY_SIZE -> validateAccess p n = Ok tt.
Proof.
  intros Hp Hn Hle. unfold validateAccess, u64.
  rewrite Z.mod_small by (unfold MEMORY_SIZE in *; lia).
  destruct (MEMORY_SIZE <? p + n) eqn:E; [apply Z.ltb_lt in E; lia | done].
Qed.

(** Writing [b] at an offset with room for it and reading [|b|] bytes back. *)
Lemma write_then_read_block
    (mem : WeaR_Memory) (a : Z) (b dst : list Byte.byte) :
  0 <= a ->
  translateAddress a + Z.of_nat (length b) <= MEMORY_SIZE ->
  length dst = length b ->
  exists mem',
    writeBlock mem a (Some b) (Z.of_nat (length b)) = Ok mem' /\
    readBlock mem' a (Some dst) (Z.of_nat (length b)) = Ok (Some b).
Proof.
  intros Ha Hfit Hdst. unfold writeBlock, readBlock.
  destruct (Z.of_nat (length b) =? 0) eqn:E0.
  - apply Z.eqb_eq in E0. assert (length b = 0%nat) as Hlen by lia.
    exists mem. split; [done|].
    destruct b; [|done]. destruct dst; [done|done].
  - pose proof (translateAddress_range a Ha) as Hr.
    rewrite validateAccess_ok by lia.
    eexists; split; [reflexivity|].
    rewrite Nat2Z.id, firstn_all.
    rewrite copy_out_copy_in.
    rewrite drop_ge by lia. by rewrite app_nil_r.
Qed.

(** C10. Writing a byte sequence [b] at a guest address [a] whose translated
    offset leaves room for [|b|] bytes in the 8 GiB arena (in particular at
    every [a] with [a + |b| <= 8 GiB]), and reading [|b|] bytes back from
    [a], yields exactly [b]: [writeBlock] succeeds, and the following
    [readBlock] fills the destination buffer with [b]. *)
Theorem write_read_block_roundtrip
    (mem : WeaR_Memory) (a : Z) (b dst : list Byte.byte)
    (Ha : 0 <= a < 2 ^ 64)
    (Hfit : translateAddress a + Z.of_nat (length b) <= MEMORY_SIZE \/
            a + Z.of_nat (length b) <= MEMORY_SIZE)
    (Hdst : length dst = length b) :
  exists mem',
    writeBlock mem a (Some b) (Z.of_nat (length b)) = Ok mem' /\
    readBlock mem' a (Some dst) (Z.of_nat (length b)) = Ok (Some b).
Proof.
  apply write_then_read_block; [lia | | exact Hdst].
  destruct Hfit as [Hfit|Hfit]; [exact Hfit|].
  apply translateAddress_fits; [lia | exact Hfit].
Qed.

Lemma write_read_block_roundtrip_witness :
  exists mem',
    writeBlock fresh 0x400200 (Some [Byte.x57; Byte.x65; Byte.x61; Byte.x52])
      (Z.of_nat 4) = Ok mem' /\
    readBlock mem' 0x400200 (Some [Byte.x00; Byte.x00; Byte.x00; Byte.x00])
      (Z.of_nat 4) = Ok (Some [Byte.x57; Byte.x65; Byte.x61; Byte.x52]).
Proof.
  apply (write_read_block_roundtrip fresh 0x400200
           [Byte.x57; Byte.x65; Byte.x61; Byte.x52]
           [Byte.x00; Byte.x00; Byte.x00; Byte.x00]).
  - lia.
  - left. vm_compute. discriminate.
  - reflexivity.
Defined.

End MemFacts.

(** ** System-call dispatcher *)

Module SyscallsFacts.
Import Syscalls SyscallsScenario.

Lemma RAX_set_reg (ctx : WeaR_Context) (v : Z) :
  length (GPR ctx) = 16%nat -> Ctx.RAX (Ctx.set_reg Ctx.iRAX v ctx) = v.
Proof.
  intros Hlen. unfold Ctx.RAX, Ctx.reg, Ctx.set_reg, Ctx.iRAX. simpl.
  destruct (GPR ctx); [discriminate | reflexivity].
Qed.

(** C5 (as the code has it). For a system-call number with no registered
    handler, [dispatch] counts the call, increments the unimplemented
    counter, writes 0 into RAX, leaves memory and every handler alone, and
    appends the "Unimplemented syscall" line to the log: one line for each
    such call, with no record of the numbers already reported. *)
Theorem dispatch_unimplemented
    (d : WeaR_Syscalls) (hs : HleState)
    (Hnone : m_handlers d !! Ctx.RAX (h_ctx hs) = None)
    (Hgpr : length (GPR (h_ctx hs)) = 16%nat) :
  exists d' hs',
    dispatch (d, hs) = Some ((d', hs'), Ok tt) /\
    m_unimplementedCalls d' = u64 (m_unimplementedCalls d + 1) /\
    m_totalCalls d' = u64 (m_totalCalls d + 1) /\
    m_handlers d' = m_handlers d /\
    Ctx.RAX (h_ctx hs') = 0 /\
    h_mem hs' = h_mem hs /\
    trace (h_world hs') = unimplemented_line (Ctx.RAX (h_ctx hs)) :: trace (h_world hs).
Proof.
  destruct d as [handlers tc uc], hs as [ctx mem w].
  unfold dispatch, bind, modify, get, zoom. cbn [fst snd h_ctx m_handlers] in *.
  rewrite Hnone. cbn.
  eexists _, _. split; [reflexivity|]. cbn.
  repeat split; try reflexivity.
  by apply RAX_set_reg.
Qed.

Lemma dispatch_unimplemented_witness :
  exists d' hs',
    dispatch (with_RAX 7 (syscalls booted, hle_of booted)) = Some ((d', hs'), Ok tt) /\
    m_unimplementedCalls d' = u64 (0 + 1) /\
    m_totalCalls d' = u64 (0 + 1) /\
    m_handlers d' = m_handlers (syscalls booted) /\
    Ctx.RAX (h_ctx hs') = 0 /\
    h_mem hs' = memory booted /\
    trace (h_world hs') = unimplemented_line 7 :: trace (world booted).
Proof.
  apply (dispatch_unimplemented (syscalls booted) (snd (with_RAX 7 (syscalls booted, hle_of booted)))).
  - vm_compute. reflexivity.
  - reflexivity.
Defined.

(** C5, as stated, fails: invoking the unregistered number 7 twice logs the
    missing number twice. *)
Lemma unimplemented_logged_each_time :
  (occurrences (unimplemented_line 7) <$> (trace <$> (h_world <$> (snd <$> twice_7))))
  = Some 2%nat.
Proof. vm_compute. reflexivity. Qed.

End SyscallsFacts.

(** ** CPU interpreter *)

Module CpuFacts.
Import CpuScenario.

(** C1. The interpreter decodes MOV r, imm with the x86-64 register numbers
    but indexes [GPR] with them directly, while the named registers alias
    [GPR] in the order RAX, RBX, RCX, RDX, RSI, RDI, RBP, RSP.  Executing
    [48 BE imm64] (MOV RSI, 0x400200) therefore writes element 6, which is
    RBP, and leaves RSI, the register the dispatcher reads as argument 2, at
    zero; and the imm32 form ignores REX.B: [41 B8 imm32] (MOV R8D, 42)
    writes element 0, RAX, and leaves R8 at zero. *)
Theorem mov_imm_register_index :
  (Ctx.x86_encoding 6 = Ctx.iRSI /\
   cycles mov_rsi = Some 1 /\
   Ctx.RSI (Cpu.ctx (aft mov_rsi)) = 0 /\
   Ctx.RBP (Cpu.ctx (aft mov_rsi)) = 0x400200 /\
   GPR (Cpu.ctx (aft mov_rsi)) = <[6%nat := 0x400200]> (GPR (Cpu.ctx mov_rsi))) /\
  (Ctx.x86_encoding (0 + 8) = Ctx.iR8 /\
   cycles mov_r8d = Some 1 /\
   Ctx.R8 (Cpu.ctx (aft mov_r8d)) = 0 /\
   Ctx.RAX (Cpu.ctx (aft mov_r8d)) = 42).
Proof. repeat split; vm_compute; reflexivity. Qed.

(** C4. [step] does not look at the execution state, and [cpuThreadMain]
    calls it whatever it returned: after HLT has set the state to [Halted]
    (first iteration, RIP past the HLT byte), the second iteration executes
    the following NOP and moves RIP on; likewise after a faulting RET has set
    the state to [Faulted]. *)
Theorem halted_cpu_keeps_executing :
  (m_cpu_state (cpu (run 1 hlt_nop)) = Halted /\
   RIP (Cpu.ctx (run 1 hlt_nop)) = 0x400001 /\
   cycles (run 1 hlt_nop) = Some 1 /\
   m_lastOpcode (cpu (run 2 hlt_nop)) = 0x90 /\
   RIP (Cpu.ctx (run 2 hlt_nop)) = 0x400002 /\
   m_context (cpu (run 2 hlt_nop)) <> m_context (cpu (run 1 hlt_nop))) /\
  (m_cpu_state (cpu (run 1 ret_fault_nop)) = Faulted /\
   RIP (Cpu.ctx (run 1 ret_fault_nop)) = 0x400001 /\
   m_lastOpcode (cpu (run 2 ret_fault_nop)) = 0x90 /\
   RIP (Cpu.ctx (run 2 ret_fault_nop)) = 0x400002 /\
   m_context (cpu (run 2 ret_fault_nop)) <> m_context (cpu (run 1 ret_fault_nop))).
Proof.
  repeat split; try (vm_compute; reflexivity).
  - intros H. apply (f_equal RIP) in H. vm_compute in H. discriminate.
  - intros H. apply (f_equal RIP) in H. vm_compute in H. discriminate.
Qed.

(** The sibling loop, [runLoop], does stop at the HLT: it returns after one
    instruction, with RIP just past the HLT byte. *)
Lemma runLoop_stops_at_hlt :
  (fun r => (RIP (Cpu.ctx r.1), m_instructionCount (cpu r.1), r.2)) <$> Cpu.runLoop 10 hlt_nop
  = Some (0x400001, 0, Ok tt).
Proof. vm_compute. reflexivity. Qed.

(** *** The internal BIOS *)

Lemma bios_entry_point (fuel : nat) : bios_entry fuel = Some (Ok 0x400000).
Proof. reflexivity. Qed.

Lemma step_returns (m : Machine) (P : Machine -> Prop) :
  is_Some (cycles m) -> P (aft m) -> exists m' c, Cpu.step m = Some (m', c) /\ P m'.
Proof.
  unfold cycles, aft. destruct (Cpu.step m) as [[m' c]|].
  - intros _ HP. eauto.
  - intros [x Hx]. discriminate.
Qed.

Lemma bios_inv_init (fuel : nat) : bios_inv fuel (bios fuel).
Proof.
  unfold bios_inv.
  split; [vm_compute; reflexivity|].
  split; [reflexivity|].
  split; [vm_compute; reflexivity|].
  split; [vm_compute; reflexivity|].
  split; [vm_compute; reflexivity|].
  split.
  - exists 0%nat. split; [unfold orbit_length; lia | vm_compute; reflexivity].
  - vm_compute. repeat constructor.
Qed.

#[local] Ltac bios_case k :=
  match goal with
  | Hkey : key _ = _ |- _ => vm_compute in Hkey; injection Hkey as -> ->
  end;
  apply step_returns;
  [ eexists; vm_compute; reflexivity
  | split; [reflexivity|];
    split; [reflexivity|];
    split; [vm_compute; reflexivity|];
    split; [vm_compute; reflexivity|];
    split; [reflexivity|];
    split;
    [ exists (orbit_next k); split; [vm_compute; lia | vm_compute; reflexivity]
    | match goal with
      | |- Forall _ ?t =>
        let t' := eval vm_compute in t in
        replace t with t' by (vm_compute; reflexivity)
      end;
      repeat (constructor; [vm_compute; reflexivity|]); assumption ] ].

#[local] Ltac bios_cases k n :=
  lazymatch n with
  | O => idtac
  | S ?n' =>
    let i := fresh "i" in
    destruct k as [|i]; [ bios_case ltac:(eval vm_compute in (orbit_length - n)%nat) | ];
    bios_cases i n'
  end.

(** One step of the BIOS run: it returns, and the invariant holds again. *)
Lemma bios_inv_step (fuel : nat) (m : Machine) :
  bios_inv fuel m -> exists m' c, Cpu.step m = Some (m', c) /\ bios_inv fuel m'.
Proof.
  destruct m as [[[gpr rip rf cs ds es fs gs ss xm mx] st sstop ic lo sh]
                 mem [h tc uc] [tr g rq na nm]].
  unfold bios_inv; cbn [memory syscalls m_handlers m_totalCalls m_unimplementedCalls
                        cpu m_syscallHandler m_cpu_state world trace].
  intros (Hmem & Hh & Hsh & Hst & Htc & (k & Hk & Hkey) & Htr). subst mem h sh st tc.
  unfold orbit_length in Hk.
  bios_cases k 57%nat.
  lia.
Qed.

Lemma bios_inv_run (fuel : nat) (n : nat) :
  forall m, bios_inv fuel m ->
    exists m', EmulatorCore.cpuThreadMain n m = Some m' /\ bios_inv fuel m'.
Proof.
  induction n as [|n IH]; intros m Hinv; simpl.
  - eauto.
  - destruct (bios_inv_step fuel m Hinv) as (m1 & c & Hstep & Hinv1).
    destruct Hinv as (_ & _ & _ & Hst & _). rewrite Hst, Hstep.
    apply IH, Hinv1.
Qed.

(** C2. After [initialize] and [loadInternalBios] (which does return the
    entry point 0x400000), the guest CPU thread can run the payload for any
    number of iterations and no output line ever contains the text
    "WeaR-emu Internal BIOS v1.0": the interpreter does not decode opcode
    0xC7, so RAX is still 0 at each SYSCALL, every system call made is an
    unimplemented one, and [sys_write] is never invoked. *)
Theorem bios_never_prints_boot_line (fuel n : nat) :
  bios_entry fuel = Some (Ok 0x400000) /\
  exists m,
    EmulatorCore.cpuThreadMain n (bios fuel) = Some m /\
    m_totalCalls (syscalls m) = m_unimplementedCalls (syscalls m) /\
    Forall (fun o => silent o = true) (trace (world m)).
Proof.
  split; [apply bios_entry_point|].
  destruct (bios_inv_run fuel n (bios fuel) (bios_inv_init fuel)) as (m & Hrun & Hinv).
  exists m. split; [exact Hrun|].
  destruct Hinv as (_ & _ & _ & _ & Htc & _ & Htr). split; assumption.
Qed.

End CpuFacts.

(** ** GPU command parser *)

Module GnmFacts.
Import Gnm GnmScenario.

(** *** Handlers that always return *)

Create HintDb total.

Lemma total_ret {S} : @total S (ret tt).
Proof. intros s. eexists. reflexivity. Qed.

Lemma total_modify {S} (f : S -> S) : total (modify f).
Proof. intros s. eexists. reflexivity. Qed.

Lemma total_bind {S} (m : M S unit) (k : unit -> M S unit) :
  total m -> (forall u, total (k u)) -> total (bind m k).
Proof.
  intros Hm Hk s. unfold bind. destruct (Hm s) as [s' ->]. apply Hk.
Qed.

Lemma total_get_bind {S} (k : S -> M S unit) :
  (forall s0, total (k s0)) -> total (bind get k).
Proof. intros Hk s. unfold bind, get. apply Hk. Qed.

Lemma total_log (msg : string) : total (log msg).
Proof. apply total_modify. Qed.

Lemma total_when_verbose (m : M World unit) : total m -> total (when_verbose m).
Proof.
  intros Hm w. unfold when_verbose. destruct (m_verbose (gnm w)); [apply Hm|].
  eexists. reflexivity.
Qed.

#[local] Hint Resolve total_ret total_modify total_bind total_get_bind total_log
  total_when_verbose : total.

Lemma total_log_regs (name : string) (values : list Z) :
  forall regOffset i, total (log_regs name regOffset i values).
Proof.
  induction values as [|v rest IH]; intros regOffset i; simpl; auto with total.
Qed.

#[local] Hint Resolve total_log_regs : total.

#[local] Ltac handler_total :=
  intros; cbv beta delta
    [handleNOP handleSetContextReg handleSetShReg handleDrawIndexAuto handleDrawIndex2
     handleDispatchDirect handleEventWrite handleAcquireMem handleReleaseMem
     handleIndexType handleNumInstances set_state push_cmd incr_drawCallsQueued
     incr_packetsProcessed];
  repeat match goal with |- context [if ?c then _ else _] => destruct c end;
  auto 20 with total.

Lemma total_handleSetContextReg p c : total (handleSetContextReg p c).
Proof. handler_total. Qed.
Lemma total_handleSetShReg p c : total (handleSetShReg p c).
Proof. handler_total. Qed.
Lemma total_handleDrawIndexAuto p c : total (handleDrawIndexAuto p c).
Proof. handler_total. Qed.
Lemma total_handleDrawIndex2 p c : total (handleDrawIndex2 p c).
Proof. handler_total. Qed.
Lemma total_handleDispatchDirect p c : total (handleDispatchDirect p c).
Proof. handler_total. Qed.
Lemma total_handleIndexType p c : total (handleIndexType p c).
Proof. handler_total. Qed.
Lemma total_handleNumInstances p c : total (handleNumInstances p c).
Proof. handler_total. Qed.
Lemma total_incr_packetsProcessed : total incr_packetsProcessed.
Proof. handler_total. Qed.

#[local] Hint Resolve total_handleSetContextReg total_handleSetShReg
  total_handleDrawIndexAuto total_handleDrawIndex2 total_handleDispatchDirect
  total_handleIndexType total_handleNumInstances total_incr_packetsProcessed : total.

(** Every packet other than INDIRECT_BUFFER is handled without recursion and
    without an exception. *)
Lemma total_dispatch_packet (recurse : Z -> Z -> M World unit) (op : Z)
    (payload : list Z) (cnt : Z) :
  (op =? PM4.IT_INDIRECT_BUFFER) = false ->
  total (dispatch_packet recurse op payload cnt).
Proof.
  intros Hop. unfold dispatch_packet. rewrite Hop.
  repeat match goal with |- context [if ?c then _ else _] => destruct c end;
    auto with total; unfold handleNOP, handleEventWrite, handleAcquireMem,
    handleReleaseMem; auto with total.
Qed.

(** *** One loop iteration makes progress *)

Lemma finishes_total {S} (m : M S unit) (s : S) : total m -> finishes (m s).
Proof. intros H. destruct (H s) as [s' ->]. eexists; reflexivity. Qed.

Lemma u32_small (z : Z) : 0 <= z < 2 ^ 32 -> u32 z = z.
Proof. intros H. unfold u32. apply Z.mod_small. lia. Qed.

Lemma payloadSize_range (h : Z) : 1 <= PM4.payloadSize h <= 0x4000.
Proof.
  unfold PM4.payloadSize, PM4.count.
  change 0x3FFF with (Z.ones 14). rewrite Z.land_ones by lia.
  pose proof (Z.mod_pos_bound (Z.shiftr h 16) (2 ^ 14)). lia.
Qed.

Lemma finishes_bind_total {S} (m : M S unit) (k : unit -> M S unit) (s : S) :
  total m -> (forall s', finishes (k tt s')) -> finishes (bind m k s).
Proof. intros Hm Hk. unfold bind. destruct (Hm s) as [s' ->]. apply Hk. Qed.

Lemma finishes_bind_lift {S A} (o : outcome A) (k : A -> M S unit) (s : S) :
  (forall a, o = Ok a -> finishes (k a s)) -> finishes (bind (lift o) k s).
Proof.
  intros Hk. unfold bind, lift. destruct o as [a|e]; [by apply Hk|].
  eexists; reflexivity.
Qed.

Lemma finishes_bind {S} (m : M S unit) (k : unit -> M S unit) (s : S) :
  finishes (m s) -> (forall s', finishes (k tt s')) -> finishes (bind m k s).
Proof.
  intros [[s' [[]|e]] Hm] Hk; unfold bind; rewrite Hm; [apply Hk|].
  eexists; reflexivity.
Qed.

Lemma indirect_size_range (payload : list Z) :
  0 <= indirect_size payload < NESTED_WORDS.
Proof.
  unfold indirect_size, NESTED_WORDS. change 0xFFFFF with (Z.ones 20).
  rewrite Z.land_ones by lia. apply Z.mod_pos_bound. lia.
Qed.

(** [handleIndirectBuffer] returns when the nested call does. *)
Lemma finishes_handleIndirectBuffer (recurse : Z -> Z -> M World unit)
    (payload : list Z) (cnt : Z) (w : World) :
  ((cnt <? 3) = false ->
   forall w', finishes (recurse (indirect_addr payload) (indirect_size payload) w')) ->
  finishes (handleIndirectBuffer recurse payload cnt w).
Proof.
  intros HR. unfold handleIndirectBuffer. destruct (cnt <? 3) eqn:Hcnt.
  - eexists; reflexivity.
  - apply finishes_bind_total; [apply total_log|]. intros w'. exact (HR eq_refl w').
Qed.

Lemma finishes_dispatch_packet (recurse : Z -> Z -> M World unit) (op : Z)
    (payload : list Z) (cnt : Z) (w : World) :
  (op = PM4.IT_INDIRECT_BUFFER -> (cnt <? 3) = false ->
   forall w', finishes (recurse (indirect_addr payload) (indirect_size payload) w')) ->
  finishes (dispatch_packet recurse op payload cnt w).
Proof.
  intros HR. destruct (op =? PM4.IT_INDIRECT_BUFFER) eqn:Hop.
  - apply Z.eqb_eq in Hop. subst op.
    change (dispatch_packet recurse PM4.IT_INDIRECT_BUFFER payload cnt)
      with (handleIndirectBuffer recurse payload cnt).
    apply finishes_handleIndirectBuffer. intros Hcnt. by apply HR.
  - by apply finishes_total, total_dispatch_packet.
Qed.

(** *** The loop returns when the nested buffers do *)

(** The loop over one buffer, from [offset] on: every iteration moves the
    offset forward, so [sizeInDwords - offset + 1] units of fuel carry the
    loop itself, and [need] more carry the nested calls. *)
Lemma parse_loop_finishes (nested : Z -> Z -> bool) (need : Z) (mem : WeaR_Memory)
    (bufferAddr sizeInDwords : Z) :
  0 <= need ->
  (forall a s w fuel, nested a s = true -> 0 <= s < NESTED_WORDS ->
     need <= Z.of_nat fuel -> finishes (parse_loop fuel mem a s 0 w)) ->
  sizeInDwords + 0x4000 < 2 ^ 32 ->
  forall n offset w fuel,
    indirect_packets_in nested mem bufferAddr sizeInDwords offset n = true ->
    0 <= offset <= sizeInDwords -> sizeInDwords - offset <= Z.of_nat n ->
    sizeInDwords - offset + 1 + need <= Z.of_nat fuel ->
    finishes (parse_loop fuel mem bufferAddr sizeInDwords offset w).
Proof.
  intros Hneed Hnested Hsize.
  induction n as [|n IH]; intros offset w fuel Hwalk Hoff Hn Hfuel;
    (destruct fuel as [|fuel]; [lia|]); cbn [parse_loop].
  - destruct (Z.ltb_spec offset sizeInDwords); [lia|]. eexists; reflexivity.
  - cbn [indirect_packets_in] in Hwalk.
    destruct (Z.ltb_spec offset sizeInDwords) as [Hlt|Hge]; [|eexists; reflexivity].
    unfold loop_body. apply finishes_bind_lift. intros h Hread.
    rewrite Hread in Hwalk.
    rewrite (u32_small (offset + 1)) in Hwalk |- * by lia.
    pose proof (payloadSize_range h) as Hps.
    rewrite (u32_small (offset + 1 + PM4.payloadSize h)) in Hwalk |- * by lia.
    destruct (PM4.isType3 h) eqn:Ht3; cbn [negb] in Hwalk |- *.
    + destruct (sizeInDwords <? offset + 1 + PM4.payloadSize h) eqn:Hov.
      * apply finishes_total, total_log.
      * apply Z.ltb_ge in Hov.
        apply finishes_bind_lift. intros payload Hpayload.
        rewrite Hpayload in Hwalk. apply andb_true_iff in Hwalk as [Hhere Hrest].
        apply finishes_bind_total; [auto with total|]. intros w1.
        apply finishes_bind.
        -- apply finishes_dispatch_packet. intros Hop Hcnt w'.
           rewrite Hop, Z.eqb_refl, Hcnt in Hhere. cbn [negb andb] in Hhere.
           apply Hnested; [exact Hhere | apply indirect_size_range | lia].
        -- intros w2.
           apply finishes_bind_total; [apply total_incr_packetsProcessed|]. intros w3.
           apply IH; [exact Hrest | lia | lia | lia].
    + apply finishes_bind_total; [auto with total|]. intros w1.
      apply IH; [exact Hwalk | lia | lia | lia].
Qed.

Lemma nesting_within_finishes (mem : WeaR_Memory) :
  forall depth bufferAddr sizeInDwords w fuel,
    nesting_within depth mem bufferAddr sizeInDwords = true ->
    0 <= sizeInDwords -> sizeInDwords + 0x4000 < 2 ^ 32 ->
    sizeInDwords + 1 + Z.of_nat depth * NESTED_WORDS <= Z.of_nat fuel ->
    finishes (parse_loop fuel mem bufferAddr sizeInDwords 0 w).
Proof.
  induction depth as [|depth IH]; intros bufferAddr sizeInDwords w fuel Hnest Hpos Hsize Hfuel;
    cbn [nesting_within] in Hnest.
  - apply (parse_loop_finishes (fun _ _ => false) 0 mem bufferAddr sizeInDwords)
      with (n := Z.to_nat sizeInDwords); try lia; try exact Hnest.
  - apply (parse_loop_finishes (nesting_within depth mem)
             (NESTED_WORDS + Z.of_nat depth * NESTED_WORDS) mem bufferAddr sizeInDwords)
      with (n := Z.to_nat sizeInDwords); try exact Hnest;
      unfold NESTED_WORDS in *; try lia.
    intros a s w' fuel' Hn Hs Hf. apply IH; [exact Hn | lia | lia | lia].
Qed.



(** [loop_body] at a Type-3 packet that fits the buffer: the payload is
    read, the packet is dispatched and the loop goes on behind it. *)
Lemma loop_body_packet (recurse : Z -> Z -> M World unit) (continue : Z -> M World unit)
    (mem : WeaR_Memory) (bufferAddr sizeInDwords offset : Z) (w : World)
    (h : Z) (payload : list Z) :
  Mem.read 4 mem (u64 (bufferAddr + u32 (offset * 4))) = Ok h ->
  PM4.isType3 h = true ->
  (sizeInDwords <? u32 (u32 (offset + 1) + PM4.payloadSize h)) = false ->
  read_payload mem bufferAddr (u32 (offset + 1)) 0 (Z.to_nat (PM4.payloadSize h)) = Ok payload ->
  loop_body recurse continue mem bufferAddr sizeInDwords offset w =
  bind (when_verbose
          (log ("PM4: " +:+ PM4.getOpcodeName (PM4.opcode h) +:+ " (0x"
                +:+ fmt_0X 2 (PM4.opcode h) +:+ "), count="
                +:+ fmt_u (PM4.payloadSize h))))
       (fun _ => bind (dispatch_packet recurse (PM4.opcode h) payload (PM4.payloadSize h))
                      (fun _ => bind incr_packetsProcessed
                                     (fun _ => continue (u32 (u32 (offset + 1)
                                                              + PM4.payloadSize h))))) w.
Proof.
  intros Hread Ht3 Hov Hpayload. unfold loop_body.
  unfold bind at 1, lift. rewrite Hread. cbv beta iota.
  rewrite Ht3. cbn [negb]. rewrite Hov.
  unfold bind at 1, lift. rewrite Hpayload. reflexivity.
Qed.

Lemma handleIndirectBuffer_recurses (recurse : Z -> Z -> M World unit)
    (payload : list Z) (cnt : Z) (w : World) :
  (cnt <? 3) = false ->
  (forall w', recurse (Z.lor (word payload 0) (Z.shiftl (Z.land (word payload 1) 0xFFFF) 32))
                      (Z.land (word payload 2) 0xFFFFF) w' = None) ->
  handleIndirectBuffer recurse payload cnt w = None.
Proof.
  intros Hcnt HR. unfold handleIndirectBuffer. rewrite Hcnt.
  unfold bind.
  match goal with |- context [log ?msg w] =>
    destruct (total_log msg w) as [w' ->] end.
  apply HR.
Qed.

(** The self-referential buffer: one loop iteration reaches the nested call
    on the same buffer. *)
Lemma selfref_body (recurse : Z -> Z -> M World unit) (continue : Z -> M World unit)
    (w : World) :
  (forall w', recurse BUFFER 4 w' = None) ->
  loop_body recurse continue selfref_buffer BUFFER 4 0 w = None.
Proof.
  intros HR.
  rewrite (loop_body_packet recurse continue selfref_buffer BUFFER 4 0 w
             (PM4.header PM4.IT_INDIRECT_BUFFER 2) [BUFFER; 0; 4])
    by (vm_compute; reflexivity).
  unfold bind at 1.
  match goal with |- context [when_verbose ?m w] =>
    destruct (total_when_verbose m (total_log _) w) as [w1 ->] end.
  unfold bind at 1.
  change (dispatch_packet recurse (PM4.opcode (PM4.header PM4.IT_INDIRECT_BUFFER 2))
                          [BUFFER; 0; 4] (PM4.payloadSize (PM4.header PM4.IT_INDIRECT_BUFFER 2)))
    with (handleIndirectBuffer recurse [BUFFER; 0; 4] 3).
  rewrite handleIndirectBuffer_recurses; [reflexivity | reflexivity | exact HR].
Qed.

Lemma selfref_out_of_fuel (fuel : nat) :
  forall w, parse_loop fuel selfref_buffer BUFFER 4 0 w = None.
Proof.
  induction fuel as [|fuel IH]; intros w; [reflexivity|].
  cbn [parse_loop]. change (0 <? 4) with true. cbv iota.
  apply selfref_body. exact IH.
Qed.

(** The self-referential buffer nests to no finite depth. *)
Lemma selfref_walk (nested : Z -> Z -> bool) :
  indirect_packets_in nested selfref_buffer BUFFER 4 0 (Z.to_nat 4) = nested BUFFER 4.
Proof. vm_compute. destruct (nested _ _); reflexivity. Qed.

Lemma selfref_has_no_depth (depth : nat) :
  nesting_within depth selfref_buffer BUFFER 4 = false.
Proof.
  induction depth as [|depth IH]; cbn [nesting_within]; rewrite selfref_walk;
    [reflexivity | exact IH].
Qed.


(** C9. With the tracked GPU state at its defaults and the render queue
    empty, parsing the buffer [header(type 3, opcode 0x2D, count 1), 128, 0]
    returns normally and leaves exactly one command in the queue: a
    non-indexed draw (tag [DrawAuto]) with [vertexCount = 128] and
    [instanceCount = 1]; the size of the queue is then 1. *)
Theorem draw_index_auto_emission (fuel : nat) :
  exists w',
    processCommandBuffer (S (S fuel)) draw_buffer BUFFER 3 EmulatorCore.fresh_world
      = Some (w', Ok tt) /\
    m_queue (renderQueue w') = [draw_128] /\
    is_draw draw_128 = true /\
    vertexCount draw_128 = 128 /\
    instanceCount draw_128 = 1 /\
    RenderQueue.size (renderQueue w') = 1.
Proof.
  eexists. split; [vm_compute; reflexivity|]. repeat split.
Qed.

End GnmFacts.

(** ** Virtual file system *)

Module VfsFacts.
Import VFS VfsScenario.

Section Host.
Variable weakly_canonical : string -> option string.
Variable canonical : string -> option string.

(** The safety check accepts a path only when it lies under the host root of
    some mount of the table. *)
Lemma inside_some_mount_sound (c : string) (mounts : list (string * string)) :
  inside_some_mount canonical c mounts = true ->
  exists mountPoint host hostCanonical,
    In (mountPoint, host) mounts /\
    canonical host = Some hostCanonical /\
    under hostCanonical c = true.
Proof.
  induction mounts as [|[mp host] rest IH]; simpl; [discriminate|].
  destruct (canonical host) as [hc|] eqn:Hc; [|discriminate].
  destruct (Path.starts_with _ _) eqn:Hpre.
  - intros _. exists mp, host, hc. auto.
  - intros H. destruct (IH H) as (mp' & host' & hc' & Hin & Hc' & Hu).
    exists mp', host', hc'. auto.
Qed.

Lemma outside_every_mount_rejects (c : string) (mounts : list (string * string)) :
  outside_every_mount canonical mounts c = true ->
  inside_some_mount canonical c mounts = false.
Proof.
  induction mounts as [|[mp host] rest IH]; simpl; [reflexivity|].
  intros H. apply andb_true_iff in H as [Hhere Hrest].
  destruct (canonical host) as [hc|]; [|reflexivity].
  apply negb_true_iff in Hhere. unfold under in Hhere. rewrite Hhere. auto.
Qed.

Lemma resolve_candidate (mounts : list (string * string)) (ps4Path : string) :
  resolve weakly_canonical canonical mounts ps4Path =
  match candidate mounts ps4Path with
  | None => ""
  | Some resolved =>
    if isPathSafe weakly_canonical canonical mounts resolved then resolved else ""
  end.
Proof.
  unfold resolve, candidate.
  destruct (best_match _ _ _) as [bestMatch bestHost].
  destruct bestMatch; reflexivity.
Qed.

(** C6 (as the code has it). For every mount table and every guest path, if
    the canonical form of the resolved host path lies under the host root of
    no mount of the table, resolution fails: [resolvePath] returns the empty
    path.  The check compares with every mount of the table, not with the
    mount selected for the path. *)
Theorem resolve_rejects_outside_every_mount
    (mounts : list (string * string)) (ps4Path resolved c : string)
    (Hcand : candidate mounts ps4Path = Some resolved)
    (Hcanon : weakly_canonical resolved = Some c)
    (Hout : outside_every_mount canonical mounts c = true) :
  resolve weakly_canonical canonical mounts ps4Path = "".
Proof.
  rewrite resolve_candidate, Hcand. unfold isPathSafe. rewrite Hcanon.
  by rewrite outside_every_mount_rejects.
Qed.

(** Conversely, a path that is returned lies under some mount's host root. *)
Lemma resolve_accepts_inside_some_mount
    (mounts : list (string * string)) (ps4Path : string) :
  resolve weakly_canonical canonical mounts ps4Path <> "" ->
  exists mountPoint host hostCanonical c,
    In (mountPoint, host) mounts /\
    canonical host = Some hostCanonical /\
    weakly_canonical (resolve weakly_canonical canonical mounts ps4Path) = Some c /\
    under hostCanonical c = true.
Proof.
  rewrite resolve_candidate.
  destruct (candidate mounts ps4Path) as [resolved|]; [|congruence].
  unfold isPathSafe.
  destruct (weakly_canonical resolved) as [c|] eqn:Hc; [|congruence].
  destruct (inside_some_mount canonical c mounts) eqn:Hin; [|congruence].
  intros _. destruct (inside_some_mount_sound c mounts Hin) as (mp & host & hc & H1 & H2 & H3).
  exists mp, host, hc, c. auto.
Qed.

Variable host_exists : string -> bool.
Variable host_is_directory : string -> bool.
Variable host_opens : string -> Z -> bool.

(** [openFile] never returns: it holds [m_mutex] when it calls
    [resolvePath], which locks [m_mutex] again. *)
Lemma openFile_relocks (vfs : WeaR_VFS) (ps4Path : string) (flags mode : Z) :
  openFile weakly_canonical canonical host_exists host_is_directory host_opens
           vfs ps4Path flags mode = Relock.
Proof. unfold openFile. destruct (m_mutex vfs); reflexivity. Qed.

End Host.

Lemma resolve_rejects_outside_every_mount_witness :
  resolve lexical lexical (m_mountPoints app0_only) ESCAPE = "".
Proof.
  apply (resolve_rejects_outside_every_mount lexical lexical (m_mountPoints app0_only)
           ESCAPE "/tmp/game/../../etc/passwd" "/etc/passwd"); reflexivity.
Defined.

(** C6, as stated, fails: with [/app0] on [/tmp/game] and [/data] on
    [/tmp/save], the mount selected for [/app0/../save/secret.dat] is [/app0];
    the resolved host path canonicalises to [/tmp/save/secret.dat], which is
    not under [/tmp/game]; and yet the path is accepted, because it is under
    the host root of [/data]. *)
Lemma escape_into_other_mount_accepted :
  selected two_mounts SIDESTEP = ("/app0", "/tmp/game") /\
  candidate two_mounts SIDESTEP = Some "/tmp/game/../save/secret.dat" /\
  lexical "/tmp/game/../save/secret.dat" = Some "/tmp/save/secret.dat" /\
  under "/tmp/game" "/tmp/save/secret.dat" = false /\
  resolve_on_host two_mounts SIDESTEP = "/tmp/game/../save/secret.dat".
Proof. repeat split; vm_compute; reflexivity. Qed.

(** C8. With [/app0] mounted on [/tmp/game], [resolvePath] alone rejects
    [/app0/../../etc/passwd] (it returns the empty path, which [openFile]
    would turn into ENOENT), but [openFile] never gets there: it takes
    [m_mutex] and then calls [resolvePath], which takes [m_mutex] again, so
    the call does not return ENOENT or anything else.  No descriptor is
    allocated. *)
Theorem open_escape_relocks :
  m_mutex app0_only = false /\
  resolvePath lexical lexical app0_only ESCAPE = Returned "" app0_only /\
  openFile lexical lexical (fun _ => true) (fun _ => false) (fun _ _ => true)
           app0_only ESCAPE OpenFlags.O_RDONLY 0 = Relock.
Proof. repeat split. Qed.

End VfsFacts.

(** ** Package loader *)

Module PkgFacts.
Import PkgLoader PkgScenario.

(** The scan keeps an entry of the table whose [effective] is [maxSize], and
    [maxSize] bounds the [effective] of every entry scanned. *)
Lemma largest_valid_spec (fileSize : Z) (entries : list PkgEntry) :
  forall (best : option PkgEntry) (maxSize : Z) (seen : list PkgEntry),
    0 <= maxSize ->
    (forall e', In e' seen -> effective fileSize e' <= maxSize) ->
    match best with
    | Some b => In b seen /\ effective fileSize b = maxSize /\ 0 < maxSize
    | None => maxSize = 0
    end ->
    match largest_valid fileSize entries best maxSize with
    | (Some e, m) => In e (seen ++ entries) /\ effective fileSize e = m /\ 0 < m /\
                     forall e', In e' (seen ++ entries) -> effective fileSize e' <= m
    | (None, m) => m = 0 /\
                   forall e', In e' (seen ++ entries) -> effective fileSize e' <= 0
    end.
Proof.
  induction entries as [|entry rest IH]; intros best maxSize seen Hmax Hseen Hbest.
  - simpl. rewrite app_nil_r. destruct best as [b|].
    + destruct Hbest as (Hin & Heff & Hpos). auto.
    + subst maxSize. auto.
  - cbn [largest_valid].
    replace (seen ++ entry :: rest) with ((seen ++ [entry]) ++ rest)
      by (rewrite <- app_assoc; reflexivity).
    assert (Heff : effective fileSize entry =
                   if fileSize <=? dataOffset entry then 0
                   else Z.min (dataSize entry) (fileSize - dataOffset entry))
      by reflexivity.
    destruct (fileSize <=? dataOffset entry) eqn:Hoff.
    + apply IH; [lia| |].
      * intros e' Hin. apply in_app_or in Hin as [Hin|[->|[]]]; [auto | lia].
      * destruct best as [b|]; [|assumption].
        destruct Hbest as (Hin & Hb & Hpos). auto using in_or_app.
    + destruct ((0 <? Z.min (dataSize entry) (fileSize - dataOffset entry))
                && (maxSize <? Z.min (dataSize entry) (fileSize - dataOffset entry)))
        eqn:Hbetter.
      * apply andb_true_iff in Hbetter as [Hpos Hgt].
        apply Z.ltb_lt in Hpos, Hgt.
        apply IH; [lia| |].
        -- intros e' Hin. apply in_app_or in Hin as [Hin|[->|[]]]; [|lia].
           specialize (Hseen e' Hin). lia.
        -- split; [apply in_or_app; right; left; reflexivity|]. split; [exact Heff | lia].
      * apply andb_false_iff in Hbetter.
        apply IH; [lia| |].
        -- intros e' Hin. apply in_app_or in Hin as [Hin|[->|[]]]; [auto|].
           destruct Hbetter as [H|H]; [apply Z.ltb_ge in H | apply Z.ltb_ge in H]; lia.
        -- destruct best as [b|]; [|assumption].
           destruct Hbest as (Hin & Hb & Hpos). auto using in_or_app.
Qed.

(** With distinct ids, looking an entry of the table up by its id finds that
    entry. *)
Lemma find_entry_own_id (entries : list PkgEntry) (e : PkgEntry) :
  NoDup (id <$> entries) -> In e entries -> find_entry (id e) entries = Some e.
Proof.
  induction entries as [|x rest IH]; intros Hnd Hin; [destruct Hin|].
  cbn [find_entry]. rewrite fmap_cons in Hnd. apply NoDup_cons in Hnd as [Hx Hnd].
  destruct Hin as [->|Hin].
  - by rewrite Z.eqb_refl.
  - destruct (id x =? id e) eqn:Heq; [|auto].
    apply Z.eqb_eq in Heq. exfalso. apply Hx. rewrite Heq.
    apply list_elem_of_In, in_map, Hin.
Qed.

(** The fallback on a table with distinct ids: when the lookup of 0x1000
    fails, [extractEboot] rejects a table without an entry of positive
    [effective]; otherwise it picks an entry of the largest positive
    [effective], rejects it above 2 GiB and returns its payload below. *)
Lemma extractEboot_fallback_distinct_ids
    (entries : list PkgEntry) (file : list Byte.byte) (msg : string)
    (pkg : WeaR_PkgLoader) (fileSize : Z) :
  pkg = mkPkgLoader entries (Some file) msg true ->
  fileSize = Z.of_nat (length file) ->
  NoDup (id <$> entries) ->
  is_unexpected (extractEntry pkg PKG_ENTRY_ID_EBOOT) = true ->
  (forall e, In e entries -> effective fileSize e <= 0) /\
    is_unexpected (extractEboot pkg) = true
  \/
  exists e, is_largest fileSize entries e /\
    if GiB2 <? effective fileSize e
    then is_unexpected (extractEboot pkg) = true
    else extractEboot pkg = Value (payload file e).
Proof.
  intros -> HfileSize Hnd Hfail. unfold extractEboot.
  destruct (extractEntry _ PKG_ENTRY_ID_EBOOT) as [data|m]; [discriminate|].
  cbn [m_loaded m_entries m_pkgPath negb orb]. clear Hfail.
  destruct entries as [|e0 rest] eqn:Hentries.
  { left. split; [intros e []|reflexivity]. }
  rewrite <- Hentries in *.
  pose proof (largest_valid_spec fileSize entries None 0 [] ltac:(lia)
                ltac:(intros e' []) eq_refl) as Hscan.
  rewrite <- HfileSize.
  destruct (largest_valid fileSize entries None 0) as [[e|] m'];
    cbn [fst app] in *.
  - destruct Hscan as (Hin & Heff & Hpos & Hmax). right. exists e.
    split; [split; [exact Hin | split; [lia | intros e' He'; rewrite Heff; auto]]|].
    unfold extractEntry. cbn [m_loaded negb m_entries m_pkgPath].
    rewrite (find_entry_own_id entries e Hnd Hin).
    rewrite <- HfileSize. unfold payload. rewrite <- HfileSize.
    unfold effective in *.
    destruct (fileSize <=? dataOffset e) eqn:Hoff; [lia|].
    destruct (dataSize e =? 0) eqn:Hz; [apply Z.eqb_eq in Hz; lia|].
    assert ((if fileSize - dataOffset e <? dataSize e
             then fileSize - dataOffset e else dataSize e)
            = Z.min (dataSize e) (fileSize - dataOffset e)) as ->.
    { destruct (fileSize - dataOffset e <? dataSize e) eqn:Hlt;
        [apply Z.ltb_lt in Hlt | apply Z.ltb_ge in Hlt]; lia. }
    destruct (GiB2 <? Z.min (dataSize e) (fileSize - dataOffset e)); reflexivity.
  - destruct Hscan as (_ & Hmax). left. split; [exact Hmax | reflexivity].
Qed.

(** S2. Entries 0x1002, 0x1003 and 0x1004 of sizes 10, 4096 and 128, no
    0x1000: the loader returns the 4096-byte payload of entry 0x1003. *)
Lemma s2_extracts_0x1003 :
  is_unexpected (extractEntry s2 PKG_ENTRY_ID_EBOOT) = true /\
  extractEboot s2 = Value (payload s2_file (entry 0x1003 512 4096)) /\
  Z.of_nat (length (payload s2_file (entry 0x1003 512 4096))) = 4096.
Proof. repeat split; vm_compute; reflexivity. Qed.

(** C7. The fallback re-reads the entry it chose through its id.  With two
    entries of id 0x2000 (4 bytes at offset 0, 16 bytes at offset 4) and no
    0x1000, the scan chooses the 16-byte entry, the one of the largest
    positive effective size, but [extractEboot] returns the 4-byte payload
    of the first entry with that id. *)
Theorem fallback_extracts_first_entry_of_same_id :
  is_unexpected (extractEntry twins PKG_ENTRY_ID_EBOOT) = true /\
  largest_valid (Z.of_nat (length twin_file)) (m_entries twins) None 0
    = (Some twin_large, 16) /\
  is_largest (Z.of_nat (length twin_file)) (m_entries twins) twin_large /\
  extractEboot twins = Value (payload twin_file twin_small) /\
  payload twin_file twin_small <> payload twin_file twin_large.
Proof.
  split; [reflexivity|]. split; [reflexivity|]. split.
  - split; [right; left; reflexivity|]. split; [reflexivity|].
    intros e' [<-|[<-|[]]]; vm_compute; discriminate.
  - split; [vm_compute; reflexivity|].
    intros H. apply (f_equal length) in H. vm_compute in H. discriminate.
Qed.

End PkgFacts.

(** ** Guest memory: typed accesses, aliasing and framing *)

Module MemAccess.
Import PS4Memory Mem.

Lemma byte_to_Z_to_byte (v : Z) : byte_to_Z (Z_to_byte v) = v mod 256.
Proof.
  unfold byte_to_Z, Z_to_byte, u8. change (2 ^ 8) with 256.
  pose proof (Z.mod_pos_bound v 256 ltac:(lia)) as Hb.
  destruct (Byte.of_N (Z.to_N (v mod 256))) as [b|] eqn:E.
  - apply Byte.to_of_N in E. simpl. rewrite E. lia.
  - apply Byte.of_N_None_iff in E. lia.
Qed.

Lemma byte_to_Z_range (b : Byte.byte) : 0 <= byte_to_Z b < 256.
Proof. unfold byte_to_Z. pose proof (Byte.to_N_bounded b). lia. Qed.

Lemma cell_store_le_below (n : nat) :
  forall (mem : WeaR_Memory) (p v q : Z), q < p -> cell (store_le mem p n v) q = cell mem q.
Proof.
  induction n as [|k IH]; intros mem p v q Hlt; simpl; [done|].
  rewrite IH by lia. apply MemFacts.cell_poke_ne. lia.
Qed.

Lemma load_le_store_le (n : nat) :
  forall (mem : WeaR_Memory) (p v : Z),
    load_le (store_le mem p n v) p n = v mod 2 ^ (8 * Z.of_nat n).
Proof.
  induction n as [|k IH]; intros mem p v.
  - simpl. by rewrite Z.mod_1_r.
  - cbn [store_le load_le]. rewrite IH.
    rewrite cell_store_le_below by lia.
    rewrite MemFacts.cell_poke_eq, byte_to_Z_to_byte.
    replace (8 * Z.of_nat (S k)) with (8 + 8 * Z.of_nat k) by lia.
    rewrite Z.pow_add_r by lia. change (2 ^ 8) with 256.
    rewrite Z.rem_mul_r by lia. reflexivity.
Qed.

Lemma load_le_range (n : nat) :
  forall (mem : WeaR_Memory) (p : Z), 0 <= load_le mem p n < 2 ^ (8 * Z.of_nat n).
Proof.
  induction n as [|k IH]; intros mem p.
  - simpl. lia.
  - cbn [load_le]. specialize (IH mem (p + 1)).
    pose proof (byte_to_Z_range (cell mem p)).
    replace (8 * Z.of_nat (S k)) with (8 + 8 * Z.of_nat k) by lia.
    rewrite Z.pow_add_r by lia. change (2 ^ 8) with 256. nia.
Qed.

(** X1. A typed write followed by a typed read of the same width at the same
    guest address returns the value written, reduced to the width of the type:
    if [write<T>(a, v)] does not throw, [read<T>(a)] on the memory it leaves
    returns [v mod 2^(8 n)] for a type of [n] bytes. *)
Theorem typed_write_read_roundtrip
    (n : nat) (mem mem' : WeaR_Memory) (a v : Z)
    (Hw : write n mem a v = Ok mem') :
  read n mem' a = Ok (v mod 2 ^ (8 * Z.of_nat n)).
Proof.
  unfold write, read in *.
  destruct (validateAccess (translateAddress a) (Z.of_nat n)); [|discriminate].
  injection Hw as <-. by rewrite load_le_store_le.
Qed.

Lemma typed_write_read_roundtrip_witness :
  read 4 (CpuScenario.program 0x400000 [0x2A; 0; 0; 0]) 0x400000
  = Ok (42 mod 2 ^ (8 * Z.of_nat 4)).
Proof.
  apply (typed_write_read_roundtrip 4 fresh _ 0x400000 42).
  vm_compute. reflexivity.
Defined.

(** Whether a typed access throws depends on the translated offset only. *)
Lemma validateAccess_spec (p n : Z) :
  0 <= p < MEMORY_SIZE -> 0 <= n < 2 ^ 63 ->
  validateAccess p n =
    if p + n <=? MEMORY_SIZE then Ok tt
    else Throw (MemoryAccessException OutOfBounds p n).
Proof.
  intros Hp Hn. unfold validateAccess, u64.
  rewrite Z.mod_small by (unfold MEMORY_SIZE in *; lia).
  destruct (Z.ltb_spec MEMORY_SIZE (p + n)), (Z.leb_spec (p + n) MEMORY_SIZE);
    (reflexivity || lia).
Qed.

(** A one-byte read succeeds at every address. *)
Lemma read_byte_total (mem : WeaR_Memory) (a : Z) :
  0 <= a -> exists b, read 1 mem a = Ok b.
Proof.
  intros Ha. pose proof (MemFacts.translateAddress_range a Ha) as Hr.
  unfold read. rewrite MemFacts.validateAccess_ok by lia. by eexists.
Qed.

(** X2. A typed access of [n <= 8] bytes at a 64-bit guest address throws
    exactly when fewer than [n] bytes lie between the translated offset and
    the end of the 8 GiB arena, and then the exception is [OutOfBounds] with
    the translated offset and the size; [isValidAddress] gives the same
    answer.  Otherwise the access is the little-endian load or store at the
    translated offset.  In particular a one-byte access never throws: no guest
    address, the null pointer included, is unmapped. *)
Theorem typed_access_faults_only_at_arena_end
    (n : nat) (mem : WeaR_Memory) (a v : Z)
    (Ha : 0 <= a < 2 ^ 64) (Hn : (n <= 8)%nat) :
  (translateAddress a + Z.of_nat n <= MEMORY_SIZE ->
     read n mem a = Ok (load_le mem (translateAddress a) n) /\
     write n mem a v = Ok (store_le mem (translateAddress a) n v) /\
     isValidAddress a (Z.of_nat n) = true) /\
  (MEMORY_SIZE < translateAddress a + Z.of_nat n ->
     read n mem a =
       Throw (MemoryAccessException OutOfBounds (translateAddress a) (Z.of_nat n)) /\
     write n mem a v =
       Throw (MemoryAccessException OutOfBounds (translateAddress a) (Z.of_nat n)) /\
     isValidAddress a (Z.of_nat n) = false) /\
  ((n <= 1)%nat ->
     exists b, read n mem a = Ok b /\ (0 <= b < 256) /\
               (exists mem', write n mem a v = Ok mem')).
Proof.
  pose proof (MemFacts.translateAddress_range a ltac:(lia)) as Hr.
  assert (Hspec := validateAccess_spec (translateAddress a) (Z.of_nat n) Hr ltac:(lia)).
  assert (Hvalid : isValidAddress a (Z.of_nat n)
                   = (translateAddress a + Z.of_nat n <=? MEMORY_SIZE)).
  { unfold isValidAddress, u64.
    rewrite Z.mod_small by (unfold MEMORY_SIZE in *; lia). reflexivity. }
  unfold read, write. rewrite Hspec, Hvalid.
  split; [|split].
  - intros Hfit. apply Z.leb_le in Hfit. by rewrite Hfit.
  - intros Hout. apply Z.leb_gt in Hout. by rewrite Hout.
  - intros H1.
    assert (Hfit : (translateAddress a + Z.of_nat n <=? MEMORY_SIZE) = true)
      by (apply Z.leb_le; lia).
    rewrite Hfit. eexists; split; [reflexivity|]. split; [|by eexists].
    pose proof (load_le_range n mem (translateAddress a)) as Hl.
    assert (2 ^ (8 * Z.of_nat n) <= 256).
    { change 256 with (2 ^ 8). apply Z.pow_le_mono_r; lia. }
    lia.
Qed.

Lemma typed_access_faults_only_at_arena_end_witness :
  (translateAddress (USER_BASE + MEMORY_SIZE - 4) + Z.of_nat 8 <= MEMORY_SIZE ->
     read 8 fresh (USER_BASE + MEMORY_SIZE - 4)
       = Ok (load_le fresh (translateAddress (USER_BASE + MEMORY_SIZE - 4)) 8) /\
     write 8 fresh (USER_BASE + MEMORY_SIZE - 4) 7
       = Ok (store_le fresh (translateAddress (USER_BASE + MEMORY_SIZE - 4)) 8 7) /\
     isValidAddress (USER_BASE + MEMORY_SIZE - 4) (Z.of_nat 8) = true) /\
  (MEMORY_SIZE < translateAddress (USER_BASE + MEMORY_SIZE - 4) + Z.of_nat 8 ->
     read 8 fresh (USER_BASE + MEMORY_SIZE - 4) =
       Throw (MemoryAccessException OutOfBounds
                (translateAddress (USER_BASE + MEMORY_SIZE - 4)) (Z.of_nat 8)) /\
     write 8 fresh (USER_BASE + MEMORY_SIZE - 4) 7 =
       Throw (MemoryAccessException OutOfBounds
                (translateAddress (USER_BASE + MEMORY_SIZE - 4)) (Z.of_nat 8)) /\
     isValidAddress (USER_BASE + MEMORY_SIZE - 4) (Z.of_nat 8) = false) /\
  ((8 <= 1)%nat ->
     exists b, read 8 fresh (USER_BASE + MEMORY_SIZE - 4) = Ok b /\ (0 <= b < 256) /\
               (exists mem', write 8 fresh (USER_BASE + MEMORY_SIZE - 4) 7 = Ok mem')).
Proof.
  apply (typed_access_faults_only_at_arena_end 8 fresh (USER_BASE + MEMORY_SIZE - 4) 7).
  - vm_compute. split; [discriminate | reflexivity].
  - lia.
Defined.

(** Two guest addresses that translate to the same offset. *)
Lemma translateAddress_alias (a b : Z) :
  (USER_BASE <= a /\ b = a + MEMORY_SIZE) \/
  (USER_BASE <= a < 2 * USER_BASE /\ b = a - USER_BASE) ->
  translateAddress b = translateAddress a.
Proof.
  assert (Hmask : PHYSICAL_MASK = Z.ones 33) by reflexivity.
  unfold translateAddress. rewrite Hmask.
  intros [[Ha ->]|[Ha ->]].
  - destruct (Z.leb_spec USER_BASE a); [|lia].
    destruct (Z.leb_spec USER_BASE (a + MEMORY_SIZE)); [|unfold MEMORY_SIZE in *; lia].
    rewrite !Z.land_ones by lia.
    replace (a + MEMORY_SIZE - USER_BASE) with (a - USER_BASE + 1 * 2 ^ 33)
      by (unfold MEMORY_SIZE; lia).
    apply Z.mod_add. lia.
  - destruct (Z.leb_spec USER_BASE a); [|lia].
    destruct (Z.leb_spec USER_BASE (a - USER_BASE)); [lia|]. reflexivity.
Qed.

(** X3. Address translation wraps: a guest address at or above [USER_BASE]
    and the address 8 GiB above it, and an address in the 4 MiB from
    [USER_BASE] on and the address [USER_BASE] below it, translate to the same
    offset; a value written through one of them is read back through the
    other. *)
Theorem aliased_addresses_share_memory
    (n : nat) (mem mem' : WeaR_Memory) (a b v : Z)
    (Halias : (USER_BASE <= a /\ b = a + MEMORY_SIZE) \/
              (USER_BASE <= a < 2 * USER_BASE /\ b = a - USER_BASE))
    (Hw : write n mem a v = Ok mem') :
  translateAddress b = translateAddress a /\
  read n mem' b = Ok (v mod 2 ^ (8 * Z.of_nat n)).
Proof.
  pose proof (translateAddress_alias a b Halias) as Heq.
  split; [exact Heq|].
  unfold write, read in *. rewrite Heq.
  destruct (validateAccess (translateAddress a) (Z.of_nat n)); [|discriminate].
  injection Hw as <-. by rewrite load_le_store_le.
Qed.

Lemma aliased_addresses_share_memory_witness :
  translateAddress 0x100 = translateAddress 0x400100 /\
  read 4 (CpuScenario.program 0x400100 [0x2A; 0; 0; 0]) 0x100
  = Ok (42 mod 2 ^ (8 * Z.of_nat 4)).
Proof.
  apply (aliased_addresses_share_memory 4 fresh _ 0x400100 0x100 42).
  - right. vm_compute. repeat split; discriminate.
  - vm_compute. reflexivity.
Defined.

Lemma cell_copy_in_above (src : list Byte.byte) :
  forall (mem : WeaR_Memory) (p q : Z),
    p + Z.of_nat (length src) <= q -> cell (copy_in mem p src) q = cell mem q.
Proof.
  induction src as [|b rest IH]; intros mem p q Hle; simpl in *; [done|].
  rewrite IH by lia. apply MemFacts.cell_poke_ne. lia.
Qed.

Lemma copy_out_ext (n : nat) :
  forall (mem mem' : WeaR_Memory) (p : Z),
    (forall q, p <= q < p + Z.of_nat n -> cell mem' q = cell mem q) ->
    copy_out mem' p n = copy_out mem p n.
Proof.
  induction n as [|k IH]; intros mem mem' p Hext; simpl; [done|].
  rewrite Hext by lia. f_equal. apply IH. intros q Hq. apply Hext. lia.
Qed.

(** X4. [writeBlock] changes nothing outside the range it writes: a
    [readBlock] of [k] bytes whose translated range does not meet the
    translated range of the write returns (or throws) after the write what it
    did before. *)
Theorem writeBlock_frame
    (mem mem' : WeaR_Memory) (a b : Z) (src dst : list Byte.byte) (k : Z)
    (Hk : 0 <= k < 2 ^ 63) (Hlen : Z.of_nat (length src) < 2 ^ 63)
    (Hw : writeBlock mem a (Some src) (Z.of_nat (length src)) = Ok mem')
    (Hdisjoint : translateAddress b + k <= translateAddress a \/
                 translateAddress a + Z.of_nat (length src) <= translateAddress b) :
  readBlock mem' b (Some dst) k = readBlock mem b (Some dst) k.
Proof.
  unfold writeBlock, readBlock in *.
  destruct (Z.of_nat (length src) =? 0); [by injection Hw as <-|].
  destruct (validateAccess (translateAddress a) (Z.of_nat (length src))); [|discriminate].
  injection Hw as <-. rewrite Nat2Z.id, firstn_all.
  destruct (k =? 0); [done|].
  destruct (validateAccess (translateAddress b) k); [|done].
  do 2 f_equal. f_equal. apply copy_out_ext. intros q Hq.
  rewrite Z2Nat.id in Hq by lia.
  destruct Hdisjoint as [Hlow|Hhigh].
  - apply MemFacts.cell_copy_in_below. lia.
  - apply cell_copy_in_above. lia.
Qed.

Lemma writeBlock_frame_witness :
  readBlock (CpuScenario.program 0x400000 [0xF4; 0x90]) 0x400002 (Some [Byte.xff]) 1
  = readBlock fresh 0x400002 (Some [Byte.xff]) 1.
Proof.
  apply (writeBlock_frame fresh _ 0x400000 0x400002 (Z_to_byte <$> [0xF4; 0x90])).
  - lia.
  - simpl. lia.
  - vm_compute. reflexivity.
  - right. vm_compute. discriminate.
Defined.

(** X5. After [fill(a, value, size)] has returned, [readBlock(a, dest, size)]
    puts [size] copies of the low byte of [value] into the destination and
    leaves the rest of the destination alone; after [zero(a, size)], [size]
    zero bytes. *)
Theorem fill_then_readBlock
    (mem mem' : WeaR_Memory) (a value size : Z) (dst : list Byte.byte)
    (Hsize : 0 <= size < 2 ^ 63)
    (Hf : fill mem a value size = Ok mem') :
  readBlock mem' a (Some dst) size
  = Ok (Some (repeat (Z_to_byte value) (Z.to_nat size) ++ drop (Z.to_nat size) dst)) /\
  (forall mem0, zero mem a size = Ok mem0 ->
     readBlock mem0 a (Some dst) size
     = Ok (Some (repeat Byte.x00 (Z.to_nat size) ++ drop (Z.to_nat size) dst))).
Proof.
  assert (Hgen : forall m0 m1 val, fill m0 a val size = Ok m1 ->
            readBlock m1 a (Some dst) size
            = Ok (Some (repeat (Z_to_byte val) (Z.to_nat size) ++ drop (Z.to_nat size) dst))).
  { intros m0 m1 val. unfold fill, readBlock.
    destruct (size =? 0) eqn:E0.
    - intros _. apply Z.eqb_eq in E0. subst size. reflexivity.
    - destruct (validateAccess (translateAddress a) size); [|discriminate].
      intros [= <-]. do 3 f_equal.
      pose proof (MemFacts.copy_out_copy_in (repeat (Z_to_byte val) (Z.to_nat size))
                    m0 (translateAddress a)) as Hc.
      by rewrite repeat_length in Hc. }
  split; [by eapply Hgen|].
  intros mem0 Hz. unfold zero in Hz. apply Hgen in Hz. exact Hz.
Qed.

Lemma fill_then_readBlock_witness :
  readBlock (CpuScenario.program 0x400000 [0x90; 0x90; 0x90]) 0x400000
            (Some [Byte.x00; Byte.x00; Byte.x00; Byte.x01]) 3
  = Ok (Some (repeat (Z_to_byte 0x90) (Z.to_nat 3)
              ++ drop (Z.to_nat 3) [Byte.x00; Byte.x00; Byte.x00; Byte.x01])) /\
  (forall mem0, zero fresh 0x400000 3 = Ok mem0 ->
     readBlock mem0 0x400000 (Some [Byte.x00; Byte.x00; Byte.x00; Byte.x01]) 3
     = Ok (Some (repeat Byte.x00 (Z.to_nat 3)
                 ++ drop (Z.to_nat 3) [Byte.x00; Byte.x00; Byte.x00; Byte.x01]))).
Proof.
  apply (fill_then_readBlock fresh _ 0x400000 0x90 3).
  - lia.
  - vm_compute. reflexivity.
Defined.

End MemAccess.

(** ** System-call dispatcher: registered handlers *)

Module HleHandlers.
Import Syscalls.

Lemma reg_set_reg_eq (ctx : WeaR_Context) (i : nat) (v : Z) :
  (i < length (GPR ctx))%nat -> Ctx.reg (Ctx.set_reg i v ctx) i = v.
Proof.
  intros Hlt. unfold Ctx.reg, Ctx.set_reg. cbn [GPR].
  apply nth_lookup_Some with (d := 0). by apply list_lookup_insert_eq.
Qed.

(** X6. [dispatch] runs the handler registered last for the number in RAX,
    on the arguments RDI, RSI, RDX, R10, R8, R9, and counts the call.  If the
    handler returns a result, RAX receives its value (as an unsigned 64-bit
    number), the unimplemented counter stays, and a failed result is logged
    as ["<name>: <error>"]; if the handler throws, the exception leaves
    [dispatch] with RAX not written. *)
Theorem dispatch_runs_registered_handler
    (d : WeaR_Syscalls) (num : Z) (h : HleFunction) (hs hs1 : HleState)
    (o : outcome SyscallResult)
    (Hnum : Ctx.RAX (h_ctx hs) = num)
    (Hrun : h (Ctx.RDI (h_ctx hs)) (Ctx.RSI (h_ctx hs)) (Ctx.RDX (h_ctx hs))
              (Ctx.R10 (h_ctx hs)) (Ctx.R8 (h_ctx hs)) (Ctx.R9 (h_ctx hs)) hs
            = Some (hs1, o))
    (Hgpr : length (GPR (h_ctx hs1)) = 16%nat) :
  let d1 := mkSyscalls (<[num := h]> (m_handlers d)) (u64 (m_totalCalls d + 1))
                       (m_unimplementedCalls d) in
  match o with
  | Throw e => dispatch (registerHandler num h d, hs) = Some ((d1, hs1), Throw e)
  | Ok r =>
    exists hs',
      dispatch (registerHandler num h d, hs) = Some ((d1, hs'), Ok tt) /\
      Ctx.RAX (h_ctx hs') = u64 (value r) /\
      h_mem hs' = h_mem hs1 /\
      trace (h_world hs') =
        if success r then trace (h_world hs1)
        else SyscallLog (getSyscallName num +:+ ": " +:+ error r) :: trace (h_world hs1)
  end.
Proof.
  destruct d as [handlers tc uc], hs as [ctx mem w].
  unfold dispatch, registerHandler, bind, modify, get, zoom.
  cbn [fst snd h_ctx h_mem h_world m_handlers m_totalCalls m_unimplementedCalls] in *.
  rewrite Hnum, lookup_insert_eq. cbn [fst snd]. rewrite Hrun.
  destruct o as [r|e]; [|reflexivity].
  destruct hs1 as [ctx1 mem1 w1]. cbn [fst snd h_ctx h_mem h_world] in *.
  destruct (success r) eqn:Hs.
  - eexists. split; [reflexivity|]. cbn.
    split; [|done]. apply reg_set_reg_eq. rewrite Hgpr. unfold Ctx.iRAX. lia.
  - eexists. split; [reflexivity|]. cbn.
    split; [|done]. apply reg_set_reg_eq. rewrite Hgpr. unfold Ctx.iRAX. lia.
Qed.

Lemma dispatch_runs_registered_handler_witness :
  exists hs',
    dispatch (registerHandler 20 hle_sys_getpid (mkSyscalls ∅ 0 0),
              snd (SyscallsScenario.with_RAX 20
                     (mkSyscalls ∅ 0 0, SyscallsScenario.hle_of SyscallsScenario.booted)))
    = Some ((mkSyscalls (<[20 := hle_sys_getpid]> ∅) (u64 (0 + 1)) 0, hs'), Ok tt) /\
    Ctx.RAX (h_ctx hs') = u64 1000 /\
    h_mem hs' = h_mem (SyscallsScenario.hle_of SyscallsScenario.booted) /\
    trace (h_world hs') = trace (h_world (SyscallsScenario.hle_of SyscallsScenario.booted)).
Proof.
  apply (dispatch_runs_registered_handler (mkSyscalls ∅ 0 0) 20 hle_sys_getpid
           (snd (SyscallsScenario.with_RAX 20
                   (mkSyscalls ∅ 0 0, SyscallsScenario.hle_of SyscallsScenario.booted)))
           (snd (SyscallsScenario.with_RAX 20
                   (mkSyscalls ∅ 0 0, SyscallsScenario.hle_of SyscallsScenario.booted)))
           (Ok (mkResult 1000 true ""))).
  - vm_compute. reflexivity.
  - reflexivity.
  - vm_compute. reflexivity.
Defined.

(** The string-reading loops never throw: every byte is readable. *)
Lemma read_chars_total (mem : WeaR_Memory) (addr : Z) (n : nat) :
  forall i, exists s, read_chars mem addr i n = Ok s /\ (String.length s <= n)%nat.
Proof.
  induction n as [|k IH]; intros i; cbn [read_chars].
  - exists "". split; [reflexivity | simpl; lia].
  - destruct (MemAccess.read_byte_total mem (u64 (addr + i))) as [c ->].
    { unfold u64. apply Z.mod_pos_bound. lia. }
    destruct (c =? 0).
    + exists "". split; [reflexivity | simpl; lia].
    + destruct (IH (i + 1)) as (rest & -> & Hlen).
      eexists. split; [reflexivity | simpl; lia].
Qed.



Lemma land_lnot_0xFFF (x : Z) : 0 <= x -> Z.land x (Z.lnot 0xFFF) = 4096 * (x / 4096).
Proof.
  intros Hx. rewrite <- Z.ldiff_land. change 0xFFF with (Z.ones 12).
  rewrite Z.ldiff_ones_r by lia.
  rewrite Z.shiftl_mul_pow2, Z.shiftr_div_pow2 by lia.
  change (2 ^ 12) with 4096. lia.
Qed.

(** One anonymous [sys_mmap] call: the bump pointer is returned, and moved on
    by the length rounded up to a page. *)
Lemma mmap_anonymous_call (ctx : WeaR_Context) (mem : WeaR_Memory)
    (tr : list Out) (g : WeaR_GnmDriver) (q : WeaR_RenderQueue)
    (next mid len prot fl fd off : Z) :
  hle_sys_mmap 0 len prot fl fd off (mkHle ctx mem (mkWorld tr g q next mid))
  = Some (mkHle ctx mem
            (mkWorld (SyscallLog ("sys_mmap(addr=0x" +:+ fmt_X 0 +:+ ", len=" +:+ fmt_u len
                                  +:+ ") -> 0x" +:+ fmt_X next +:+ "") :: tr)
                     g q (u64 (next + Z.land (u64 (len + 0xFFF)) (Z.lnot 0xFFF))) mid),
          Ok (mkResult (i64 next) true "")).
Proof. reflexivity. Qed.

(** X8. Two successive anonymous [sys_mmap] calls (address argument 0) return
    ranges that do not overlap: the first returns the bump pointer, and the
    second an address at least the first length further, less than a page
    beyond that, and a whole number of pages from the first.  Neither call
    changes memory or registers. *)
Theorem mmap_anonymous_mappings_disjoint
    (hs : HleState) (len1 len2 p1 f1 d1 o1 p2 f2 d2 o2 : Z)
    (Hnext : 0 <= mmap_nextAlloc (h_world hs))
    (Hlen1 : 0 <= len1) (Hlen2 : 0 <= len2)
    (Hroom : mmap_nextAlloc (h_world hs) + len1 + 0xFFF < 2 ^ 63) :
  exists hs1 hs2 r1 r2,
    hle_sys_mmap 0 len1 p1 f1 d1 o1 hs = Some (hs1, Ok r1) /\
    hle_sys_mmap 0 len2 p2 f2 d2 o2 hs1 = Some (hs2, Ok r2) /\
    success r1 = true /\ success r2 = true /\
    value r1 = mmap_nextAlloc (h_world hs) /\
    value r1 + len1 <= value r2 < value r1 + len1 + 4096 /\
    (value r2 - value r1) mod 4096 = 0 /\
    h_mem hs2 = h_mem hs /\ h_ctx hs2 = h_ctx hs.
Proof.
  destruct hs as [ctx mem [tr g q next mid]]. cbn [h_world mmap_nextAlloc] in *.
  rewrite mmap_anonymous_call.
  eexists _, _, _, _. split; [reflexivity|].
  split; [apply mmap_anonymous_call|].
  cbn [success value h_mem h_ctx].
  assert (Hu : u64 (len1 + 4095) = len1 + 4095) by (unfold u64; apply Z.mod_small; lia).
  rewrite Hu, land_lnot_0xFFF by lia.
  pose proof (Z.div_mod (len1 + 4095) 4096 ltac:(lia)) as Hdm.
  pose proof (Z.mod_pos_bound (len1 + 4095) 4096 ltac:(lia)) as Hmb.
  assert (Hu2 : u64 (next + 4096 * ((len1 + 4095) / 4096))
                = next + 4096 * ((len1 + 4095) / 4096))
    by (unfold u64; apply Z.mod_small; lia).
  rewrite Hu2.
  assert (Hi : forall x, 0 <= x < 2 ^ 63 -> i64 x = x).
  { intros x Hx. unfold i64, u64. rewrite Z.mod_small by lia.
    destruct (Z.ltb_spec x (2 ^ 63)); lia. }
  rewrite !Hi by lia.
  repeat split; try reflexivity; try lia.
  replace (next + 4096 * ((len1 + 4095) / 4096) - next)
    with (((len1 + 4095) / 4096) * 4096) by lia.
  apply Z.mod_mul. lia.
Qed.

Lemma mmap_anonymous_mappings_disjoint_witness :
  exists hs1 hs2 r1 r2,
    hle_sys_mmap 0 100 3 0 0 0 (SyscallsScenario.hle_of SyscallsScenario.booted)
      = Some (hs1, Ok r1) /\
    hle_sys_mmap 0 5000 3 0 0 0 hs1 = Some (hs2, Ok r2) /\
    success r1 = true /\ success r2 = true /\
    value r1 = mmap_nextAlloc (h_world (SyscallsScenario.hle_of SyscallsScenario.booted)) /\
    value r1 + 100 <= value r2 < value r1 + 100 + 4096 /\
    (value r2 - value r1) mod 4096 = 0 /\
    h_mem hs2 = h_mem (SyscallsScenario.hle_of SyscallsScenario.booted) /\
    h_ctx hs2 = h_ctx (SyscallsScenario.hle_of SyscallsScenario.booted).
Proof.
  apply (mmap_anonymous_mappings_disjoint
           (SyscallsScenario.hle_of SyscallsScenario.booted) 100 5000 3 0 0 0 3 0 0 0).
  - vm_compute. discriminate.
  - lia.
  - lia.
  - vm_compute. reflexivity.
Defined.

(** X9. [sceKernelGetCpuTemperature] returns 0 and stores the 32-bit value
    45 at the pointer it is given, where [read<uint32_t>] finds it again; a
    null pointer is skipped; a pointer within the last three bytes of the
    arena makes the handler throw [OutOfBounds] rather than return an error
    code. *)
Theorem getCpuTemperature_result
    (tempPtr a2 a3 a4 a5 a6 : Z) (hs : HleState)
    (Hptr : 0 <= tempPtr < 2 ^ 64) :
  (tempPtr = 0 ->
     hle_sceKernelGetCpuTemperature tempPtr a2 a3 a4 a5 a6 hs
     = Some (hs, Ok (mkResult 0 true ""))) /\
  (tempPtr <> 0 -> Mem.translateAddress tempPtr + 4 <= PS4Memory.MEMORY_SIZE ->
     exists mem',
       hle_sceKernelGetCpuTemperature tempPtr a2 a3 a4 a5 a6 hs
       = Some (mkHle (h_ctx hs) mem' (h_world hs), Ok (mkResult 0 true "")) /\
       Mem.read 4 mem' tempPtr = Ok 45) /\
  (tempPtr <> 0 -> PS4Memory.MEMORY_SIZE < Mem.translateAddress tempPtr + 4 ->
     hle_sceKernelGetCpuTemperature tempPtr a2 a3 a4 a5 a6 hs
     = Some (hs, Throw (MemoryAccessException OutOfBounds
                          (Mem.translateAddress tempPtr) 4))).
Proof.
  pose proof (MemFacts.translateAddress_range tempPtr ltac:(lia)) as Hr.
  assert (Hspec := MemAccess.validateAccess_spec (Mem.translateAddress tempPtr) 4 Hr ltac:(lia)).
  destruct hs as [ctx mem w].
  unfold hle_sceKernelGetCpuTemperature, bind, get, lift, set_mem, modify, ret.
  cbn [h_mem h_ctx h_world].
  split; [|split].
  - intros ->. reflexivity.
  - intros Hnz Hfit. destruct (Z.eqb_spec tempPtr 0); [done|].
    unfold Mem.write. change (Z.of_nat 4) with 4. rewrite Hspec.
    apply Z.leb_le in Hfit. rewrite Hfit.
    eexists. split; [reflexivity|].
    unfold Mem.read. change (Z.of_nat 4) with 4. rewrite Hspec, Hfit.
    by rewrite MemAccess.load_le_store_le.
  - intros Hnz Hout. destruct (Z.eqb_spec tempPtr 0); [done|].
    unfold Mem.write. change (Z.of_nat 4) with 4. rewrite Hspec.
    apply Z.leb_gt in Hout. by rewrite Hout.
Qed.

Lemma getCpuTemperature_result_witness :
  (0x400300 = 0 ->
     hle_sceKernelGetCpuTemperature 0x400300 0 0 0 0 0
       (SyscallsScenario.hle_of SyscallsScenario.booted)
     = Some (SyscallsScenario.hle_of SyscallsScenario.booted, Ok (mkResult 0 true ""))) /\
  (0x400300 <> 0 -> Mem.translateAddress 0x400300 + 4 <= PS4Memory.MEMORY_SIZE ->
     exists mem',
       hle_sceKernelGetCpuTemperature 0x400300 0 0 0 0 0
         (SyscallsScenario.hle_of SyscallsScenario.booted)
       = Some (mkHle (h_ctx (SyscallsScenario.hle_of SyscallsScenario.booted)) mem'
                     (h_world (SyscallsScenario.hle_of SyscallsScenario.booted)),
               Ok (mkResult 0 true "")) /\
       Mem.read 4 mem' 0x400300 = Ok 45) /\
  (0x400300 <> 0 -> PS4Memory.MEMORY_SIZE < Mem.translateAddress 0x400300 + 4 ->
     hle_sceKernelGetCpuTemperature 0x400300 0 0 0 0 0
       (SyscallsScenario.hle_of SyscallsScenario.booted)
     = Some (SyscallsScenario.hle_of SyscallsScenario.booted,
             Throw (MemoryAccessException OutOfBounds (Mem.translateAddress 0x400300) 4))).
Proof.
  apply (getCpuTemperature_result 0x400300 0 0 0 0 0).
  vm_compute. split; [discriminate | reflexivity].
Defined.

(** X10. The dispatcher's constructor registers handlers for exactly twelve
    system-call numbers: exit, write, mmap, getpid, getuid, sceKernelDebugOut,
    sceKernelIsNeoMode, sceKernelGetCpuTemperature, sceKernelLoadStartModule,
    sceGnmSubmitCommandBuffers, sceGnmSubmitDone and
    sceGnmGetGpuCoreClockFrequency.  Every other number (read, open and close
    among them) is unimplemented. *)
Theorem default_handlers_table (alloc_ok : Z -> bool) (fuel : nat) (num : Z) :
  is_Some (m_handlers (fresh alloc_ok fuel) !! num) <->
  num ∈ [Syscall.SYS_exit; Syscall.SYS_write; Syscall.SYS_mmap; Syscall.SYS_getpid;
         Syscall.SYS_getuid; Syscall.SYS_sceKernelDebugOut; Syscall.SYS_sceKernelIsNeoMode;
         Syscall.SYS_sceKernelGetCpuTemperature; Syscall.SYS_sceKernelLoadStartModule;
         Syscall.SYS_sceGnmSubmitCommandBuffers; Syscall.SYS_sceGnmSubmitDone;
         Syscall.SYS_sceGnmGetGpuCoreClockFrequency].
Proof.
  assert (Hdom : dom (m_handlers (fresh alloc_ok fuel)) =@{gset Z}
                 list_to_set
                   [Syscall.SYS_exit; Syscall.SYS_write; Syscall.SYS_mmap; Syscall.SYS_getpid;
                    Syscall.SYS_getuid; Syscall.SYS_sceKernelDebugOut;
                    Syscall.SYS_sceKernelIsNeoMode; Syscall.SYS_sceKernelGetCpuTemperature;
                    Syscall.SYS_sceKernelLoadStartModule;
                    Syscall.SYS_sceGnmSubmitCommandBuffers; Syscall.SYS_sceGnmSubmitDone;
                    Syscall.SYS_sceGnmGetGpuCoreClockFrequency])
    by (vm_compute; reflexivity).
  rewrite <- elem_of_dom, Hdom. apply elem_of_list_to_set.
Qed.

End HleHandlers.

(** ** CPU interpreter: instructions and execution state *)

Module CpuInstr.
Import Cpu CpuDecode.

(** *** What [step] does to the execution state *)

Create HintDb keeps.

Lemma keeps_ret {A} (a : A) : keeps_state (ret a).
Proof. intros m m' r [= <- _]. reflexivity. Qed.

Lemma keeps_bind {A B} (c : M Machine A) (k : A -> M Machine B) :
  keeps_state c -> (forall a, keeps_state (k a)) -> keeps_state (bind c k).
Proof.
  intros Hc Hk m m' r. unfold bind.
  destruct (c m) as [[m1 [a|e]]|] eqn:E; [| |discriminate].
  - intros Hrun. rewrite (Hk a m1 m' r Hrun). eapply Hc, E.
  - intros [= <- _]. eapply Hc, E.
Qed.

Lemma keeps_get : keeps_state get.
Proof. intros m m' r [= <- _]. reflexivity. Qed.

Lemma keeps_upd_ctx f : keeps_state (upd_ctx f).
Proof. intros m m' r [= <- _]. reflexivity. Qed.

Lemma keeps_set_lastOpcode op : keeps_state (set_lastOpcode op).
Proof. intros m m' r [= <- _]. reflexivity. Qed.

Lemma keeps_emit o : keeps_state (emit o).
Proof. intros m m' r [= <- _]. reflexivity. Qed.

Lemma keeps_mem_read n a : keeps_state (mem_read n a).
Proof. intros m m' r [= <- _]. reflexivity. Qed.

Lemma keeps_mem_write n a v : keeps_state (mem_write n a v).
Proof.
  intros m m' r. unfold mem_write.
  destruct (Mem.write n (memory m) a v); intros [= <- _]; reflexivity.
Qed.

Lemma keeps_call_dispatcher : keeps_state call_dispatcher.
Proof.
  intros m m' r. unfold call_dispatcher, zoom.
  destruct (Syscalls.dispatch _) as [[s o]|]; [|discriminate].
  intros [= <- _]. reflexivity.
Qed.

#[local] Hint Resolve keeps_ret keeps_get keeps_upd_ctx keeps_set_lastOpcode keeps_emit
  keeps_mem_read keeps_mem_write keeps_call_dispatcher : keeps.

#[local] Ltac keeps :=
  repeat first
    [ apply keeps_bind; [|intros ?]
    | match goal with
      | |- keeps_state (if ?b then _ else _) => destruct b
      | |- keeps_state (match ?x with _ => _ end) => destruct x
      end
    | solve [auto with keeps] ].

Lemma keeps_fetch n : keeps_state (fetch n).
Proof. unfold fetch. keeps. Qed.

#[local] Hint Resolve keeps_fetch : keeps.

Lemma keeps_execNOP : keeps_state execNOP.
Proof. apply keeps_ret. Qed.

Lemma keeps_execRET : keeps_state execRET.
Proof. unfold execRET. keeps. Qed.

Lemma keeps_execJMP_rel32 : keeps_state execJMP_rel32.
Proof. unfold execJMP_rel32, fetchDword. keeps. Qed.

Lemma keeps_execCALL_rel32 : keeps_state execCALL_rel32.
Proof. unfold execCALL_rel32, fetchDword. keeps. Qed.

Lemma keeps_execMOV_reg_imm64 reg : keeps_state (execMOV_reg_imm64 reg).
Proof. unfold execMOV_reg_imm64, fetchQword. keeps. Qed.

Lemma keeps_execPUSH_reg reg : keeps_state (execPUSH_reg reg).
Proof. unfold execPUSH_reg. keeps. Qed.

Lemma keeps_execPOP_reg reg : keeps_state (execPOP_reg reg).
Proof. unfold execPOP_reg. keeps. Qed.

Lemma keeps_execSYSCALL : keeps_state execSYSCALL.
Proof. unfold execSYSCALL. keeps. Qed.

Lemma keeps_execUnknown op : keeps_state (execUnknown op).
Proof. unfold execUnknown. keeps. Qed.

#[local] Hint Resolve keeps_execNOP keeps_execRET keeps_execJMP_rel32 keeps_execCALL_rel32
  keeps_execMOV_reg_imm64 keeps_execPUSH_reg keeps_execPOP_reg keeps_execSYSCALL
  keeps_execUnknown : keeps.

Lemma body_spec_bind {A} (c : M Machine A) (k : A -> M Machine Z) :
  keeps_state c -> (forall a, body_spec (k a)) -> body_spec (bind c k).
Proof.
  intros Hc Hk m m' r. unfold bind.
  destruct (c m) as [[m1 [a|e]]|] eqn:E; [| |discriminate].
  - intros Hrun. rewrite <- (Hc _ _ _ E). exact (Hk a m1 m' r Hrun).
  - intros [= <- <-]. simpl. eapply Hc, E.
Qed.

Lemma body_spec_one (c : M Machine unit) :
  keeps_state c -> body_spec (bind c (fun _ => ret 1)).
Proof.
  intros Hc m m' r. unfold bind, ret.
  destruct (c m) as [[m1 [a|e]]|] eqn:E; [| |discriminate]; intros [= <- <-]; simpl.
  - left. split; [reflexivity | eapply Hc, E].
  - eapply Hc, E.
Qed.

Lemma body_spec_hlt : body_spec (bind execHLT (fun _ => ret 0)).
Proof.
  intros m m' r. unfold execHLT, bind, emit, zoom, Gnm.emit, modify, set_state, ret.
  intros [= <- <-]. simpl. right. done.
Qed.

Lemma step_body_spec : body_spec step_body.
Proof.
  unfold step_body, fetchByte, fetchDword.
  apply body_spec_bind; [keeps|intros opcode0].
  apply body_spec_bind; [keeps|intros _].
  apply body_spec_bind; [keeps|intros [[hasREX rex] opcode]].
  repeat match goal with
         | |- body_spec (if ?b then _ else _) => destruct b
         end;
    try (apply body_spec_one; keeps); try apply body_spec_hlt.
  apply body_spec_bind; [keeps|intros opcode2].
  destruct (opcode2 =? 5); apply body_spec_one; keeps.
Qed.

(** The relation between the result of [step] and the execution state. *)
Lemma step_result (m m' : Machine) (r : outcome Z) :
  step m = Some (m', r) ->
  (r = Ok 1 /\ m_cpu_state (cpu m') = m_cpu_state (cpu m)) \/
  (r = Ok 0 /\ (m_cpu_state (cpu m') = Halted \/ m_cpu_state (cpu m') = Faulted)).
Proof.
  unfold step, try_catch.
  destruct (step_body m) as [[m1 [c|e]]|] eqn:E; [| |discriminate].
  - intros [= <- <-]. apply step_body_spec in E. simpl in E.
    destruct E as [[-> Hs]|[-> Hs]]; [left|right]; auto.
  - intros Hh. right.
    unfold bind, get, emit, zoom, Gnm.emit, modify, set_state, ret in Hh.
    injection Hh as <- <-. auto.
Qed.

(** X11. Whenever [step] returns, it returns 0 or 1 and never lets an
    exception out: 1 with the execution state as it was, or 0 with the state
    set to [Halted] (by HLT) or [Faulted] (by an exception in the instruction). *)
Theorem step_returns_zero_on_halt_or_fault
    (m m' : Machine) (r : outcome Z)
    (Hstep : step m = Some (m', r)) :
  (r = Ok 1 /\ m_cpu_state (cpu m') = m_cpu_state (cpu m)) \/
  (r = Ok 0 /\ (m_cpu_state (cpu m') = Halted \/ m_cpu_state (cpu m') = Faulted)).
Proof. exact (step_result m m' r Hstep). Qed.

Lemma step_of_cycles (m : Machine) (c : Z) :
  CpuScenario.cycles m = Some c -> step m = Some (CpuScenario.aft m, Ok c).
Proof.
  unfold CpuScenario.cycles, CpuScenario.aft.
  destruct (step m) as [[m' [c'|e]]|]; try discriminate.
  by intros [= ->].
Qed.

Lemma step_returns_zero_on_halt_or_fault_witness :
  (Ok 0 = Ok 1 /\
   m_cpu_state (cpu (CpuScenario.aft CpuScenario.hlt_nop))
   = m_cpu_state (cpu CpuScenario.hlt_nop)) \/
  (Ok 0 = Ok 0 /\
   (m_cpu_state (cpu (CpuScenario.aft CpuScenario.hlt_nop)) = Halted \/
    m_cpu_state (cpu (CpuScenario.aft CpuScenario.hlt_nop)) = Faulted)).
Proof.
  apply (step_returns_zero_on_halt_or_fault CpuScenario.hlt_nop).
  apply step_of_cycles. vm_compute. reflexivity.
Defined.

Lemma idle_pause (m : Machine) :
  idle (m_cpu_state (cpu m)) = true -> pause m = m /\ resume m = m.
Proof. unfold pause, resume. destruct (m_cpu_state (cpu m)); done. Qed.

Lemma cpuThreadMain_idle (n : nat) :
  forall m m', idle (m_cpu_state (cpu m)) = true ->
    EmulatorCore.cpuThreadMain n m = Some m' -> idle (m_cpu_state (cpu m')) = true.
Proof.
  induction n as [|k IH]; intros m m' Hidle; cbn [EmulatorCore.cpuThreadMain].
  - by intros [= <-].
  - destruct (m_cpu_state (cpu m)) eqn:Est; try discriminate;
      (destruct (step m) as [[m1 r]|] eqn:E; [|discriminate]);
      intros Hrun; apply (IH m1 m'); try exact Hrun;
      apply step_result in E as [[_ ->]|[_ [->| ->]]]; rewrite ?Est; reflexivity.
Qed.

(** X12. The CPU thread never has a CPU that can be paused: [cpuThreadMain]
    calls [step] directly, and [step] only ever sets [Halted] or [Faulted], so
    from a state that is neither [Running] nor [Paused] (as [reset] leaves it)
    the state stays that way for any number of iterations, and
    [WeaR_Cpu::pause] and [WeaR_Cpu::resume] change nothing. *)
Theorem cpu_thread_is_never_paused
    (n : nat) (m m' : Machine)
    (Hidle : idle (m_cpu_state (cpu m)) = true)
    (Hrun : EmulatorCore.cpuThreadMain n m = Some m') :
  idle (m_cpu_state (cpu m')) = true /\ pause m' = m' /\ resume m' = m'.
Proof.
  pose proof (cpuThreadMain_idle n m m' Hidle Hrun) as H.
  split; [exact H | by apply idle_pause].
Qed.

Lemma cpu_thread_is_never_paused_witness :
  idle (m_cpu_state (cpu (CpuScenario.run 2 CpuScenario.hlt_nop))) = true /\
  pause (CpuScenario.run 2 CpuScenario.hlt_nop) = CpuScenario.run 2 CpuScenario.hlt_nop /\
  resume (CpuScenario.run 2 CpuScenario.hlt_nop) = CpuScenario.run 2 CpuScenario.hlt_nop.
Proof.
  apply (cpu_thread_is_never_paused 2 CpuScenario.hlt_nop).
  - vm_compute. reflexivity.
  - assert (Hsome : (fun _ => tt) <$> EmulatorCore.cpuThreadMain 2 CpuScenario.hlt_nop
                    = Some tt) by (vm_compute; reflexivity).
    unfold CpuScenario.run.
    destruct (EmulatorCore.cpuThreadMain 2 CpuScenario.hlt_nop); [reflexivity|discriminate].
Defined.

Lemma decoded_false (op : Z) :
  decoded op = false ->
  (op =? 0x90) = false /\ (op =? 0xC3) = false /\ (op =? 0xE9) = false /\
  (op =? 0xE8) = false /\ (op =? 0xF4) = false /\
  (0x50 <=? op) && (op <=? 0x57) = false /\
  (0x58 <=? op) && (op <=? 0x5F) = false /\
  (0xB8 <=? op) && (op <=? 0xBF) = false /\ (op =? 0x0F) = false.
Proof.
  unfold decoded. intros H.
  repeat (apply orb_false_elim in H as [H ?]). repeat split; assumption.
Qed.

Lemma u64_succ_pred (x : Z) : 0 <= x < 2 ^ 64 -> u64 (u64 (x + 1) - 1) = x.
Proof.
  intros Hx. unfold u64. rewrite Zminus_mod_idemp_l.
  replace (x + 1 - 1) with x by lia. apply Z.mod_small. lia.
Qed.

(** X13. An opcode byte that is neither a REX prefix nor one of the opcodes
    [step] has a case for is skipped as a one-byte instruction: [step] logs
    the opcode and its address on the error stream, records it as the last
    opcode, advances RIP by one, returns 1, and changes neither registers,
    memory nor the execution state. *)
Theorem undecoded_opcode_is_skipped
    (m : Machine) (op : Z)
    (Hrip : 0 <= RIP (ctx m) < 2 ^ 64)
    (Hfetch : Mem.read 1 (memory m) (RIP (ctx m)) = Ok op)
    (Hrex : is_rex op = false)
    (Hdec : decoded op = false) :
  step m =
    Some (mkMachine
            (mkCpu (Ctx.set_RIP (u64 (RIP (ctx m) + 1)) (m_context (cpu m)))
                   (m_cpu_state (cpu m)) (m_shouldStop (cpu m))
                   (m_instructionCount (cpu m)) op (m_syscallHandler (cpu m)))
            (memory m) (syscalls m)
            (let w := world m in
             mkWorld (Cerr ("[CPU] Unknown opcode 0x" +:+ fmt_0X 2 op +:+ " at RIP=0x"
                            +:+ fmt_0X 16 (RIP (ctx m))) :: trace w)
                     (gnm w) (renderQueue w) (mmap_nextAlloc w) (nextModuleId w)),
          Ok 1).
Proof.
  destruct m as [[c st stop ic lo sh] mem sys w]. destruct c as [gpr rip fl cs ds es fs gs ss x mx].
  unfold ctx in *. cbn [cpu m_context memory RIP] in *.
  destruct (decoded_false op Hdec) as (H1 & H2 & H3 & H4 & H5 & H6 & H7 & H8 & H9).
  unfold is_rex in Hrex.
  unfold step, try_catch, step_body, fetchByte, fetch, bind, get, mem_read, lift,
    upd_ctx, modify, set_lastOpcode, ret, ctx.
  cbn [cpu m_context memory RIP]. rewrite Hfetch.
  cbn [set_cpu cpu m_context m_cpu_state m_shouldStop m_instructionCount m_lastOpcode
       m_syscallHandler memory syscalls world Ctx.set_RIP RIP].
  rewrite Hrex. cbn beta iota.
  rewrite H1, H2, H3, H4, H5, H6, H7, H8, H9.
  unfold execUnknown, bind, get, emit, zoom, Gnm.emit, modify, ctx.
  cbn -[u64 fmt_0X String.append Z.add Z.sub].
  change (Z.of_nat 1) with 1. rewrite u64_succ_pred by lia. reflexivity.
Qed.

Lemma undecoded_opcode_is_skipped_witness :
  step undecoded_c7 =
    Some (mkMachine
            (mkCpu (Ctx.set_RIP (u64 (RIP (ctx undecoded_c7) + 1))
                                (m_context (cpu undecoded_c7)))
                   (m_cpu_state (cpu undecoded_c7)) (m_shouldStop (cpu undecoded_c7))
                   (m_instructionCount (cpu undecoded_c7)) 0xC7
                   (m_syscallHandler (cpu undecoded_c7)))
            (memory undecoded_c7) (syscalls undecoded_c7)
            (let w := world undecoded_c7 in
             mkWorld (Cerr ("[CPU] Unknown opcode 0x" +:+ fmt_0X 2 0xC7 +:+ " at RIP=0x"
                            +:+ fmt_0X 16 (RIP (ctx undecoded_c7))) :: trace w)
                     (gnm w) (renderQueue w) (mmap_nextAlloc w) (nextModuleId w)),
          Ok 1).
Proof.
  apply (undecoded_opcode_is_skipped undecoded_c7 0xC7).
  - vm_compute. split; [discriminate | reflexivity].
  - vm_compute. reflexivity.
  - reflexivity.
  - reflexivity.
Defined.

(** *** Stack instructions *)

Lemma u64_sub_add_8 (x : Z) : 0 <= x < 2 ^ 64 -> u64 (u64 (x - 8) + 8) = x.
Proof.
  intros Hx. unfold u64. rewrite Zplus_mod_idemp_l.
  replace (x - 8 + 8) with x by lia. apply Z.mod_small. lia.
Qed.

Lemma read_after_write (n : nat) (mem mem' : WeaR_Memory) (a v : Z) :
  Mem.write n mem a v = Ok mem' -> 0 <= v < 2 ^ (8 * Z.of_nat n) ->
  Mem.read n mem' a = Ok v.
Proof.
  intros Hw Hv. unfold Mem.write, Mem.read in *.
  destruct (Mem.validateAccess (Mem.translateAddress a) (Z.of_nat n)); [|discriminate].
  injection Hw as <-. rewrite MemAccess.load_le_store_le. by rewrite Z.mod_small.
Qed.

(** X14. PUSH of element [r] of [GPR] followed by POP into element [r']
    (neither the element that is RSP) copies the value of [r] to [r'], leaves
    every other register, RSP included, and RIP as they were, and leaves the
    value in the stack slot just below the old stack pointer. *)
Theorem push_pop_roundtrip
    (m m1 : Machine) (r r' : nat)
    (Hgpr : length (GPR (ctx m)) = 16%nat)
    (Hrsp : 0 <= Ctx.RSP (ctx m) < 2 ^ 64)
    (Hval : 0 <= Ctx.reg (ctx m) r < 2 ^ 64)
    (Hr : r <> Ctx.iRSP) (Hr' : r' <> Ctx.iRSP)
    (Hpush : execPUSH_reg (Z.of_nat r) m = Some (m1, Ok tt)) :
  exists m2,
    execPOP_reg (Z.of_nat r') m1 = Some (m2, Ok tt) /\
    GPR (ctx m2) = <[r' := Ctx.reg (ctx m) r]> (GPR (ctx m)) /\
    RIP (ctx m2) = RIP (ctx m) /\
    memory m2 = memory m1 /\
    Mem.read 8 (memory m1) (u64 (Ctx.RSP (ctx m) - 8)) = Ok (Ctx.reg (ctx m) r).
Proof.
  destruct m as [[c st stop ic lo sh] mem sys w].
  destruct c as [gpr rip fl cs ds es fs gs ss x mx].
  unfold ctx, Ctx.RSP, Ctx.reg in *. cbn [cpu m_context GPR] in *.
  unfold execPUSH_reg, bind, upd_ctx, modify, get, mem_write, ctx, Ctx.RSP, Ctx.reg in Hpush.
  cbn [set_cpu cpu m_context memory syscalls world Ctx.set_reg GPR
       m_cpu_state m_shouldStop m_instructionCount m_lastOpcode m_syscallHandler] in Hpush.
  rewrite Nat2Z.id in Hpush.
  assert (Hsp : nth Ctx.iRSP (<[Ctx.iRSP := u64 (nth Ctx.iRSP gpr 0 - 8)]> gpr) 0
                = u64 (nth Ctx.iRSP gpr 0 - 8)).
  { apply nth_lookup_Some with (d := 0), list_lookup_insert_eq.
    rewrite Hgpr. unfold Ctx.iRSP. lia. }
  assert (Hrv : nth r (<[Ctx.iRSP := u64 (nth Ctx.iRSP gpr 0 - 8)]> gpr) 0 = nth r gpr 0).
  { rewrite !nth_lookup. by rewrite list_lookup_insert_ne. }
  rewrite Hsp, Hrv in Hpush.
  destruct (Mem.write 8 mem _ _) as [mem1|] eqn:Hw; [|discriminate].
  injection Hpush as <-.
  pose proof (read_after_write 8 _ _ _ _ Hw Hval) as Hread.
  unfold execPOP_reg, bind, upd_ctx, modify, get, mem_read, lift, ctx, Ctx.RSP, Ctx.reg.
  cbn [set_cpu cpu m_context memory syscalls world Ctx.set_reg GPR RIP
       m_cpu_state m_shouldStop m_instructionCount m_lastOpcode m_syscallHandler].
  rewrite Nat2Z.id, Hsp, Hread.
  eexists. split; [reflexivity|].
  assert (Hsp' : nth Ctx.iRSP (<[r' := nth r gpr 0]>
                                 (<[Ctx.iRSP := u64 (nth Ctx.iRSP gpr 0 - 8)]> gpr)) 0
                 = u64 (nth Ctx.iRSP gpr 0 - 8)).
  { rewrite nth_lookup, list_lookup_insert_ne by done. by rewrite <- nth_lookup. }
  rewrite Hsp', u64_sub_add_8 by lia.
  unfold Ctx.set_reg, set_cpu. cbn [cpu m_context GPR RIP memory].
  split; [|done].
  rewrite (list_insert_insert_ne _ Ctx.iRSP r') by done.
  rewrite list_insert_insert_eq. f_equal. apply list_insert_id.
  rewrite nth_lookup.
  destruct (lookup_lt_is_Some_2 gpr Ctx.iRSP) as [v ->]; [|reflexivity].
  rewrite Hgpr. unfold Ctx.iRSP. lia.
Qed.

Lemma run_left_by {A} (c : M Machine A) (m : Machine) (r : outcome A) :
  snd <$> c m = Some r -> c m = Some (left_by c m, r).
Proof.
  unfold left_by. destruct (c m) as [[m' r']|]; simpl; [|discriminate].
  by intros [= ->].
Qed.

Lemma push_pop_roundtrip_witness :
  exists m2,
    execPOP_reg (Z.of_nat 2) (left_by (execPUSH_reg (Z.of_nat 1)) loaded_rbx)
      = Some (m2, Ok tt) /\
    GPR (ctx m2) = <[2%nat := Ctx.reg (ctx loaded_rbx) 1]> (GPR (ctx loaded_rbx)) /\
    RIP (ctx m2) = RIP (ctx loaded_rbx) /\
    memory m2 = memory (left_by (execPUSH_reg (Z.of_nat 1)) loaded_rbx) /\
    Mem.read 8 (memory (left_by (execPUSH_reg (Z.of_nat 1)) loaded_rbx))
             (u64 (Ctx.RSP (ctx loaded_rbx) - 8))
    = Ok (Ctx.reg (ctx loaded_rbx) 1).
Proof.
  apply (push_pop_roundtrip loaded_rbx _ 1 2).
  - vm_compute. reflexivity.
  - vm_compute. split; [discriminate | reflexivity].
  - vm_compute. split; [discriminate | reflexivity].
  - discriminate.
  - discriminate.
  - apply run_left_by. vm_compute. reflexivity.
Defined.

(** X15. CALL rel32 followed by RET returns to the instruction after the
    CALL: the CALL reads its displacement at RIP, pushes the address of the
    next instruction and jumps by the sign-extended displacement; the RET then
    sets RIP to that pushed address and restores every general register, the
    stack pointer included. *)
Theorem call_ret_roundtrip
    (m m1 : Machine)
    (Hgpr : length (GPR (ctx m)) = 16%nat)
    (Hrsp : 0 <= Ctx.RSP (ctx m) < 2 ^ 64)
    (Hcall : execCALL_rel32 m = Some (m1, Ok tt)) :
  exists d m2,
    Mem.read 4 (memory m) (RIP (ctx m)) = Ok d /\
    RIP (ctx m1) = u64 (i64 (u64 (RIP (ctx m) + 4)) + i32 d) /\
    Ctx.RSP (ctx m1) = u64 (Ctx.RSP (ctx m) - 8) /\
    execRET m1 = Some (m2, Ok tt) /\
    RIP (ctx m2) = u64 (RIP (ctx m) + 4) /\
    GPR (ctx m2) = GPR (ctx m) /\
    memory m2 = memory m1.
Proof.
  destruct m as [[c st stop ic lo sh] mem sys w].
  destruct c as [gpr rip fl cs ds es fs gs ss x mx].
  unfold ctx, Ctx.RSP, Ctx.reg in *. cbn [cpu m_context GPR RIP memory] in *.
  unfold execCALL_rel32, fetchDword, fetch, bind, upd_ctx, modify, get, mem_read, lift,
    mem_write, ret, ctx, Ctx.RSP, Ctx.reg in Hcall.
  cbn [set_cpu cpu m_context memory syscalls world Ctx.set_reg Ctx.set_RIP GPR RIP
       m_cpu_state m_shouldStop m_instructionCount m_lastOpcode m_syscallHandler] in Hcall.
  destruct (Mem.read 4 mem rip) as [d|] eqn:Hd; [|discriminate].
  cbn [set_cpu cpu m_context memory syscalls world Ctx.set_reg Ctx.set_RIP GPR RIP
       m_cpu_state m_shouldStop m_instructionCount m_lastOpcode m_syscallHandler] in Hcall.
  assert (Hsp : nth Ctx.iRSP (<[Ctx.iRSP := u64 (nth Ctx.iRSP gpr 0 - 8)]> gpr) 0
                = u64 (nth Ctx.iRSP gpr 0 - 8)).
  { apply nth_lookup_Some with (d := 0), list_lookup_insert_eq.
    rewrite Hgpr. unfold Ctx.iRSP. lia. }
  rewrite Hsp in Hcall. change (Z.of_nat 4) with 4 in *.
  destruct (Mem.write 8 mem _ _) as [mem1|] eqn:Hw; [|discriminate].
  injection Hcall as <-.
  assert (Hret : 0 <= u64 (rip + 4) < 2 ^ (8 * Z.of_nat 8)).
  { unfold u64. apply Z.mod_pos_bound. lia. }
  pose proof (read_after_write 8 _ _ _ _ Hw Hret) as Hread.
  exists d. eexists. split; [reflexivity|].
  unfold execRET, bind, upd_ctx, modify, get, mem_read, lift, ctx, Ctx.RSP, Ctx.reg.
  cbn [set_cpu cpu m_context memory syscalls world Ctx.set_reg Ctx.set_RIP GPR RIP
       m_cpu_state m_shouldStop m_instructionCount m_lastOpcode m_syscallHandler].
  rewrite Hsp, Hread.
  split; [reflexivity|]. split; [reflexivity|]. split; [reflexivity|].
  cbn [set_cpu cpu m_context memory syscalls world Ctx.set_reg Ctx.set_RIP GPR RIP
       m_cpu_state m_shouldStop m_instructionCount m_lastOpcode m_syscallHandler].
  split; [reflexivity|]. split; [|reflexivity].
  rewrite u64_sub_add_8 by lia. rewrite list_insert_insert_eq.
  apply list_insert_id. rewrite nth_lookup.
  destruct (lookup_lt_is_Some_2 gpr Ctx.iRSP) as [v ->]; [|reflexivity].
  rewrite Hgpr. unfold Ctx.iRSP. lia.
Qed.

Lemma call_ret_roundtrip_witness :
  exists d m2,
    Mem.read 4 (memory at_call) (RIP (ctx at_call)) = Ok d /\
    RIP (ctx (left_by execCALL_rel32 at_call))
      = u64 (i64 (u64 (RIP (ctx at_call) + 4)) + i32 d) /\
    Ctx.RSP (ctx (left_by execCALL_rel32 at_call)) = u64 (Ctx.RSP (ctx at_call) - 8) /\
    execRET (left_by execCALL_rel32 at_call) = Some (m2, Ok tt) /\
    RIP (ctx m2) = u64 (RIP (ctx at_call) + 4) /\
    GPR (ctx m2) = GPR (ctx at_call) /\
    memory m2 = memory (left_by execCALL_rel32 at_call).
Proof.
  apply (call_ret_roundtrip at_call).
  - vm_compute. reflexivity.
  - vm_compute. split; [discriminate | reflexivity].
  - apply run_left_by. vm_compute. reflexivity.
Defined.

End CpuInstr.

(** ** PM4 packet headers *)

Module PacketFacts.
Import PM4.

Lemma land_shiftl_low (hi lo k : Z) :
  0 <= lo < 2 ^ k -> Z.land (Z.shiftl hi k) lo = 0.
Proof.
  intros Hlo. apply Z.bits_inj'. intros n Hn.
  rewrite Z.land_spec, Z.bits_0.
  destruct (Z.lt_ge_cases n k) as [Hlt|Hge].
  - by rewrite Z.shiftl_spec_low.
  - assert (Z.testbit lo n = false) as ->; [|apply andb_false_r].
    destruct (Z.eq_dec lo 0) as [->|Hnz]; [apply Z.bits_0|].
    apply Z.bits_above_log2; [lia|].
    assert (Z.log2 lo < k) by (apply Z.log2_lt_pow2; lia). lia.
Qed.

(** Two fields that do not overlap are joined by addition. *)
Lemma lor_shiftl_low (hi lo k : Z) :
  0 <= k -> 0 <= lo < 2 ^ k -> Z.lor (Z.shiftl hi k) lo = hi * 2 ^ k + lo.
Proof.
  intros Hk Hlo. pose proof (land_shiftl_low hi lo k Hlo) as Hdisj.
  rewrite <- Z.lxor_lor, <- Z.add_nocarry_lxor by exact Hdisj.
  by rewrite Z.shiftl_mul_pow2.
Qed.

(** The header word as a sum of its fields. *)
Lemma buildHeader_sum (op cnt sh : Z) :
  0 <= op < 256 -> 1 <= cnt <= 0x4000 -> 0 <= sh < 256 ->
  buildHeader op cnt sh = 3 * 2 ^ 30 + (cnt - 1) * 2 ^ 16 + op * 2 ^ 8 + sh.
Proof.
  intros Hop Hcnt Hsh. unfold buildHeader.
  assert (Hc : u32 (cnt - 1) = cnt - 1) by (unfold u32; apply Z.mod_small; lia).
  rewrite Hc, <- !Z.lor_assoc.
  rewrite (lor_shiftl_low op sh 8) by lia.
  rewrite (lor_shiftl_low (cnt - 1) _ 16) by lia.
  rewrite (lor_shiftl_low 3 _ 30) by lia.
  unfold u32. rewrite Z.mod_small by lia. lia.
Qed.

(** X16. [buildHeader] and the accessors of [PacketHeader] are inverse to
    each other: for an opcode and a shader type below 256 and a payload
    length from 1 to 0x4000, the word built is a 32-bit Type-3 header whose
    opcode, payload size and shader type are the ones given. *)
Theorem buildHeader_decode
    (op cnt sh : Z)
    (Hop : 0 <= op < 256) (Hcnt : 1 <= cnt <= 0x4000) (Hsh : 0 <= sh < 256) :
  0 <= buildHeader op cnt sh < 2 ^ 32 /\
  isType3 (buildHeader op cnt sh) = true /\
  opcode (buildHeader op cnt sh) = op /\
  payloadSize (buildHeader op cnt sh) = cnt /\
  shaderType (buildHeader op cnt sh) = sh.
Proof.
  unfold isType3, type, opcode, payloadSize, count, shaderType.
  change 0x3 with (Z.ones 2). change 0x3FFF with (Z.ones 14). change 0xFF with (Z.ones 8).
  rewrite !Z.land_ones, !Z.shiftr_div_pow2 by lia.
  change (Z.ones 2) with 3.
  rewrite (buildHeader_sum op cnt sh Hop Hcnt Hsh).
  change (2 ^ 30) with 1073741824. change (2 ^ 16) with 65536.
  change (2 ^ 14) with 16384. change (2 ^ 8) with 256. change (2 ^ 2) with 4.
  change (2 ^ 32) with 4294967296.
  split; [lia|]. split; [apply Z.eqb_eq|split; [|split]];
    Z.div_mod_to_equations; lia.
Qed.

Lemma buildHeader_decode_witness :
  0 <= buildHeader IT_DRAW_INDEX_AUTO 2 0 < 2 ^ 32 /\
  isType3 (buildHeader IT_DRAW_INDEX_AUTO 2 0) = true /\
  opcode (buildHeader IT_DRAW_INDEX_AUTO 2 0) = IT_DRAW_INDEX_AUTO /\
  payloadSize (buildHeader IT_DRAW_INDEX_AUTO 2 0) = 2 /\
  shaderType (buildHeader IT_DRAW_INDEX_AUTO 2 0) = 0.
Proof.
  apply (buildHeader_decode IT_DRAW_INDEX_AUTO 2 0).
  - unfold IT_DRAW_INDEX_AUTO. lia.
  - lia.
  - lia.
Defined.

End PacketFacts.

(** ** Render command queue *)

Module QueueFacts.
Import RenderQueue QueueScenario.

Lemma u64_u64_add (x k : Z) : u64 (u64 x + k) = u64 (x + k).
Proof. unfold u64. by rewrite Zplus_mod_idemp_l. Qed.

Lemma fold_push_queue (cmds : list WeaR_DrawCmd) :
  forall q, m_queue (fold_left (fun q c => push c q) cmds q) = m_queue q ++ cmds.
Proof.
  induction cmds as [|c rest IH]; intros q; simpl.
  - by rewrite app_nil_r.
  - rewrite IH. simpl. by rewrite <- app_assoc.
Qed.

Lemma fold_push_counters (cmds : list WeaR_DrawCmd) :
  forall q,
    m_totalPopped (fold_left (fun q c => push c q) cmds q) = m_totalPopped q /\
    m_frameCount (fold_left (fun q c => push c q) cmds q) = m_frameCount q /\
    (cmds <> [] ->
     m_totalPushed (fold_left (fun q c => push c q) cmds q)
     = u64 (m_totalPushed q + Z.of_nat (length cmds))).
Proof.
  induction cmds as [|c rest IH]; intros q; [done|].
  cbn [fold_left]. destruct (IH (push c q)) as (Hpop & Hfr & Hpush).
  split; [exact Hpop|]. split; [exact Hfr|]. intros _.
  destruct rest as [|c' rest'].
  - simpl. reflexivity.
  - rewrite Hpush by done. cbn [push m_totalPushed].
    rewrite u64_u64_add. f_equal. cbn [length]. lia.
Qed.

(** X17. The render queue is first in, first out: pushing a vector of
    commands is the same as pushing its elements one by one, and [popAll]
    then returns the commands that were pending followed by the new ones in
    the order pushed, empties the queue, and adds their number to the popped
    counter. *)
Theorem queue_is_fifo (q : WeaR_RenderQueue) (cmds : list WeaR_DrawCmd) :
  push_many cmds q = fold_left (fun q c => push c q) cmds q /\
  fst (popAll (push_many cmds q)) = m_queue q ++ cmds /\
  isEmpty (snd (popAll (push_many cmds q))) = true /\
  m_totalPopped (snd (popAll (push_many cmds q)))
  = u64 (m_totalPopped q + Z.of_nat (length (m_queue q) + length cmds)).
Proof.
  assert (Heq : push_many cmds q = fold_left (fun q c => push c q) cmds q).
  { destruct (fold_push_counters cmds q) as (Hpop & Hfr & Hpush).
    pose proof (fold_push_queue cmds q) as Hq.
    destruct cmds as [|c rest]; [reflexivity|].
    specialize (Hpush ltac:(done)).
    destruct (fold_left _ _ _) as [queue pushed popped frames].
    cbn [m_queue m_totalPushed m_totalPopped m_frameCount] in *. subst.
    reflexivity. }
  split; [exact Heq|]. rewrite Heq.
  pose proof (fold_push_queue cmds q) as Hq.
  destruct (fold_push_counters cmds q) as (Hpop & _ & _).
  unfold popAll, isEmpty. cbn [fst snd m_queue m_totalPopped].
  rewrite Hq, Hpop, length_app. done.
Qed.

Lemma congruent_refl (a : Z) : congruent a a.
Proof. unfold congruent. by rewrite Z.sub_diag. Qed.

Lemma congruent_u64 (a b : Z) : congruent a b -> congruent (u64 a) b.
Proof.
  unfold congruent, u64. intros H.
  rewrite Zminus_mod_idemp_l. exact H.
Qed.

Lemma congruent_shift (a b k : Z) : congruent a b -> congruent (a + k) (b + k).
Proof. unfold congruent. intros H. by replace (a + k - (b + k)) with (a - b) by lia. Qed.

Lemma apply_op_balanced (q : WeaR_RenderQueue) (op : QueueOp) :
  balanced q -> balanced (apply_op q op).
Proof.
  unfold balanced, size. intros H. destruct op as [cmd|cmds| |]; simpl.
  - rewrite length_app. simpl. apply congruent_u64.
    replace (m_totalPopped q + Z.of_nat (length (m_queue q) + 1))
      with (m_totalPopped q + Z.of_nat (length (m_queue q)) + 1) by lia.
    by apply congruent_shift.
  - destruct cmds as [|c rest]; [exact H|]. cbn [push_many m_queue m_totalPushed m_totalPopped].
    rewrite length_app. apply congruent_u64.
    replace (m_totalPopped q + Z.of_nat (length (m_queue q) + length (c :: rest)))
      with (m_totalPopped q + Z.of_nat (length (m_queue q)) + Z.of_nat (length (c :: rest)))
      by lia.
    by apply congruent_shift.
  - rewrite length_app. simpl. apply congruent_u64.
    replace (m_totalPopped q + Z.of_nat (length (m_queue q) + 1))
      with (m_totalPopped q + Z.of_nat (length (m_queue q)) + 1) by lia.
    by apply congruent_shift.
  - rewrite Z.add_0_r. unfold congruent in *.
    unfold u64. rewrite Zminus_mod_idemp_r. exact H.
Qed.

Lemma apply_op_frames (q : WeaR_RenderQueue) (op : QueueOp) :
  m_frameCount (apply_op q op)
  = if is_end_frame op then u64 (m_frameCount q + 1) else m_frameCount q.
Proof. destruct op as [cmd|cmds| |]; try reflexivity. by destruct cmds. Qed.

Lemma run_ops_balanced (ops : list QueueOp) :
  forall q, balanced q -> balanced (fold_left apply_op ops q).
Proof.
  induction ops as [|op rest IH]; intros q H; [exact H|].
  simpl. apply IH. by apply apply_op_balanced.
Qed.

Lemma run_ops_frames (ops : list QueueOp) :
  forall q, congruent (m_frameCount (fold_left apply_op ops q))
                      (m_frameCount q + Z.of_nat (length (List.filter is_end_frame ops))).
Proof.
  induction ops as [|op rest IH]; intros q.
  - simpl. rewrite Z.add_0_r. apply congruent_refl.
  - cbn [fold_left List.filter]. specialize (IH (apply_op q op)).
    rewrite apply_op_frames in IH.
    destruct (is_end_frame op).
    + cbn [length]. unfold congruent, u64 in *.
      replace (m_frameCount (fold_left apply_op rest (apply_op q op))
               - (m_frameCount q + Z.of_nat (S (length (List.filter is_end_frame rest)))))
        with (m_frameCount (fold_left apply_op rest (apply_op q op))
              - Z.of_nat (length (List.filter is_end_frame rest))
              - (m_frameCount q + 1)) by lia.
      rewrite <- Zminus_mod_idemp_r.
      rewrite <- IH. f_equal. lia.
    + exact IH.
Qed.

(** X18. After any sequence of [push] (either overload), [endFrame] and
    [popAll] calls on a new queue, the counters account for the commands:
    pushed equals popped plus pending, and the frame counter is the number of
    [endFrame] calls (all modulo 2^64).  [clear] breaks the first equation:
    the commands it discards are never counted as popped. *)
Theorem queue_counters_account_for_commands (ops : list QueueOp) :
  let q := fold_left apply_op ops empty in
  balanced q /\
  congruent (m_frameCount q) (Z.of_nat (length (List.filter is_end_frame ops))) /\
  congruent (m_totalPushed (clear q))
            (m_totalPopped (clear q) + size (clear q) + size q).
Proof.
  cbn zeta. set (q := fold_left apply_op ops empty).
  assert (Hb : balanced q).
  { apply run_ops_balanced. unfold balanced, congruent, size. reflexivity. }
  split; [exact Hb|]. split; [apply (run_ops_frames ops empty)|].
  unfold balanced, size, clear in *. cbn [m_queue m_totalPushed m_totalPopped length].
  by rewrite Z.add_0_r.
Qed.

End QueueFacts.

(** ** GPU command parser: what parsing can change *)

Module ParserFacts.
Import Gnm QueueScenario ParserEffects.

(** X19. A Type-3 packet whose announced payload runs past the end of the
    command buffer ends the parsing of that buffer: the parser logs "Packet
    overflow" with the offset of the header and returns, without reading the
    payload, running a handler, counting the packet or touching the render
    queue. *)
Theorem truncated_packet_stops_parsing
    (fuel : nat) (mem : WeaR_Memory) (bufferAddr sizeInDwords offset h : Z) (w : World)
    (Hoff : 0 <= offset < sizeInDwords)
    (Hsize : sizeInDwords <= 0x3FFFFFFF)
    (Hhdr : Mem.read 4 mem (u64 (bufferAddr + u32 (offset * 4))) = Ok h)
    (Ht3 : PM4.isType3 h = true)
    (Hover : sizeInDwords < offset + 1 + PM4.payloadSize h) :
  parse_loop (S fuel) mem bufferAddr sizeInDwords offset w
  = Some (mkWorld (GnmLog ("PM4: Packet overflow at offset " +:+ fmt_u offset) :: trace w)
                  (gnm w) (renderQueue w) (mmap_nextAlloc w) (nextModuleId w),
          Ok tt).
Proof.
  cbn [parse_loop].
  destruct (Z.ltb_spec offset sizeInDwords); [|lia].
  unfold loop_body, bind, lift. rewrite Hhdr, Ht3. cbn [negb].
  pose proof (GnmFacts.payloadSize_range h) as Hps.
  rewrite (GnmFacts.u32_small (offset + 1)) by lia.
  rewrite (GnmFacts.u32_small (offset + 1 + PM4.payloadSize h)) by lia.
  destruct (Z.ltb_spec sizeInDwords (offset + 1 + PM4.payloadSize h)); [|lia].
  replace (offset + 1 - 1) with offset by lia.
  rewrite (GnmFacts.u32_small offset) by lia. reflexivity.
Qed.

Lemma truncated_packet_stops_parsing_witness :
  parse_loop (S 5) truncated_buffer GnmScenario.BUFFER 2 0 EmulatorCore.fresh_world
  = Some (mkWorld (GnmLog ("PM4: Packet overflow at offset " +:+ fmt_u 0)
                     :: trace EmulatorCore.fresh_world)
                  (gnm EmulatorCore.fresh_world) (renderQueue EmulatorCore.fresh_world)
                  (mmap_nextAlloc EmulatorCore.fresh_world)
                  (nextModuleId EmulatorCore.fresh_world),
          Ok tt).
Proof.
  apply (truncated_packet_stops_parsing 5 truncated_buffer GnmScenario.BUFFER 2 0
           (PM4.header PM4.IT_DRAW_INDEX_AUTO 3)).
  - lia.
  - lia.
  - vm_compute. reflexivity.
  - vm_compute. reflexivity.
  - vm_compute. reflexivity.
Defined.

(** *** Parsing only appends to the render queue *)

Lemma congruent_trans (a b c : Z) : congruent a b -> congruent b c -> congruent a c.
Proof.
  unfold congruent. intros Hab Hbc.
  apply Z.mod_divide in Hab; [|lia]. apply Z.mod_divide in Hbc; [|lia].
  apply Z.mod_divide; [lia|].
  replace (a - c) with ((a - b) + (b - c)) by lia. by apply Z.divide_add_r.
Qed.

Lemma draw_calls_app (l1 l2 : list WeaR_DrawCmd) :
  draw_calls (l1 ++ l2) = draw_calls l1 + draw_calls l2.
Proof. unfold draw_calls. rewrite List.filter_app, length_app. lia. Qed.

Lemma extends_refl (w : World) : extends w w.
Proof.
  exists []. rewrite app_nil_r. unfold draw_calls. simpl. rewrite !Z.add_0_r.
  repeat split; apply QueueFacts.congruent_refl.
Qed.

Lemma extends_trans (w1 w2 w3 : World) : extends w1 w2 -> extends w2 w3 -> extends w1 w3.
Proof.
  intros (c1 & Hq1 & Hf1 & Hd1 & Hp1 & Ho1 & Hc1 & Hm1 & Hn1 & Hv1)
         (c2 & Hq2 & Hf2 & Hd2 & Hp2 & Ho2 & Hc2 & Hm2 & Hn2 & Hv2).
  exists (c1 ++ c2).
  split; [by rewrite Hq2, Hq1, app_assoc|].
  split; [rewrite forallb_app; by rewrite Hf1, Hf2|].
  split.
  { rewrite draw_calls_app. eapply congruent_trans; [exact Hd2|].
    replace (m_drawCallsQueued (gnm w1) + (draw_calls c1 + draw_calls c2))
      with (m_drawCallsQueued (gnm w1) + draw_calls c1 + draw_calls c2) by lia.
    by apply QueueFacts.congruent_shift. }
  split.
  { rewrite length_app. eapply congruent_trans; [exact Hp2|].
    replace (m_totalPushed (renderQueue w1) + Z.of_nat (length c1 + length c2))
      with (m_totalPushed (renderQueue w1) + Z.of_nat (length c1) + Z.of_nat (length c2))
      by lia.
    by apply QueueFacts.congruent_shift. }
  repeat split; congruence.
Qed.

Lemma only_extends_ret {A} (a : A) : only_extends (ret a).
Proof. intros w w' r [= <- _]. apply extends_refl. Qed.

Lemma only_extends_lift {A} (o : outcome A) : only_extends (lift o).
Proof. intros w w' r [= <- _]. apply extends_refl. Qed.

Lemma only_extends_bind {A B} (c : M World A) (k : A -> M World B) :
  only_extends c -> (forall a, only_extends (k a)) -> only_extends (bind c k).
Proof.
  intros Hc Hk w w' r. unfold bind.
  destruct (c w) as [[w1 [a|e]]|] eqn:E; [| |discriminate].
  - intros Hrun. eapply extends_trans; [eapply Hc, E | eapply Hk, Hrun].
  - intros [= <- _]. eapply Hc, E.
Qed.

(** A change of the trace, the tracked GPU state or the packet counter. *)
Lemma extends_gpu (w : World) (tr : list Out) (s : GpuState) (pk : Z) :
  extends w (mkWorld tr (mkGnmDriver s pk (m_drawCallsQueued (gnm w)) (m_verbose (gnm w)))
                     (renderQueue w) (mmap_nextAlloc w) (nextModuleId w)).
Proof.
  exists []. cbn. rewrite app_nil_r. unfold draw_calls. simpl. rewrite !Z.add_0_r.
  repeat split; apply QueueFacts.congruent_refl.
Qed.

Lemma only_extends_log (msg : string) : only_extends (log msg).
Proof.
  intros [tr [s pk dc v] q ma mi] w' r [= <- _].
  apply (extends_gpu (mkWorld tr (mkGnmDriver s pk dc v) q ma mi) _ s pk).
Qed.

Lemma only_extends_when_verbose (c : M World unit) :
  only_extends c -> only_extends (when_verbose c).
Proof.
  intros Hc w w' r. unfold when_verbose.
  destruct (m_verbose (gnm w)); [apply Hc | apply only_extends_ret].
Qed.

Lemma only_extends_incr_packetsProcessed : only_extends incr_packetsProcessed.
Proof.
  intros [tr [s pk dc v] q ma mi] w' r [= <- _].
  apply (extends_gpu (mkWorld tr (mkGnmDriver s pk dc v) q ma mi) tr s).
Qed.

Create HintDb extends.
#[local] Hint Resolve only_extends_ret only_extends_lift only_extends_log
  only_extends_when_verbose only_extends_incr_packetsProcessed : extends.

Lemma only_extends_log_regs (name : string) (values : list Z) :
  forall regOffset i, only_extends (log_regs name regOffset i values).
Proof.
  induction values as [|v rest IH]; intros regOffset i; cbn [log_regs].
  - apply only_extends_ret.
  - apply only_extends_bind; [auto with extends | intros _; apply IH].
Qed.

(** A handler that pushes one command, counted as a draw call or not. *)
Lemma extends_push (w : World) (tr : list Out) (s : GpuState) (cmd : WeaR_DrawCmd)
    (counted : bool) :
  from_parser cmd = true -> is_draw_call cmd = counted ->
  extends w
    (mkWorld tr
       (mkGnmDriver s (m_packetsProcessed (gnm w))
          (if counted then u64 (m_drawCallsQueued (gnm w) + 1) else m_drawCallsQueued (gnm w))
          (m_verbose (gnm w)))
       (RenderQueue.push cmd (renderQueue w)) (mmap_nextAlloc w) (nextModuleId w)).
Proof.
  intros Hfp Hdc. exists [cmd]. cbn. unfold draw_calls. cbn. rewrite Hfp, Hdc.
  repeat split; try reflexivity.
  - destruct counted; cbn.
    + apply QueueFacts.congruent_u64, QueueFacts.congruent_refl.
    + rewrite Z.add_0_r. apply QueueFacts.congruent_refl.
  - apply QueueFacts.congruent_u64, QueueFacts.congruent_refl.
Qed.

Lemma only_extends_handleDrawIndexAuto p c : only_extends (handleDrawIndexAuto p c).
Proof.
  unfold handleDrawIndexAuto. destruct (c <? 2); [apply only_extends_ret|].
  intros [tr [s pk dc v] q ma mi] w' r [= <- _].
  apply (extends_push (mkWorld tr (mkGnmDriver s pk dc v) q ma mi) _ s _ true); reflexivity.
Qed.

Lemma only_extends_handleDrawIndex2 p c : only_extends (handleDrawIndex2 p c).
Proof.
  unfold handleDrawIndex2. destruct (c <? 4); [apply only_extends_ret|].
  intros [tr [s pk dc v] q ma mi] w' r [= <- _].
  apply (extends_push (mkWorld tr (mkGnmDriver s pk dc v) q ma mi) _ _ _ true); reflexivity.
Qed.

Lemma only_extends_handleDispatchDirect p c : only_extends (handleDispatchDirect p c).
Proof.
  unfold handleDispatchDirect. destruct (c <? 4); [apply only_extends_ret|].
  intros [tr [s pk dc v] q ma mi] w' r [= <- _].
  apply (extends_push (mkWorld tr (mkGnmDriver s pk dc v) q ma mi) _ s _ false); reflexivity.
Qed.

Lemma only_extends_handleIndexType p c : only_extends (handleIndexType p c).
Proof.
  unfold handleIndexType. destruct (c <? 1); [apply only_extends_ret|].
  intros [tr [s pk dc v] q ma mi] w' r [= <- _].
  apply (extends_gpu (mkWorld tr (mkGnmDriver s pk dc v) q ma mi) tr).
Qed.

Lemma only_extends_handleNumInstances p c : only_extends (handleNumInstances p c).
Proof.
  unfold handleNumInstances. destruct (c <? 1); [apply only_extends_ret|].
  intros [tr [s pk dc v] q ma mi] w' r [= <- _].
  apply (extends_gpu (mkWorld tr (mkGnmDriver s pk dc v) q ma mi) tr).
Qed.

Lemma only_extends_handleSetContextReg p c : only_extends (handleSetContextReg p c).
Proof.
  unfold handleSetContextReg. destruct (c <? 2);
    [apply only_extends_ret | apply only_extends_log_regs].
Qed.

Lemma only_extends_handleSetShReg p c : only_extends (handleSetShReg p c).
Proof.
  unfold handleSetShReg. destruct (c <? 2);
    [apply only_extends_ret | apply only_extends_log_regs].
Qed.

#[local] Hint Resolve only_extends_handleDrawIndexAuto only_extends_handleDrawIndex2
  only_extends_handleDispatchDirect only_extends_handleIndexType
  only_extends_handleNumInstances only_extends_handleSetContextReg
  only_extends_handleSetShReg : extends.

Lemma only_extends_dispatch_packet (recurse : Z -> Z -> M World unit) (op : Z)
    (payload : list Z) (cnt : Z) :
  (forall addr size, only_extends (recurse addr size)) ->
  only_extends (dispatch_packet recurse op payload cnt).
Proof.
  intros Hrec. unfold dispatch_packet.
  repeat match goal with |- context [if ?c then _ else _] => destruct c end;
    auto with extends;
    try (unfold handleNOP, handleEventWrite, handleAcquireMem, handleReleaseMem;
         apply only_extends_ret).
  unfold handleIndirectBuffer. destruct (cnt <? 3); [apply only_extends_ret|].
  apply only_extends_bind; [auto with extends | intros _; apply Hrec].
Qed.

Lemma only_extends_loop_body (recurse : Z -> Z -> M World unit)
    (continue : Z -> M World unit) (mem : WeaR_Memory) (bufferAddr sizeInDwords offset : Z) :
  (forall addr size, only_extends (recurse addr size)) ->
  (forall off, only_extends (continue off)) ->
  only_extends (loop_body recurse continue mem bufferAddr sizeInDwords offset).
Proof.
  intros Hrec Hcont. unfold loop_body.
  apply only_extends_bind; [auto with extends | intros h].
  destruct (negb (PM4.isType3 h)).
  - apply only_extends_bind; [auto with extends | intros _; apply Hcont].
  - destruct (sizeInDwords <? _); [auto with extends|].
    apply only_extends_bind; [auto with extends | intros payload].
    apply only_extends_bind; [auto with extends | intros _].
    apply only_extends_bind; [by apply only_extends_dispatch_packet | intros _].
    apply only_extends_bind; [auto with extends | intros _; apply Hcont].
Qed.

Lemma only_extends_parse_loop (fuel : nat) :
  forall mem bufferAddr sizeInDwords offset,
    only_extends (parse_loop fuel mem bufferAddr sizeInDwords offset).
Proof.
  induction fuel as [|fuel IH]; intros mem bufferAddr sizeInDwords offset; cbn [parse_loop].
  - intros w w' r. discriminate.
  - destruct (offset <? sizeInDwords); [|apply only_extends_ret].
    apply only_extends_loop_body; intros; apply IH.
Qed.

(** X20. Parsing a command buffer only ever appends to the render queue:
    however [processCommandBuffer] ends (normally or by a memory fault, with
    nested buffers or without), the commands pending before are still there
    in front, the appended ones are DrawAuto, DrawIndexed or ComputeDispatch
    commands, the draw-call counter has moved by the number of appended draw
    commands (compute dispatches are not counted), and the pushed counter by
    the number of appended commands. *)
Theorem parsing_only_appends_commands
    (fuel : nat) (mem : WeaR_Memory) (bufferAddr sizeInDwords : Z) (w w' : World)
    (r : outcome unit)
    (Hrun : processCommandBuffer fuel mem bufferAddr sizeInDwords w = Some (w', r)) :
  extends w w'.
Proof. exact (only_extends_parse_loop fuel mem bufferAddr sizeInDwords 0 w w' r Hrun). Qed.

Lemma parsing_only_appends_commands_witness :
  extends EmulatorCore.fresh_world after_draw.
Proof.
  apply (parsing_only_appends_commands 4 GnmScenario.draw_buffer GnmScenario.BUFFER 3
           EmulatorCore.fresh_world after_draw (Ok tt)).
  vm_compute. reflexivity.
Defined.

(** X21. The instance count and the index type are sticky state:
    NUM_INSTANCES [n] followed by DRAW_INDEX_AUTO queues a DrawAuto command
    with [n] instances, and INDEX_TYPE [ty] followed by DRAW_INDEX_2 queues a
    DrawIndexed command with index type [ty mod 4] and the 64-bit index buffer
    address assembled from the two address words. *)
Theorem draw_state_is_sticky
    (recurse : Z -> Z -> M World unit) (n vertices initiator : Z)
    (maxSize lo hi indices ty : Z) (w : World) :
  (exists w',
     bind (dispatch_packet recurse PM4.IT_NUM_INSTANCES [n] 1)
          (fun _ => dispatch_packet recurse PM4.IT_DRAW_INDEX_AUTO [vertices; initiator] 2) w
     = Some (w', Ok tt) /\
     m_queue (renderQueue w')
     = m_queue (renderQueue w)
       ++ [mkDrawCmd RC_DrawAuto vertices 0 n 0 0 0 0 0 0 0 0 0 0 0 0
                     RenderQueue.default_pipeline]) /\
  (exists w',
     bind (dispatch_packet recurse PM4.IT_INDEX_TYPE [ty] 1)
          (fun _ => dispatch_packet recurse PM4.IT_DRAW_INDEX_2
                      [maxSize; lo; hi; indices] 4) w
     = Some (w', Ok tt) /\
     m_queue (renderQueue w')
     = m_queue (renderQueue w)
       ++ [mkDrawCmd RC_DrawIndexed 0 indices (gs_instanceCount (m_state (gnm w)))
                     0 0 0 0 0 (Z.lor lo (u64 (Z.shiftl hi 32))) 0 (Z.land ty 0x3)
                     0 0 0 0 RenderQueue.default_pipeline]).
Proof.
  destruct w as [tr [s pk dc v] q ma mi].
  unfold bind, dispatch_packet. cbn.
  split; eexists; (split; [reflexivity|]); reflexivity.
Qed.

End ParserFacts.

(** ** Virtual file system: paths, mount table and descriptors *)

Module MountFacts.
Import VFS.

Lemma replace_backslashes_idem (s : string) :
  replace_backslashes (replace_backslashes s) = replace_backslashes s.
Proof.
  induction s as [|c rest IH]; [reflexivity|]. cbn [replace_backslashes]. rewrite IH.
  destruct (Ascii.eqb c "\"%char) eqn:E; [reflexivity|]. by rewrite E.
Qed.

Lemma strip_trailing_slashes_idem (s : string) :
  strip_trailing_slashes (strip_trailing_slashes s) = strip_trailing_slashes s.
Proof.
  induction s as [|c rest IH]; [reflexivity|]. cbn [strip_trailing_slashes].
  destruct (strip_trailing_slashes rest) as [|c' rest'] eqn:E.
  - destruct (Ascii.eqb c Path.slash) eqn:Ec; [reflexivity|].
    cbn [strip_trailing_slashes]. by rewrite Ec.
  - cbn [strip_trailing_slashes] in *. by rewrite IH.
Qed.

(** Stripping keeps a string free of backslashes. *)
Lemma strip_keeps_clean (s : string) :
  replace_backslashes s = s ->
  replace_backslashes (strip_trailing_slashes s) = strip_trailing_slashes s.
Proof.
  induction s as [|c rest IH]; [reflexivity|]. cbn [replace_backslashes].
  intros [= Hc Hrest]. cbn [strip_trailing_slashes].
  destruct (strip_trailing_slashes rest) as [|c' rest'] eqn:E.
  - destruct (Ascii.eqb c Path.slash); [reflexivity|].
    cbn [replace_backslashes]. by rewrite Hc.
  - cbn [replace_backslashes] in *. rewrite Hc. f_equal. by apply IH.
Qed.

Lemma strip_no_trailing_slash (s : string) :
  Path.last_char (strip_trailing_slashes s) <> Some Path.slash.
Proof.
  induction s as [|c rest IH]; [discriminate|]. cbn [strip_trailing_slashes].
  destruct (strip_trailing_slashes rest) as [|c' rest'] eqn:E.
  - destruct (Ascii.eqb c Path.slash) eqn:Ec; [discriminate|].
    cbn. intros [= ->]. by rewrite Ascii.eqb_refl in Ec.
  - exact IH.
Qed.

(** X22. [normalizePath] yields a canonical spelling: normalising twice is
    the same as normalising once, and the result starts with a slash, holds no
    backslash, and ends in a slash only when it is the root ["/"]. *)
Theorem normalizePath_is_canonical (path : string) :
  normalizePath (normalizePath path) = normalizePath path /\
  Path.is_absolute (normalizePath path) = true /\
  replace_backslashes (normalizePath path) = normalizePath path /\
  (normalizePath path = "/" \/ Path.last_char (normalizePath path) <> Some Path.slash).
Proof.
  unfold normalizePath.
  pose proof (strip_keeps_clean _ (replace_backslashes_idem path)) as Hclean.
  pose proof (strip_trailing_slashes_idem (replace_backslashes path)) as Hidem.
  pose proof (strip_no_trailing_slash (replace_backslashes path)) as Hlast.
  destruct (strip_trailing_slashes (replace_backslashes path)) as [|c r] eqn:E.
  - cbn. repeat split; auto.
  - destruct (Ascii.eqb c Path.slash) eqn:Ec.
    + rewrite Hclean, Hidem, Ec. cbn [Path.is_absolute]. rewrite Ec. auto.
    + assert (Hq : replace_backslashes ("/" +:+ String c r) = "/" +:+ String c r).
      { change ("/" +:+ String c r) with (String "/" (String c r)).
        cbn [replace_backslashes] in *. by rewrite Hclean. }
      assert (Hs : strip_trailing_slashes ("/" +:+ String c r) = "/" +:+ String c r).
      { change ("/" +:+ String c r) with (String "/" (String c r)).
        cbn [strip_trailing_slashes] in *. by rewrite Hidem. }
      rewrite Hq, Hs.
      change ("/" +:+ String c r) with (String "/" (String c r)).
      cbn [Path.is_absolute]. change (Ascii.eqb "/" Path.slash) with true. cbn iota.
      repeat split; auto.
Qed.

(** *** The mount table *)

Lemma find_assign_eq (key value : string) (m : list (string * string)) :
  find_mount key (assign key value m) = Some value.
Proof.
  induction m as [|[k v] rest IH]; cbn [assign find_mount].
  - by rewrite String.eqb_refl.
  - destruct (String.eqb key k) eqn:E; cbn [find_mount].
    + by rewrite String.eqb_refl.
    + destruct (String.ltb key k); cbn [find_mount].
      * by rewrite String.eqb_refl.
      * by rewrite E.
Qed.

Lemma find_assign_ne (key key' value : string) (m : list (string * string)) :
  key' <> key -> find_mount key' (assign key value m) = find_mount key' m.
Proof.
  intros Hne. apply String.eqb_neq in Hne.
  induction m as [|[k v] rest IH]; cbn [assign find_mount].
  - by rewrite Hne.
  - destruct (String.eqb key k) eqn:E; cbn [find_mount].
    + apply String.eqb_eq in E. subst k. by rewrite Hne.
    + destruct (String.ltb key k); cbn [find_mount].
      * by rewrite Hne.
      * by rewrite IH.
Qed.

Lemma find_erase_eq (key : string) (m : list (string * string)) :
  find_mount key (erase key m) = None.
Proof.
  induction m as [|[k v] rest IH]; [reflexivity|]. cbn [erase].
  destruct (String.eqb key k) eqn:E; [exact IH|]. cbn [find_mount]. by rewrite E.
Qed.

Lemma find_erase_ne (key key' : string) (m : list (string * string)) :
  key' <> key -> find_mount key' (erase key m) = find_mount key' m.
Proof.
  intros Hne. apply String.eqb_neq in Hne.
  induction m as [|[k v] rest IH]; [reflexivity|]. cbn [erase find_mount].
  destruct (String.eqb key k) eqn:E.
  - apply String.eqb_eq in E. subst k. by rewrite Hne.
  - cbn [find_mount]. by rewrite IH.
Qed.

(** X23. The mount table is keyed by normalised path.  After a successful
    [mount], the mount point maps to the canonical host path, [isMounted]
    answers true for every spelling that normalises to the same path, and the
    other mount points are as before; [unmount] under any such spelling
    removes the mount point again, and only it. *)
Theorem mount_isMounted_unmount
    (canonical : string -> option string) (host_exists : string -> bool)
    (vfs vfs1 : WeaR_VFS) (virtualPath spelling hostPath : string)
    (Hmount : mount canonical host_exists vfs virtualPath hostPath
              = Some (Returned true vfs1))
    (Hsame : normalizePath spelling = normalizePath virtualPath) :
  find_mount (normalizePath virtualPath) (m_mountPoints vfs1) = canonical hostPath /\
  isMounted vfs1 spelling = Returned true vfs1 /\
  (forall other, normalizePath other <> normalizePath virtualPath ->
     find_mount (normalizePath other) (m_mountPoints vfs1)
     = find_mount (normalizePath other) (m_mountPoints vfs)) /\
  exists vfs2,
    unmount vfs1 spelling = Returned tt vfs2 /\
    isMounted vfs2 virtualPath = Returned false vfs2 /\
    (forall other, normalizePath other <> normalizePath virtualPath ->
       find_mount (normalizePath other) (m_mountPoints vfs2)
       = find_mount (normalizePath other) (m_mountPoints vfs)).
Proof.
  unfold mount in Hmount.
  destruct (m_mutex vfs) eqn:Hmx; [discriminate|].
  destruct (negb (host_exists hostPath)); [discriminate|].
  destruct (canonical hostPath) as [host|] eqn:Hc; [|discriminate].
  injection Hmount as <-.
  unfold isMounted, unmount, set_mounts.
  cbn [m_mutex m_mountPoints m_openFiles m_nextFd m_totalBytesRead m_totalBytesWritten].
  rewrite Hsame, find_assign_eq.
  split; [reflexivity|]. split; [reflexivity|].
  split; [intros other Hne; by apply find_assign_ne|].
  eexists. split; [reflexivity|].
  cbn [m_mutex m_mountPoints]. rewrite find_erase_eq.
  split; [reflexivity|].
  intros other Hne. rewrite find_erase_ne by done. by apply find_assign_ne.
Qed.

Lemma mount_isMounted_unmount_witness :
  find_mount (normalizePath "app0\")
             (m_mountPoints (set_mounts [("/app0", "/tmp/game")] fresh))
  = VfsScenario.lexical "/tmp/game/" /\
  isMounted (set_mounts [("/app0", "/tmp/game")] fresh) "/app0//"
  = Returned true (set_mounts [("/app0", "/tmp/game")] fresh) /\
  (forall other, normalizePath other <> normalizePath "app0\" ->
     find_mount (normalizePath other)
                (m_mountPoints (set_mounts [("/app0", "/tmp/game")] fresh))
     = find_mount (normalizePath other) (m_mountPoints fresh)) /\
  exists vfs2,
    unmount (set_mounts [("/app0", "/tmp/game")] fresh) "/app0//" = Returned tt vfs2 /\
    isMounted vfs2 "app0\" = Returned false vfs2 /\
    (forall other, normalizePath other <> normalizePath "app0\" ->
       find_mount (normalizePath other) (m_mountPoints vfs2)
       = find_mount (normalizePath other) (m_mountPoints fresh)).
Proof.
  apply (mount_isMounted_unmount VfsScenario.lexical (fun _ => true) fresh _
           "app0\" "/app0//" "/tmp/game/").
  - vm_compute. reflexivity.
  - vm_compute. reflexivity.
Defined.

(** X24. [closeFile] on an open descriptor returns SCE_OK and removes that
    descriptor and no other from the open-file table; closing it a second
    time returns EBADF.  The descriptor counter is not moved back, so a closed
    descriptor number is not handed out again. *)
Theorem closeFile_releases_descriptor
    (vfs : WeaR_VFS) (fd : Z) (handle : FileHandle)
    (Hunlocked : m_mutex vfs = false)
    (Hopen : m_openFiles vfs !! fd = Some handle) :
  exists vfs',
    closeFile vfs fd = Returned PS4Error.SCE_OK vfs' /\
    closeFile vfs' fd = Returned PS4Error.SCE_ERROR_EBADF vfs' /\
    m_openFiles vfs' = delete fd (m_openFiles vfs) /\
    (forall fd', fd' <> fd -> m_openFiles vfs' !! fd' = m_openFiles vfs !! fd') /\
    m_nextFd vfs' = m_nextFd vfs /\
    m_mountPoints vfs' = m_mountPoints vfs.
Proof.
  unfold closeFile. rewrite Hunlocked, Hopen.
  eexists. split; [reflexivity|]. cbn [m_mutex m_openFiles m_nextFd m_mountPoints].
  rewrite lookup_delete_eq.
  repeat split; try reflexivity.
  intros fd' Hne. by rewrite lookup_delete_ne.
Qed.

Lemma closeFile_releases_descriptor_witness :
  exists vfs',
    closeFile (snd (add_handle fresh (mkHandle None "/tmp/game" 0 true))) 10
      = Returned PS4Error.SCE_OK vfs' /\
    closeFile vfs' 10 = Returned PS4Error.SCE_ERROR_EBADF vfs' /\
    m_openFiles vfs'
      = delete 10 (m_openFiles (snd (add_handle fresh (mkHandle None "/tmp/game" 0 true)))) /\
    (forall fd', fd' <> 10 ->
       m_openFiles vfs' !! fd'
       = m_openFiles (snd (add_handle fresh (mkHandle None "/tmp/game" 0 true))) !! fd') /\
    m_nextFd vfs' = m_nextFd (snd (add_handle fresh (mkHandle None "/tmp/game" 0 true))) /\
    m_mountPoints vfs'
      = m_mountPoints (snd (add_handle fresh (mkHandle None "/tmp/game" 0 true))).
Proof.
  apply (closeFile_releases_descriptor _ 10 (mkHandle None "/tmp/game" 0 true)).
  - reflexivity.
  - vm_compute. reflexivity.
Defined.

(** *** Mount selection *)

Lemma best_match_spec (normalized : string) (mounts : list (string * string)) :
  forall best,
    let res := best_match normalized mounts best in
    (res = best \/
     (res ∈ mounts /\ String.prefix (fst res) normalized = true /\
      (String.length (fst best) < String.length (fst res))%nat)) /\
    (forall m, m ∈ mounts -> String.prefix (fst m) normalized = true ->
       (String.length (fst m) <= String.length (fst res))%nat).
Proof.
  induction mounts as [|[mp host] rest IH]; intros best; cbn [best_match].
  - split; [by left|]. intros m Hin. by apply elem_of_nil in Hin.
  - cbn zeta in IH.
    destruct (String.prefix mp normalized) eqn:Hp; cbn [andb].
    + destruct (Nat.ltb_spec (String.length (fst best)) (String.length mp)) as [Hlt|Hge].
      * destruct (IH (mp, host)) as [[Heq|(Hin & Hpre & Hlen)] Hall]; cbn [fst] in *.
        -- rewrite Heq. cbn [fst]. split.
           ++ right. split; [apply list_elem_of_here|]. split; [exact Hp | exact Hlt].
           ++ intros m [->|Hin]%elem_of_cons Hm; [cbn; lia|].
              specialize (Hall m Hin Hm). rewrite Heq in Hall. exact Hall.
        -- split.
           ++ right. split; [by apply list_elem_of_further|]. split; [exact Hpre | lia].
           ++ intros m [->|Hin']%elem_of_cons Hm; [cbn; lia | by apply Hall].
      * destruct (IH best) as [[Heq|(Hin & Hpre & Hlen)] Hall].
        -- rewrite Heq. split; [by left|].
           intros m [->|Hin]%elem_of_cons Hm; [cbn; lia|].
           specialize (Hall m Hin Hm). by rewrite Heq in Hall.
        -- split.
           ++ right. split; [by apply list_elem_of_further|]. split; [exact Hpre | lia].
           ++ intros m [->|Hin']%elem_of_cons Hm; [cbn; lia | by apply Hall].
    + destruct (IH best) as [[Heq|(Hin & Hpre & Hlen)] Hall].
      * rewrite Heq. split; [by left|].
        intros m [->|Hin]%elem_of_cons Hm; [cbn in Hm; congruence|].
        specialize (Hall m Hin Hm). by rewrite Heq in Hall.
      * split.
        -- right. split; [by apply list_elem_of_further|]. split; [exact Hpre | lia].
        -- intros m [->|Hin']%elem_of_cons Hm; [cbn in Hm; congruence | by apply Hall].
Qed.

(** X25. [resolvePath] selects the mount point by longest string prefix:
    the selected entry is an entry of the mount table whose non-empty mount
    point is a prefix of the normalised guest path (or nothing is selected),
    and no mount point that is a prefix of the path is longer than the
    selected one. *)
Theorem resolve_selects_longest_mount (ps4Path : string) (mounts : list (string * string)) :
  let sel := VfsScenario.selected mounts ps4Path in
  (sel = ("", "") \/
   (sel ∈ mounts /\ fst sel <> "" /\
    String.prefix (fst sel) (normalizePath ps4Path) = true)) /\
  (forall m, m ∈ mounts -> String.prefix (fst m) (normalizePath ps4Path) = true ->
     (String.length (fst m) <= String.length (fst sel))%nat).
Proof.
  cbn zeta. unfold VfsScenario.selected.
  destruct (best_match_spec (normalizePath ps4Path) mounts ("", ""))
    as [[Heq|(Hin & Hpre & Hlen)] Hall].
  - split; [by left | exact Hall].
  - split; [|exact Hall]. right. split; [exact Hin|]. split; [|exact Hpre].
    intros Hempty. rewrite Hempty in Hlen. cbn in Hlen. lia.
Qed.

End MountFacts.

(** ** Package loader: byte order and entry extraction *)

Module PkgFormat.
Import PkgLoader PkgLayout.

(** A byte-wide mask selects one base-256 digit. *)
Lemma land_byte_mask (v k : Z) :
  0 <= k -> Z.land v (Z.shiftl 0xFF k) = ((v / 2 ^ k) mod 256) * 2 ^ k.
Proof.
  intros Hk.
  assert (H : Z.land v (Z.shiftl 0xFF k) = Z.shiftl (Z.land (Z.shiftr v k) 0xFF) k).
  { apply Z.bits_inj'. intros n Hn.
    rewrite Z.land_spec, !Z.shiftl_spec, Z.land_spec by lia.
    destruct (Z.lt_ge_cases n k) as [Hlt|Hge].
    - rewrite (Z.testbit_neg_r 255) by lia. by rewrite !andb_false_r.
    - rewrite Z.shiftr_spec by lia. by replace (n - k + k) with n by lia. }
  rewrite H. change 0xFF with (Z.ones 8).
  rewrite Z.land_ones, Z.shiftr_div_pow2, Z.shiftl_mul_pow2 by lia. reflexivity.
Qed.

Lemma lor_disjoint (hi lo k : Z) :
  0 <= k -> 0 <= lo < 2 ^ k -> Z.lor lo (hi * 2 ^ k) = hi * 2 ^ k + lo.
Proof.
  intros Hk Hlo. rewrite Z.lor_comm.
  rewrite <- (PacketFacts.lor_shiftl_low hi lo k) by lia.
  by rewrite Z.shiftl_mul_pow2.
Qed.

(** [swapEndian32] in base 256: the four digits in reverse order. *)
Lemma swapEndian32_digits (b0 b1 b2 b3 : Z) :
  0 <= b0 < 256 -> 0 <= b1 < 256 -> 0 <= b2 < 256 -> 0 <= b3 < 256 ->
  swapEndian32 (b0 + 256 * b1 + 65536 * b2 + 16777216 * b3)
  = b3 + 256 * b2 + 65536 * b1 + 16777216 * b0.
Proof.
  intros H0 H1 H2 H3. unfold swapEndian32.
  set (v := b0 + 256 * b1 + 65536 * b2 + 16777216 * b3).
  change 0xFF000000 with (Z.shiftl 0xFF 24). change 0x00FF0000 with (Z.shiftl 0xFF 16).
  change 0x0000FF00 with (Z.shiftl 0xFF 8). change 0x000000FF with (Z.shiftl 0xFF 0).
  rewrite !land_byte_mask by lia.
  rewrite !Z.shiftr_div_pow2, !Z.shiftl_mul_pow2 by lia.
  change (2 ^ 24) with 16777216. change (2 ^ 16) with 65536. change (2 ^ 8) with 256.
  change (2 ^ 0) with 1.
  assert (E3 : (v / 16777216) mod 256 = b3) by (subst v; Z.div_mod_to_equations; lia).
  assert (E2 : (v / 65536) mod 256 = b2) by (subst v; Z.div_mod_to_equations; lia).
  assert (E1 : (v / 256) mod 256 = b1) by (subst v; Z.div_mod_to_equations; lia).
  assert (E0 : (v / 1) mod 256 = b0) by (subst v; Z.div_mod_to_equations; lia).
  rewrite E3, E2, E1, E0.
  rewrite Z.div_mul by lia.
  replace (b2 * 65536 / 256) with (b2 * 256) by (Z.div_mod_to_equations; lia).
  replace (b1 * 256 * 256) with (b1 * 2 ^ 16) by lia.
  replace (b0 * 1 * 16777216) with (b0 * 2 ^ 24) by lia.
  replace (b2 * 256) with (b2 * 2 ^ 8) by lia.
  rewrite (lor_disjoint b2 b3 8) by lia.
  rewrite (lor_disjoint b1 _ 16) by lia.
  rewrite (lor_disjoint b0 _ 24) by lia. lia.
Qed.

Lemma digits32 (v : Z) :
  0 <= v < 2 ^ 32 ->
  exists b0 b1 b2 b3,
    (0 <= b0 < 256) /\ (0 <= b1 < 256) /\ (0 <= b2 < 256) /\ (0 <= b3 < 256) /\
    v = b0 + 256 * b1 + 65536 * b2 + 16777216 * b3.
Proof.
  intros Hv.
  exists (v mod 256), ((v / 256) mod 256), ((v / 65536) mod 256), (v / 16777216).
  Z.div_mod_to_equations. lia.
Qed.

Lemma swapEndian16_digits (b0 b1 : Z) :
  0 <= b0 < 256 -> 0 <= b1 < 256 -> swapEndian16 (b0 + 256 * b1) = b1 + 256 * b0.
Proof.
  intros H0 H1. unfold swapEndian16.
  set (v := b0 + 256 * b1).
  change 0xFF00 with (Z.shiftl 0xFF 8). change 0x00FF with (Z.shiftl 0xFF 0).
  rewrite !land_byte_mask by lia.
  rewrite !Z.shiftr_div_pow2, !Z.shiftl_mul_pow2 by lia.
  change (2 ^ 8) with 256. change (2 ^ 0) with 1.
  assert (E1 : (v / 256) mod 256 = b1) by (subst v; Z.div_mod_to_equations; lia).
  assert (E0 : (v / 1) mod 256 = b0) by (subst v; Z.div_mod_to_equations; lia).
  rewrite E1, E0, Z.div_mul by lia.
  replace (b0 * 1 * 256) with (b0 * 2 ^ 8) by lia.
  rewrite (lor_disjoint b0 b1 8) by lia.
  unfold u16. rewrite Z.mod_small by lia. lia.
Qed.

Lemma swapEndian_range32 (v : Z) : 0 <= v < 256 ^ 4 -> 0 <= swapEndian32 v.
Proof.
  intros Hv. destruct (digits32 v ltac:(lia)) as (b0 & b1 & b2 & b3 & H0 & H1 & H2 & H3 & ->).
  rewrite swapEndian32_digits by lia. lia.
Qed.

(** X26. The byte swaps are involutions: [swapEndian32] maps 32-bit values
    to 32-bit values and applying it twice gives the value back; likewise
    [swapEndian16] on 16-bit values. *)
Theorem swapEndian_involutive
    (v w : Z) (Hv : 0 <= v < 2 ^ 32) (Hw : 0 <= w < 2 ^ 16) :
  (0 <= swapEndian32 v < 2 ^ 32) /\ swapEndian32 (swapEndian32 v) = v /\
  (0 <= swapEndian16 w < 2 ^ 16) /\ swapEndian16 (swapEndian16 w) = w.
Proof.
  destruct (digits32 v Hv) as (b0 & b1 & b2 & b3 & H0 & H1 & H2 & H3 & ->).
  assert (Hd : exists c0 c1, (0 <= c0 < 256) /\ (0 <= c1 < 256) /\ w = c0 + 256 * c1).
  { exists (w mod 256), (w / 256). Z.div_mod_to_equations. lia. }
  destruct Hd as (c0 & c1 & G0 & G1 & ->).
  rewrite !swapEndian32_digits, !swapEndian16_digits by lia. lia.
Qed.

Lemma swapEndian_involutive_witness :
  (0 <= swapEndian32 PKG_MAGIC < 2 ^ 32) /\
  swapEndian32 (swapEndian32 PKG_MAGIC) = PKG_MAGIC /\
  (0 <= swapEndian16 0x1234 < 2 ^ 16) /\ swapEndian16 (swapEndian16 0x1234) = 0x1234.
Proof.
  apply (swapEndian_involutive PKG_MAGIC 0x1234); vm_compute; split; (discriminate || reflexivity).
Defined.

(** *** Entry extraction *)

(** X27. What [extractEntry] returns is a non-empty slice of the package
    file: when it returns data for an id, the loader is loaded, the data are
    the bytes of the first table entry with that id, from its offset on, cut
    at the end of the file, and their number is the smaller of the entry's
    size and the bytes left in the file, between 1 and 2 GiB. *)
Theorem extractEntry_returns_slice
    (pkg : WeaR_PkgLoader) (entryId : Z) (data : list Byte.byte)
    (Hrange : Forall entry_in_range (m_entries pkg))
    (Hval : extractEntry pkg entryId = Value data) :
  exists e file,
    m_loaded pkg = true /\
    find_entry entryId (m_entries pkg) = Some e /\ id e = entryId /\
    m_pkgPath pkg = Some file /\
    data = take (Z.to_nat (dataSize e)) (drop (Z.to_nat (dataOffset e)) file) /\
    Z.of_nat (length data)
    = Z.min (dataSize e) (Z.of_nat (length file) - dataOffset e) /\
    0 < Z.of_nat (length data) <= GiB2.
Proof.
  unfold extractEntry in Hval.
  destruct (m_loaded pkg) eqn:Hl; [|discriminate]. cbn [negb] in Hval.
  destruct (find_entry entryId (m_entries pkg)) as [e|] eqn:Hfind; [|discriminate].
  assert (Hin : e ∈ m_entries pkg /\ id e = entryId).
  { clear -Hfind. induction (m_entries pkg) as [|x rest IH]; [discriminate|].
    cbn [find_entry] in Hfind. destruct (Z.eqb_spec (id x) entryId) as [Heq|Hne].
    - injection Hfind as ->. split; [apply list_elem_of_here | exact Heq].
    - destruct (IH Hfind) as [Hin Hid]. split; [by apply list_elem_of_further | exact Hid]. }
  destruct Hin as [Hin Hid].
  rewrite Forall_forall in Hrange. destruct (Hrange e Hin) as [Hoff Hsz].
  destruct (m_pkgPath pkg) as [file|]; [|discriminate].
  destruct (Z.leb_spec (Z.of_nat (length file)) (dataOffset e)); [discriminate|].
  destruct (Z.eqb_spec (dataSize e) 0); [discriminate|].
  exists e, file.
  destruct (Z.ltb_spec (Z.of_nat (length file) - dataOffset e) (dataSize e)) as [Hcut|Hfit];
    (match type of Hval with (if ?c then _ else _) = _ => destruct c eqn:Hbig end;
     [discriminate|]); apply Z.ltb_ge in Hbig; injection Hval as <-.
  - rewrite !take_ge by (rewrite length_drop; lia).
    rewrite length_drop. repeat split; try reflexivity; lia.
  - rewrite length_take, length_drop. repeat split; try reflexivity; lia.
Qed.

Lemma extractEntry_returns_slice_witness :
  exists e file,
    m_loaded PkgScenario.s2 = true /\
    find_entry 0x1003 (m_entries PkgScenario.s2) = Some e /\ id e = 0x1003 /\
    m_pkgPath PkgScenario.s2 = Some file /\
    take (Z.to_nat 4096) (drop (Z.to_nat 512) PkgScenario.s2_file)
    = take (Z.to_nat (dataSize e)) (drop (Z.to_nat (dataOffset e)) file) /\
    Z.of_nat (length (take (Z.to_nat 4096) (drop (Z.to_nat 512) PkgScenario.s2_file)))
    = Z.min (dataSize e) (Z.of_nat (length file) - dataOffset e) /\
    0 < Z.of_nat (length (take (Z.to_nat 4096) (drop (Z.to_nat 512) PkgScenario.s2_file)))
      <= GiB2.
Proof.
  apply (extractEntry_returns_slice PkgScenario.s2 0x1003).
  - repeat constructor; vm_compute; discriminate || reflexivity.
  - vm_compute. reflexivity.
Defined.

(** *** Loading a package *)

Lemma le_range (l : list Byte.byte) : 0 <= le l < 256 ^ Z.of_nat (length l).
Proof.
  induction l as [|b rest IH]; [simpl; lia|].
  cbn [le fold_right length]. fold (le rest).
  pose proof (MemAccess.byte_to_Z_range b).
  rewrite Nat2Z.inj_succ, Z.pow_succ_r by lia. lia.
Qed.

(** Converting the host's reading of four bytes gives their big-endian value. *)
Lemma swapEndian32_le (l : list Byte.byte) :
  length l = 4%nat -> swapEndian32 (le l) = be l.
Proof.
  destruct l as [|a [|b [|c [|d [|]]]]]; try discriminate. intros _.
  unfold le, be. cbn [fold_right fold_left].
  pose proof (MemAccess.byte_to_Z_range a). pose proof (MemAccess.byte_to_Z_range b).
  pose proof (MemAccess.byte_to_Z_range c). pose proof (MemAccess.byte_to_Z_range d).
  replace (byte_to_Z a + 256 * (byte_to_Z b + 256 * (byte_to_Z c + 256 * (byte_to_Z d + 256 * 0))))
    with (byte_to_Z a + 256 * byte_to_Z b + 65536 * byte_to_Z c + 16777216 * byte_to_Z d)
    by lia.
  rewrite swapEndian32_digits by lia. lia.
Qed.

(** A member that lies inside the first [m] bytes of the file. *)
Lemma member_take (bytes : list Byte.byte) (m off n : nat) :
  (off + n <= m)%nat -> member (take m bytes) off n = le (take n (drop off bytes)).
Proof.
  intros Hle. unfold member. rewrite skipn_firstn_comm, take_take.
  by replace (n `min` (m - off))%nat with n by lia.
Qed.

Lemma member_be32 (bytes : list Byte.byte) (m off : nat) :
  (off + 4 <= m)%nat -> (off + 4 <= length bytes)%nat ->
  swapEndian32 (member (take m bytes) off 4) = be32 bytes off.
Proof.
  intros Hm Hlen. rewrite member_take by lia. unfold be32.
  apply swapEndian32_le. rewrite length_take, length_drop. lia.
Qed.

Lemma converted_entry_at (bytes : list Byte.byte) (base : nat) :
  (base + 32 <= length bytes)%nat ->
  convert_entry (raw_entry (take ENTRY_SIZE (drop base bytes))) = entry_at bytes base.
Proof.
  intros Hlen. unfold convert_entry, raw_entry, entry_at, ENTRY_SIZE.
  cbn [id filenameOffset flags1 flags2 dataOffset dataSize padding].
  rewrite !member_be32 by (rewrite ?length_drop; lia).
  rewrite member_take by lia.
  unfold be32. rewrite !drop_drop, Nat.add_0_r. reflexivity.
Qed.

Lemma read_table_fits (n : nat) :
  forall (bytes : list Byte.byte) (base : nat) (i : Z),
    (base + 32 * n <= length bytes)%nat ->
    read_table (drop base bytes) i n
    = ((fun j => entry_at bytes (base + 32 * j)) <$> seq 0 n, None).
Proof.
  induction n as [|k IH]; intros bytes base i Hfit; [reflexivity|].
  cbn [read_table]. unfold ENTRY_SIZE at 1.
  destruct (Nat.leb_spec 32 (length (drop base bytes))) as [_|Hshort];
    [|rewrite length_drop in Hshort; lia].
  unfold ENTRY_SIZE at 1. rewrite drop_drop. rewrite (IH bytes (base + 32)%nat) by lia.
  rewrite converted_entry_at by lia.
  cbn [seq fmap list_fmap]. rewrite <- fmap_S_seq, <- list_fmap_compose.
  rewrite Nat.mul_0_r, Nat.add_0_r. do 2 f_equal.
  apply list_fmap_ext. intros _ j _. cbn. f_equal. lia.
Qed.

(** X28. [loadPackage] decodes the table as big-endian: for a file of at
    least 236 bytes that starts with the magic [7F 43 4E 54] and holds the
    whole entry table (at the table offset read from byte 20, with the entry
    count read from byte 12), it returns the package information and leaves
    the loader loaded with, for every [j] below the count, the entry whose
    six members are the big-endian words at the table offset plus [32 j]. *)
Theorem loadPackage_decodes_big_endian
    (alloc_ok : Z -> bool) (pkgPath : string) (bytes : list Byte.byte) (ec : string)
    (Hsize : (HEADER_SIZE <= length bytes)%nat)
    (Hmagic : take 4 bytes = MAGIC_BYTES)
    (Halloc : alloc_ok (be32 bytes 12) = true)
    (Hfit : be32 bytes 20 + 32 * be32 bytes 12 <= Z.of_nat (length bytes)) :
  loadPackage alloc_ok pkgPath (Some bytes) ec true
  = (Ok (Value (mkInfo (c_string (take 36 (drop 60 bytes))) (be32 bytes 112)
                       (be32 bytes 12) pkgPath)),
     mkPkgLoader
       ((fun j => entry_at bytes (Z.to_nat (be32 bytes 20) + 32 * j))
          <$> seq 0 (Z.to_nat (be32 bytes 12)))
       (Some bytes) ec true).
Proof.
  unfold HEADER_SIZE in Hsize. unfold loadPackage. cbn [negb]. unfold HEADER_SIZE.
  destruct (Nat.ltb_spec (length bytes) 236); [lia|].
  rewrite !member_be32 by lia.
  assert (Hm : be32 bytes 0 = PKG_MAGIC).
  { unfold be32. rewrite drop_0, Hmagic. reflexivity. }
  rewrite Hm, Z.eqb_refl, Halloc. cbn [negb].
  assert (Hpos : 0 <= be32 bytes 20 /\ 0 <= be32 bytes 12).
  { unfold be32. split.
    - rewrite <- swapEndian32_le by (rewrite length_take, length_drop; lia).
      pose proof (le_range (take 4 (drop 20 bytes))) as Hr.
      rewrite length_take, length_drop in Hr.
      replace (Z.of_nat (4 `min` (length bytes - 20))) with 4 in Hr by lia.
      apply (swapEndian_range32 _ Hr).
    - rewrite <- swapEndian32_le by (rewrite length_take, length_drop; lia).
      pose proof (le_range (take 4 (drop 12 bytes))) as Hr.
      rewrite length_take, length_drop in Hr.
      replace (Z.of_nat (4 `min` (length bytes - 12))) with 4 in Hr by lia.
      apply (swapEndian_range32 _ Hr). }
  rewrite read_table_fits by lia.
  rewrite skipn_firstn_comm, take_take.
  replace (36 `min` (236 - 60))%nat with 36%nat by lia. reflexivity.
Qed.

Lemma loadPackage_decodes_big_endian_witness :
  loadPackage (fun _ => true) "game.pkg" (Some tiny_file) "" true
  = (Ok (Value (mkInfo (c_string (take 36 (drop 60 tiny_file))) (be32 tiny_file 112)
                       (be32 tiny_file 12) "game.pkg")),
     mkPkgLoader
       ((fun j => entry_at tiny_file (Z.to_nat (be32 tiny_file 20) + 32 * j))
          <$> seq 0 (Z.to_nat (be32 tiny_file 12)))
       (Some tiny_file) "" true).
Proof.
  apply (loadPackage_decodes_big_endian (fun _ => true) "game.pkg" tiny_file "").
  - vm_compute. lia.
  - reflexivity.
  - reflexivity.
  - vm_compute. discriminate.
Defined.

Lemma read_table_length (n : nat) :
  forall (stream : list Byte.byte) (i : Z), length (fst (read_table stream i n)) = n.
Proof.
  induction n as [|k IH]; intros stream i; [reflexivity|]. cbn [read_table].
  destruct (ENTRY_SIZE <=? length stream)%nat.
  - specialize (IH (drop ENTRY_SIZE stream) (i + 1)).
    destruct (read_table (drop ENTRY_SIZE stream) (i + 1) k) as [entries failed].
    cbn in *. by rewrite IH.
  - cbn. by rewrite repeat_length.
Qed.

(** X29. [loadPackage] sets the loaded flag exactly when it returns a
    value: then the table has as many entries as the information says; when
    it returns an error or throws, the loader is left unloaded, so that
    [extractEntry] answers "No PKG loaded" for every id and [extractEboot]
    "No PKG loaded or no entries found".  The loader remembers the file in
    either case. *)
Theorem loadPackage_loaded_iff_returned
    (alloc_ok : Z -> bool) (pkgPath : string) (file : option (list Byte.byte))
    (ec : string) (opens : bool) :
  let r := loadPackage alloc_ok pkgPath file ec opens in
  m_pkgPath (snd r) = file /\
  match fst r with
  | Ok (Value info) =>
    m_loaded (snd r) = true /\
    length (m_entries (snd r)) = Z.to_nat (entryCount info) /\
    sourcePath info = pkgPath
  | _ =>
    m_loaded (snd r) = false /\
    (forall entryId, extractEntry (snd r) entryId = Unexpected "No PKG loaded") /\
    extractEboot (snd r) = Unexpected "No PKG loaded or no entries found"
  end.
Proof.
  cbn zeta. unfold loadPackage.
  destruct file as [bytes|]; [|done].
  destruct opens; cbn [negb]; [|done].
  destruct (length bytes <? HEADER_SIZE)%nat; [done|].
  destruct (negb (_ =? PKG_MAGIC)); [done|].
  destruct (negb (alloc_ok _)); [done|].
  match goal with |- context [read_table ?s ?i ?n] =>
    pose proof (read_table_length n s i) as Hlen;
    destruct (read_table s i n) as [entries [failure|]]
  end; [done|].
  cbn in *. done.
Qed.

Lemma byte_to_Z_inj (x y : Byte.byte) : byte_to_Z x = byte_to_Z y -> x = y.
Proof.
  unfold byte_to_Z. intros H. apply N2Z.inj in H.
  pose proof (Byte.of_to_N x) as Hx. rewrite H, Byte.of_to_N in Hx. congruence.
Qed.

Lemma be_magic (l : list Byte.byte) :
  length l = 4%nat -> be l = PKG_MAGIC -> l = MAGIC_BYTES.
Proof.
  destruct l as [|a [|b [|c [|d [|]]]]]; try discriminate. intros _.
  unfold be, PKG_MAGIC, MAGIC_BYTES. cbn [fold_left].
  pose proof (MemAccess.byte_to_Z_range a). pose proof (MemAccess.byte_to_Z_range b).
  pose proof (MemAccess.byte_to_Z_range c). pose proof (MemAccess.byte_to_Z_range d).
  intros Heq.
  assert (byte_to_Z a = byte_to_Z Byte.x7f) by (change (byte_to_Z Byte.x7f) with 127; lia).
  assert (byte_to_Z b = byte_to_Z Byte.x43) by (change (byte_to_Z Byte.x43) with 67; lia).
  assert (byte_to_Z c = byte_to_Z Byte.x4e) by (change (byte_to_Z Byte.x4e) with 78; lia).
  assert (byte_to_Z d = byte_to_Z Byte.x54) by (change (byte_to_Z Byte.x54) with 84; lia).
  f_equal; [|f_equal; [|f_equal; [|f_equal]]]; by apply byte_to_Z_inj.
Qed.

(** A table that runs past the end of the file: the read of the first entry
    that does not fit fails. *)
Lemma read_table_overrun (n : nat) :
  forall (stream : list Byte.byte) (i : Z),
    (length stream < 32 * n)%nat ->
    snd (read_table stream i n) = Some (i + Z.of_nat (length stream / 32)).
Proof.
  induction n as [|k IH]; intros stream i Hshort; [lia|]. cbn [read_table].
  unfold ENTRY_SIZE at 1.
  destruct (Nat.leb_spec 32 (length stream)) as [Hge|Hlt].
  - specialize (IH (drop ENTRY_SIZE stream) (i + 1)).
    unfold ENTRY_SIZE in *. rewrite length_drop in IH.
    destruct (read_table (drop 32 stream) (i + 1) k) as [entries failed].
    cbn [snd] in *. rewrite IH by lia. f_equal.
    replace (length stream) with (length stream - 32 + 1 * 32)%nat at 2 by lia.
    rewrite Nat.div_add by lia. lia.
  - cbn [snd]. rewrite Nat.div_small by lia. f_equal. lia.
Qed.

(** X30. [loadPackage] rejects a malformed file with an error value: a file
    shorter than the 236-byte header ("Failed to read PKG header"), a file
    that does not start with the magic bytes ("Invalid PKG magic", with the
    word found), and a file that ends before the last announced table entry
    ("Failed to read entry i of n", [i] being the first entry that is not
    wholly in the file). *)
Theorem loadPackage_rejects_malformed
    (alloc_ok : Z -> bool) (pkgPath : string) (bytes : list Byte.byte) (ec : string)
    (Hbad : (length bytes < HEADER_SIZE)%nat \/
            take 4 bytes <> MAGIC_BYTES \/
            (alloc_ok (be32 bytes 12) = true /\ 0 < be32 bytes 12 /\
             Z.of_nat (length bytes) < be32 bytes 20 + 32 * be32 bytes 12)) :
  exists message,
    fst (loadPackage alloc_ok pkgPath (Some bytes) ec true) = Ok (Unexpected message) /\
    ((length bytes < HEADER_SIZE)%nat ->
       message = "Failed to read PKG header - file may be corrupted or too small") /\
    ((HEADER_SIZE <= length bytes)%nat -> take 4 bytes <> MAGIC_BYTES ->
       message = "Invalid PKG magic: 0x" +:+ fmt_0X 8 (be32 bytes 0) +:+ " (expected 0x"
                 +:+ fmt_0X 8 PKG_MAGIC +:+ ")") /\
    ((HEADER_SIZE <= length bytes)%nat -> take 4 bytes = MAGIC_BYTES ->
       message = "Failed to read entry "
                 +:+ fmt_u (Z.of_nat ((length bytes - Z.to_nat (be32 bytes 20)) / 32))
                 +:+ " of " +:+ fmt_u (be32 bytes 12)).
Proof.
  unfold HEADER_SIZE in *. unfold loadPackage. cbn [negb]. unfold HEADER_SIZE.
  destruct (Nat.ltb_spec (length bytes) 236) as [Hshort|Hlong].
  - eexists. split; [reflexivity|]. split; [done|]. split; intros; lia.
  - rewrite !member_be32 by lia.
    destruct (Z.eqb_spec (be32 bytes 0) PKG_MAGIC) as [Hm|Hm]; cbn [negb].
    + assert (Hmagic : take 4 bytes = MAGIC_BYTES).
      { apply be_magic; [rewrite length_take; lia|].
        unfold be32 in Hm. by rewrite drop_0 in Hm. }
      destruct Hbad as [?|[?|(Halloc & Hcount & Hover)]]; [lia | done |].
      rewrite Halloc. cbn [negb].
      assert (Hpos : 0 <= be32 bytes 20 /\ 0 <= be32 bytes 12).
      { unfold be32. split.
        - rewrite <- swapEndian32_le by (rewrite length_take, length_drop; lia).
          pose proof (le_range (take 4 (drop 20 bytes))) as Hr.
          rewrite length_take, length_drop in Hr.
          replace (Z.of_nat (4 `min` (length bytes - 20))) with 4 in Hr by lia.
          apply (swapEndian_range32 _ Hr).
        - rewrite <- swapEndian32_le by (rewrite length_take, length_drop; lia).
          pose proof (le_range (take 4 (drop 12 bytes))) as Hr.
          rewrite length_take, length_drop in Hr.
          replace (Z.of_nat (4 `min` (length bytes - 12))) with 4 in Hr by lia.
          apply (swapEndian_range32 _ Hr). }
      pose proof (read_table_overrun (Z.to_nat (be32 bytes 12))
                    (drop (Z.to_nat (be32 bytes 20)) bytes) 0) as Hfail.
      rewrite length_drop in Hfail. specialize (Hfail ltac:(lia)).
      destruct (read_table _ 0 _) as [entries failure]. cbn [snd] in Hfail. subst failure.
      eexists. split; [reflexivity|]. split; [lia|]. split; [done|].
      intros _ _. by rewrite Z.add_0_l.
    + eexists. split; [reflexivity|]. split; [lia|]. split; [done|].
      intros _ Hmagic. exfalso. apply Hm.
      unfold be32. rewrite drop_0, Hmagic. reflexivity.
Qed.

Lemma loadPackage_rejects_malformed_witness :
  exists message,
    fst (loadPackage (fun _ => true) "game.pkg" (Some (take 250 tiny_file)) "" true)
    = Ok (Unexpected message) /\
    ((length (take 250 tiny_file) < HEADER_SIZE)%nat ->
       message = "Failed to read PKG header - file may be corrupted or too small") /\
    ((HEADER_SIZE <= length (take 250 tiny_file))%nat ->
       take 4 (take 250 tiny_file) <> MAGIC_BYTES ->
       message = "Invalid PKG magic: 0x" +:+ fmt_0X 8 (be32 (take 250 tiny_file) 0)
                 +:+ " (expected 0x" +:+ fmt_0X 8 PKG_MAGIC +:+ ")") /\
    ((HEADER_SIZE <= length (take 250 tiny_file))%nat ->
       take 4 (take 250 tiny_file) = MAGIC_BYTES ->
       message = "Failed to read entry "
                 +:+ fmt_u (Z.of_nat ((length (take 250 tiny_file)
                                       - Z.to_nat (be32 (take 250 tiny_file) 20)) / 32))
                 +:+ " of " +:+ fmt_u (be32 (take 250 tiny_file) 12)).
Proof.
  apply (loadPackage_rejects_malformed (fun _ => true) "game.pkg" (take 250 tiny_file) "").
  right. right. split; [reflexivity|]. split; vm_compute; reflexivity.
Defined.

End PkgFormat.
